(** * GitHub email scraper: extraction, deduplication and orchestration

    A shallow embedding of [index.js], [upwork-scraper.js] and
    [puppeteer-scraper.js], and the properties of the extraction and
    deduplication pipeline proved (or refuted) on it.

    Conventions.
    - A JavaScript string is a [list ascii], one element per code unit.
      Every literal and every class of the two patterns is ASCII, and a
      code unit above 127 is never equal to an ASCII one, also after the
      case folding of the [i] flag, so all higher code units behave alike.
    - [null] and [undefined] are [None].
    - Network calls (Octokit, axios, Puppeteer) are answers read from a
      [World] record: each either succeeds with data or fails with an error
      that may carry an HTTP status.
    - Delays, user agents, headers and most console output do not influence
      any result and are left out. *)

From stdpp Require Import base list gmap strings.
From Stdlib Require Import Ascii.
From Stdlib Require String.

Set Default Proof Using "Type".
Local Open Scope nat_scope.

(** ** Strings *)

Module JSString.

(** The code units of a string literal. *)
Definition chars (s : string) : list ascii := String.list_ascii_of_string s.
Arguments chars s%_string.

Definition code (c : ascii) : nat := nat_of_ascii c.

Definition between (lo hi : nat) (c : ascii) : bool :=
  (lo <=? code c) && (code c <=? hi).

Definition is_lower : ascii -> bool := between 97 122.
Definition is_upper : ascii -> bool := between 65 90.
Definition is_digit : ascii -> bool := between 48 57.
Definition is_letter (c : ascii) : bool := is_lower c || is_upper c.

Definition to_upper (c : ascii) : ascii :=
  if is_lower c then ascii_of_nat (code c - 32) else c.
Definition to_lower (c : ascii) : ascii :=
  if is_upper c then ascii_of_nat (code c + 32) else c.

Definition one_of (s : string) (c : ascii) : bool :=
  existsb (Ascii.eqb c) (chars s).

(** [s.startsWith(p)], as a recursive test on the code units. *)
Fixpoint starts_with (p s : list ascii) : bool :=
  match p, s with
  | [], _ => true
  | a :: p', b :: s' => Ascii.eqb a b && starts_with p' s'
  | _ :: _, [] => false
  end.

(** [s.includes(p)]: [p] occurs at some position of [s]. *)
Fixpoint includes (s p : list ascii) : bool :=
  starts_with p s ||
  match s with
  | [] => false
  | _ :: s' => includes s' p
  end.

(** JavaScript truthiness of a value that is a string or absent. *)
Definition truthy (v : option (list ascii)) : bool :=
  match v with
  | Some (_ :: _) => true
  | _ => false
  end.

End JSString.

(** ** Regular expressions with backtracking and [lastIndex] *)

Module Regex.
Import JSString.

(** The fragment of the pattern language the two patterns are written in.
    Every quantifier of the sources applies to a character class or to a
    group without quantifiers of its own. *)
Inductive regex : Type :=
| Chr (c : ascii)                       (* a literal character *)
| Str (w : list ascii)                  (* a run of literal characters *)
| Class (p : ascii -> bool)             (* [...] *)
| Seq (r1 r2 : regex)                   (* r1r2 *)
| Opt (r : regex)                       (* r?  greedy *)
| Rep (n : nat) (p : ascii -> bool)     (* [...]{n,} greedy; + is {1,} *)
| Group (r : regex).                    (* ( r ), capturing *)

Fixpoint ngroups (r : regex) : nat :=
  match r with
  | Seq r1 r2 => ngroups r1 + ngroups r2
  | Opt r => ngroups r
  | Group r => S (ngroups r)
  | _ => 0
  end.

(** Case folding of the [i] flag: upper case for ASCII letters. *)
Definition canon (icase : bool) (c : ascii) : ascii :=
  if icase then to_upper c else c.

Definition chr_ok (icase : bool) (c x : ascii) : bool :=
  Ascii.eqb (canon icase x) (canon icase c).

(** A class matches [x] when it holds a character with the same folding;
    for an ASCII class these are [x] and its two case variants. *)
Definition class_ok (icase : bool) (p : ascii -> bool) (x : ascii) : bool :=
  if icase then p x || p (to_upper x) || p (to_lower x) else p x.

Fixpoint str_ok (icase : bool) (w s : list ascii) : option (list ascii) :=
  match w, s with
  | [], _ => Some s
  | c :: w', x :: s' => if chr_ok icase c x then str_ok icase w' s' else None
  | _ :: _, [] => None
  end.

(** The remainders after a greedy [{n,}] of a class, longest run first. *)
Fixpoint rep (ok : ascii -> bool) (n : nat) (s : list ascii)
  : list (list ascii) :=
  let stop := if n is 0 then [s] else [] in
  match s with
  | x :: s' => if ok x then rep ok (pred n) s' ++ stop else stop
  | [] => stop
  end.

Definition captures := list (option (list ascii)).

(** All the ways [r] matches a prefix of [s], in the order in which a
    backtracking matcher tries them: each is the captures and the
    remainder of [s]. The first is the matcher's answer. *)
Fixpoint run (icase : bool) (r : regex) (s : list ascii)
  : list (captures * list ascii) :=
  match r with
  | Chr c =>
      match s with
      | x :: s' => if chr_ok icase c x then [([], s')] else []
      | [] => []
      end
  | Str w =>
      match str_ok icase w s with
      | Some s' => [([], s')]
      | None => []
      end
  | Class p =>
      match s with
      | x :: s' => if class_ok icase p x then [([], s')] else []
      | [] => []
      end
  | Seq r1 r2 =>
      flat_map (fun m1 =>
        map (fun m2 => (m1.1 ++ m2.1, m2.2)) (run icase r2 m1.2))
        (run icase r1 s)
  | Opt r' => run icase r' s ++ [(repeat None (ngroups r'), s)]
  | Rep n p => map (fun s' => ([], s')) (rep (class_ok icase p) n s)
  | Group r' =>
      map (fun m => (Some (take (length s - length m.2) s) :: m.1, m.2))
          (run icase r' s)
  end.

(** A successful match: [index], [match[0]] and the groups from 1 on. *)
Record result : Type := Match {
  index : nat;
  whole : list ascii;
  groups : captures
}.

(** [group m k] is [match[k]] for [k >= 1]. *)
Definition group (m : result) (k : nat) : option (list ascii) :=
  match groups m !! pred k with
  | Some g => g
  | None => None
  end.

(** The first position at or after [i] at which the pattern matches;
    [s] is the text from position [i] on. *)
Fixpoint search (icase : bool) (r : regex) (s : list ascii) (i : nat)
  : option result :=
  match run icase r s with
  | m :: _ => Some (Match i (take (length s - length m.2) s) m.1)
  | [] =>
      match s with
      | [] => None
      | _ :: s' => search icase r s' (S i)
      end
  end.

(** [re.exec(text)] for a pattern with the [g] flag whose [lastIndex] is
    [lastIndex]: the match, if any, and the new [lastIndex]. *)
Definition exec (icase : bool) (r : regex) (text : list ascii)
    (lastIndex : nat) : option result * nat :=
  if length text <? lastIndex then (None, 0)
  else
    match search icase r (drop lastIndex text) lastIndex with
    | Some m => (Some m, index m + length (whole m))
    | None => (None, 0)
    end.

(** The loop of [text.match(re)] for a pattern with the [g] flag: [exec]
    until it fails, stepping over an empty match. Every round moves
    [lastIndex] forward, so [length text + 2] rounds always suffice. *)
Fixpoint match_loop (fuel : nat) (icase : bool) (r : regex)
    (text : list ascii) (lastIndex : nat) : list (list ascii) :=
  match fuel with
  | 0 => []
  | S fuel' =>
      match exec icase r text lastIndex with
      | (Some m, li) =>
          whole m ::
          match_loop fuel' icase r text (if whole m is [] then S li else li)
      | (None, _) => []
      end
  end.

(** [text.match(re)]: [null] when nothing matches. *)
Definition match_all (icase : bool) (r : regex) (text : list ascii)
  : option (list (list ascii)) :=
  match match_loop (length text + 2) icase r text 0 with
  | [] => None
  | ms => Some ms
  end.

(** What a pattern denotes: the words it can match. *)
Fixpoint lang (icase : bool) (r : regex) (w : list ascii) : Prop :=
  match r with
  | Chr c => exists x, w = [x] /\ chr_ok icase c x = true
  | Str l => length w = length l /\ str_ok icase l w = Some []
  | Class p => exists x, w = [x] /\ class_ok icase p x = true
  | Seq r1 r2 => exists u v, w = u ++ v /\ lang icase r1 u /\ lang icase r2 v
  | Opt r' => w = [] \/ lang icase r' w
  | Rep n p => n <= length w /\ forallb (class_ok icase p) w = true
  | Group r' => lang icase r' w
  end.

End Regex.

(** ** The two patterns of the sources *)

Module Patterns.
Import JSString Regex.

(** [[a-zA-Z0-9._%+-]] *)
Definition local_char (c : ascii) : bool :=
  is_letter c || is_digit c || one_of "._%+-" c.
(** [[a-zA-Z0-9.-]] *)
Definition domain_char (c : ascii) : bool :=
  is_letter c || is_digit c || one_of ".-" c.
(** [[a-zA-Z0-9_-]] *)
Definition user_char (c : ascii) : bool :=
  is_letter c || is_digit c || one_of "_-" c.

(** [/[a-zA-Z0-9._%+-]+@[a-zA-Z0-9.-]+\.[a-zA-Z]{2,}/g] *)
Definition emailRegex : regex :=
  Seq (Rep 1 local_char)
 (Seq (Chr "@")
 (Seq (Rep 1 domain_char)
 (Seq (Chr ".")
      (Rep 2 is_letter)))).

(** [/https?:\/\/(?:www\.)?github\.com\/([a-zA-Z0-9_-]+)/gi] *)
Definition githubUrlRegex : regex :=
  Seq (Str (chars "http"))
 (Seq (Opt (Chr "s"))
 (Seq (Str (chars "://"))
 (Seq (Opt (Str (chars "www.")))
 (Seq (Str (chars "github.com/"))
      (Group (Rep 1 user_char)))))).

(** [text.match(emailRegex) || []] *)
Definition match_emails (text : list ascii) : list (list ascii) :=
  match match_all false emailRegex text with
  | Some ms => ms
  | None => []
  end.

End Patterns.

(** ** JavaScript [Set]: membership by value, enumeration in insertion order *)

Module JSSet.
Section Ops.
Context {A : Type} `{EqDecision A}.

Definition has (x : A) (s : list A) : bool := bool_decide (x ∈ s).
(** [s.add(x)] *)
Definition add (x : A) (s : list A) : list A :=
  if has x s then s else s ++ [x].
(** [s.size] *)
Definition size (s : list A) : nat := length s.
(** [Array.from(s)] *)
Definition from (s : list A) : list A := s.
(** [s.clear()] *)
Definition clear (s : list A) : list A := [].
(** [xs.forEach(x => s.add(x))] *)
Definition add_all (xs : list A) (s : list A) : list A :=
  foldl (fun acc x => add x acc) s xs.

(** The values of a sequence in the order in which each is first met. *)
Fixpoint first_seen (xs : list A) : list A :=
  match xs with
  | [] => []
  | x :: xs' => x :: filter (fun y => y ≠ x) (first_seen xs')
  end.
End Ops.
End JSSet.

(** ** Answers of the network *)

Module Net.
(** A thrown error; [status] is [error.status], absent on errors that are
    not HTTP answers. *)
Record error : Type := Error { status : option nat }.

Inductive response (A : Type) : Type :=
| Ok (a : A)
| Fail (e : error).
Arguments Ok {A} a.
Arguments Fail {A} e.
End Net.

(** ** upwork-scraper.js *)

Module Upwork.
Import JSString Regex Patterns Net.

(** The regions of a profile page that the scraper reads. *)
Record profile_page : Type := ProfilePage {
  overview : list ascii;       (* $('.profile-overview').text() *)
  portfolio : list ascii;      (* $('.portfolio-section').text() *)
  experience : list ascii;     (* $('.experience-section').text() *)
  (* href of each '.portfolio-item a, .social-link a, .external-link a' *)
  hrefs : list (option (list ascii))
}.

Record World : Type := {
  (* does require('./upwork-cookies.json') find the file *)
  cookies_file : bool;
  (* href of each '.freelancer-tile-name a' of a search page *)
  get_search : nat -> response (list (option (list ascii)));
  get_profile : list ascii -> response profile_page
}.

(** What the module's calls act on: the [lastIndex] of its one
    [githubUrlRegex] and, to speak about a crawl, the search pages
    requested so far. *)
Record state : Type := State {
  lastIndex : nat;
  requested : list nat
}.

(** Computations over that state; [None] when the fuel of a loop runs
    out. *)
Definition U (A : Type) : Type := state -> option (A * state).
Definition uret {A} (a : A) : U A := fun st => Some (a, st).
Definition ubind {A B} (c : U A) (k : A -> U B) : U B :=
  fun st => match c st with
            | Some (a, st') => k a st'
            | None => None
            end.
Definition diverge {A} : U A := fun _ => None.
(** [githubUrlRegex.exec(text)] *)
Definition regex_exec (text : list ascii) : U (option result) :=
  fun st =>
    let (m, li) := exec true githubUrlRegex text (lastIndex st) in
    Some (m, State li (requested st)).
(** [githubUrlRegex.lastIndex = n] *)
Definition set_lastIndex (n : nat) : U unit :=
  fun st => Some (tt, State n (requested st)).
(** [axios.get] of a search page. *)
Definition request (page : nat) : U unit :=
  fun st => Some (tt, State (lastIndex st) (requested st ++ [page])).

Declare Scope upwork_scope.
Delimit Scope upwork_scope with U.
Notation "'let*' x := c 'in' k" := (ubind c (fun x => k))
  (at level 10, x name, c at level 100, k at level 200) : upwork_scope.
Notation "c >> k" := (ubind c (fun _ => k))
  (at level 100, k at level 200, right associativity) : upwork_scope.
Local Open Scope upwork_scope.

Definition extractGitHubUsername (url : option (list ascii))
  : U (option (list ascii)) :=
  match url with
  | Some (c :: u) =>
      set_lastIndex 0 >>
      let* match_ := regex_exec (c :: u) in
      match match_ with
      | Some m => if truthy (group m 1) then uret (group m 1) else uret None
      | None => uret None
      end
  | _ => uret None
  end.

(** [if (username) githubUsernames.add(username)] *)
Definition add_username (username : option (list ascii))
    (githubUsernames : list (list ascii)) : list (list ascii) :=
  match username with
  | Some u => if truthy username then JSSet.add u githubUsernames
              else githubUsernames
  | None => githubUsernames
  end.

(** [while ((match = githubUrlRegex.exec(fullText)) !== null) ...] *)
Fixpoint text_scan (fuel : nat) (fullText : list ascii)
    (githubUsernames : list (list ascii)) : U (list (list ascii)) :=
  match fuel with
  | 0 => diverge
  | S fuel' =>
      let* match_ := regex_exec fullText in
      match match_ with
      | Some m =>
          let* username := extractGitHubUsername (Some (whole m)) in
          text_scan fuel' fullText (add_username username githubUsernames)
      | None => uret githubUsernames
      end
  end.

(** [$('...').each((i, element) => ...)] over the anchors. *)
Fixpoint link_scan (links : list (option (list ascii)))
    (githubUsernames : list (list ascii)) : U (list (list ascii)) :=
  match links with
  | [] => uret githubUsernames
  | href :: links' =>
      let* username := extractGitHubUsername href in
      link_scan links' (add_username username githubUsernames)
  end.

Section Crawl.
Variable W : World.

Definition scrapeUpworkProfile (fuel : nat) (profileUrl : list ascii)
  : U (list (list ascii)) :=
  match get_profile W profileUrl with
  | Ok page =>
      let fullText :=
        overview page ++ chars " " ++ portfolio page ++ chars " "
          ++ experience page in
      let* githubUsernames := text_scan fuel fullText [] in
      let* githubUsernames := link_scan (hrefs page) githubUsernames in
      uret (JSSet.from githubUsernames)
  | Fail _ => uret []
  end.

(** [if (profileUrl) profileLinks.push(`https://www.upwork.com${profileUrl}`)] *)
Definition profile_links (anchors : list (option (list ascii)))
  : list (list ascii) :=
  flat_map (fun href =>
    match href with
    | Some u => if truthy href then [chars "https://www.upwork.com" ++ u]
                else []
    | None => []
    end) anchors.

Fixpoint scrape_each (fuel : nat) (profileLinks : list (list ascii))
    (githubUsernames : list (list ascii)) : U (list (list ascii)) :=
  match profileLinks with
  | [] => uret githubUsernames
  | profileUrl :: rest =>
      let* usernames := scrapeUpworkProfile fuel profileUrl in
      scrape_each fuel rest (githubUsernames ++ usernames)
  end.

Definition searchUpworkProfiles (fuel : nat) (page : nat)
  : U (list (list ascii)) :=
  if cookies_file W then
    request page >>
    match get_search W page with
    | Ok anchors => scrape_each fuel (profile_links anchors) []
    | Fail _ => uret []
    end
  else uret [].

(** The [while (continueSearch)] loop; [fuel] bounds its rounds and the
    rounds of every text scan inside. *)
Fixpoint crawl (fuel : nat) (maxPages page : nat)
    (allUsernames : list (list ascii)) : U (list (list ascii)) :=
  match fuel with
  | 0 => diverge
  | S fuel' =>
      if (0 <? maxPages) && (maxPages <? page) then uret allUsernames
      else
        let* usernames := searchUpworkProfiles (S fuel') page in
        if length usernames =? 0 then uret allUsernames
        else crawl fuel' maxPages (S page)
                   (JSSet.add_all usernames allUsernames)
  end.

Definition findGitHubAccountsFromUpwork (fuel : nat) (maxPages : nat)
  : U (list (list ascii)) :=
  let* allUsernames := crawl fuel maxPages 1 [] in
  uret (JSSet.from allUsernames).

End Crawl.

End Upwork.

(** ** The output artifact *)

Module Json.
(** The values that the scrapers hand to [JSON.stringify]; a file holds
    the value its text denotes. *)
#[local] Unset Elimination Schemes.
Inductive json : Type :=
| JString (s : list ascii)
| JArray (items : list json)
| JObject (fields : list (string * json)).
#[local] Set Elimination Schemes.

Definition is_string (v : json) : bool :=
  match v with JString _ => true | _ => false end.

(** An object with exactly the keys [email] and [source], both strings. *)
Definition is_email_record (v : json) : bool :=
  match v with
  | JObject [(k1, JString _); (k2, JString _)] =>
      bool_decide (k1 = "email"%string) && bool_decide (k2 = "source"%string)
  | _ => false
  end.
End Json.

(** ** index.js *)

Module Index.
Import JSString Regex Patterns Net Json.

Record repo : Type := Repo { owner_login : list ascii; name : list ascii }.

(** [event.type] and [event.payload?.commits?.[0]?.author?.email]. *)
Record event : Type := Event {
  type : list ascii;
  first_commit_author_email : option (list ascii)
}.

(** [commitData.author?.email] and [commitData.committer?.email]. *)
Record commit_data : Type := CommitData {
  author_email : option (list ascii);
  committer_email : option (list ascii)
}.

(** The answers of the code host's API. *)
Record World : Type := {
  search_repos : nat -> response (list repo);
  get_readme : list ascii -> list ascii -> response (list ascii);
  list_contributors : list ascii -> list ascii -> response (list (list ascii));
  get_user : list ascii -> response (option (list ascii));
  list_events : list ascii -> response (list event);
  list_commits : list ascii -> list ascii -> response (list (list ascii));
  get_commit : list ascii -> list ascii -> list ascii -> response commit_data;
  list_repos_for_user : list ascii -> response (list repo)
}.

(** The two console lines that report a count. *)
Inductive log : Type :=
| LogSaved (count : nat) (filename : string)
| LogProcessed (successCount total : nat).

Record state : Type := State {
  emailSet : list (list ascii);
  files : gmap string json;
  console : list log
}.

(** Computations that act on the state and either return or throw. *)
Inductive outcome (A : Type) : Type :=
| Return (a : A)
| Throw (e : error).
Arguments Return {A} a.
Arguments Throw {A} e.

Definition M (A : Type) : Type := state -> outcome A * state.
Definition ret {A} (a : A) : M A := fun st => (Return a, st).
Definition throw {A} (e : error) : M A := fun st => (Throw e, st).
Definition bind {A B} (c : M A) (k : A -> M B) : M B :=
  fun st => match c st with
            | (Return a, st') => k a st'
            | (Throw e, st') => (Throw e, st')
            end.
(** [try { body } catch (error) { handler }] *)
Definition try_catch {A} (body : M A) (handler : error -> M A) : M A :=
  fun st => match body st with
            | (Return a, st') => (Return a, st')
            | (Throw e, st') => handler e st'
            end.
(** [await] of an API call. *)
Definition await {A} (r : response A) : M A :=
  match r with
  | Ok a => ret a
  | Fail e => throw e
  end.

Declare Scope index_scope.
Delimit Scope index_scope with M.
Notation "'let*' x := c 'in' k" := (bind c (fun x => k))
  (at level 10, x name, c at level 100, k at level 200) : index_scope.
Notation "c >> k" := (bind c (fun _ => k))
  (at level 100, k at level 200, right associativity) : index_scope.
Local Open Scope index_scope.

(** [for (const x of xs) { body }] *)
Fixpoint for_each {A} (xs : list A) (body : A -> M unit) : M unit :=
  match xs with
  | [] => ret tt
  | x :: xs' => body x >> for_each xs' body
  end.

(** [emailSet.add(email)] *)
Definition emailSet_add (email : list ascii) : M unit :=
  fun st => (Return tt,
             State (JSSet.add email (emailSet st)) (files st) (console st)).
(** [emailSet.clear()] *)
Definition emailSet_clear : M unit :=
  fun st => (Return tt,
             State (JSSet.clear (emailSet st)) (files st) (console st)).
Definition get_emailSet : M (list (list ascii)) :=
  fun st => (Return (emailSet st), st).
(** [fs.writeFileSync(path, JSON.stringify(value, null, 2))] *)
Definition writeFileSync (filename : string) (value : json) : M unit :=
  fun st => (Return tt,
             State (emailSet st) (<[filename := value]> (files st))
                   (console st)).
Definition console_log (l : log) : M unit :=
  fun st => (Return tt,
             State (emailSet st) (files st) (console st ++ [l])).

Definition noreply : list ascii := chars "noreply.github.com".

(** [if (email && !email.includes('noreply.github.com')) emailSet.add(email)] *)
Definition add_unless_noreply (email : option (list ascii)) : M unit :=
  match email with
  | Some e => if truthy email && negb (includes e noreply)
              then emailSet_add e else ret tt
  | None => ret tt
  end.

(** [saveEmails(filename = 'javascript-developer-emails.json')] *)
Definition default_filename : string := "javascript-developer-emails.json".
Definition upwork_filename : string := "fullstack-developer-emails.json".

Definition saveEmails (filename : string) : M (list (list ascii)) :=
  let* set := get_emailSet in
  let emails := JSSet.from set in
  writeFileSync filename (JArray (map JString emails)) >>
  console_log (LogSaved (length emails) filename) >>
  ret emails.

Section Harvest.
Variable W : World.

Definition checkReadmeForEmails (owner repo : list ascii) : M unit :=
  try_catch
    (let* content := await (get_readme W owner repo) in
     let emails := match_emails content in
     for_each emails (fun email => emailSet_add email))
    (fun _ => ret tt).

Definition getUserEvents (username : list ascii) : M unit :=
  try_catch
    (let* events := await (list_events W username) in
     for_each events (fun event =>
       if bool_decide (type event = chars "PushEvent")
       then add_unless_noreply (first_commit_author_email event)
       else ret tt))
    (fun _ => ret tt).

Definition getContributorEmails (username : list ascii) : M unit :=
  try_catch
    (let* user_email := await (get_user W username) in
     (match user_email with
      | Some e => if truthy user_email then emailSet_add e else ret tt
      | None => ret tt
      end) >>
     getUserEvents username)
    (fun _ => ret tt).

Definition getContributors (owner repo : list ascii) : M unit :=
  try_catch
    (let* contributors := await (list_contributors W owner repo) in
     for_each contributors (fun login => getContributorEmails login))
    (fun _ => ret tt).

Definition checkCommits (owner repo : list ascii) : M unit :=
  try_catch
    (let* commits := await (list_commits W owner repo) in
     for_each commits (fun sha =>
       let* commitData := await (get_commit W owner repo sha) in
       add_unless_noreply (author_email commitData) >>
       add_unless_noreply (committer_email commitData)))
    (fun _ => ret tt).

Definition processRepository (owner repo : list ascii) : M unit :=
  try_catch
    (checkReadmeForEmails owner repo >>
     getContributors owner repo >>
     checkCommits owner repo)
    (fun _ => ret tt).

Definition getUserRepositories (username : list ascii) : M unit :=
  try_catch
    (let* repos := await (list_repos_for_user W username) in
     for_each repos (fun r => processRepository (owner_login r) (name r)))
    (fun _ => ret tt).

Definition processGitHubUser (username : list ascii) : M bool :=
  try_catch
    (getContributorEmails username >>
     getUserRepositories username >>
     ret true)
    (fun _ => ret false).

(** [searchJavaScriptRepos(page)]. The function calls itself only while
    [page < 100]; [budget] counts the calls still to come and is
    [100 - page] at the entry, so its [0] case is never reached. *)
Fixpoint searchJavaScriptRepos_from (budget : nat) (page : nat) : M unit :=
  try_catch
    (let* items := await (search_repos W page) in
     for_each items (fun r => processRepository (owner_login r) (name r)) >>
     if (0 <? length items) && (page <? 100) then
       match budget with
       | S budget' => searchJavaScriptRepos_from budget' (page + 1)
       | 0 => ret tt
       end
     else saveEmails default_filename >> ret tt)
    (fun error =>
       if bool_decide (status error = Some 403)
       then saveEmails default_filename >> ret tt
       else ret tt).

Definition searchJavaScriptRepos (page : nat) : M unit :=
  searchJavaScriptRepos_from (100 - page) page.

(** [for (const username of githubUsernames) ... successCount++] *)
Fixpoint count_successes (githubUsernames : list (list ascii))
    (successCount : nat) : M nat :=
  match githubUsernames with
  | [] => ret successCount
  | username :: rest =>
      let* success := processGitHubUser username in
      count_successes rest
        (if success then S successCount else successCount)
  end.

(** [findEmailsFromUpworkDevelopers] from the point where the crawler
    has returned [githubUsernames]. *)
Definition harvest_usernames (githubUsernames : list (list ascii))
  : M (list (list ascii)) :=
  let* successCount := count_successes githubUsernames 0 in
  console_log (LogProcessed successCount (length githubUsernames)) >>
  saveEmails upwork_filename.

Definition searchJavaScriptDevelopers : M (list (list ascii)) :=
  emailSet_clear >>
  searchJavaScriptRepos 1 >>
  let* set := get_emailSet in
  ret (JSSet.from set).

Section Marketplace.
Variable UW : Upwork.World.

(** The crawler runs on its own state; the run has a result when the
    crawl does. *)
Definition findEmailsFromUpworkDevelopers (fuel : nat) (maxPages : nat)
    (ust : Upwork.state) (st : state)
  : option (outcome (list (list ascii)) * state * Upwork.state) :=
  let (_, st1) := emailSet_clear st in
  match Upwork.findGitHubAccountsFromUpwork UW fuel maxPages ust with
  | Some (githubUsernames, ust') =>
      Some (harvest_usernames githubUsernames st1, ust')
  | None => None
  end.

Inductive mode : Type := javascript | upwork.

(** [main({ mode, maxPages })] *)
Definition main (fuel : nat) (m : mode) (maxPages : nat)
    (ust : Upwork.state) (st : state)
  : option (outcome (list (list ascii)) * state * Upwork.state) :=
  match m with
  | upwork => findEmailsFromUpworkDevelopers fuel maxPages ust st
  | javascript => Some (searchJavaScriptDevelopers st, ust)
  end.
End Marketplace.
End Harvest.

(** The script run directly: [main().catch(...)]. *)
Definition run_directly (W : World) : M unit :=
  try_catch
    (searchJavaScriptDevelopers W >> ret tt)
    (fun _ =>
       let* set := get_emailSet in
       if 0 <? JSSet.size set then saveEmails default_filename >> ret tt
       else ret tt).

Definition initial : state := State [] ∅ [].

End Index.

(** ** puppeteer-scraper.js *)

Module Puppeteer.
Import JSString Regex Patterns Net Json.

(** [function extractEmails(text)]: a fresh pattern at every call. *)
Definition extractEmails (text : list ascii) : list (list ascii) :=
  match match_all false emailRegex text with
  | Some ms => ms
  | None => []
  end.

(** [{ email, source }] *)
Record email_record : Type := EmailRecord {
  email : list ascii;
  source : list ascii
}.

(** What the browser shows. *)
Record World : Type := {
  (* the URLs that scrapeUpworkProfiles(browser, maxPages) returns *)
  upwork_github_urls : nat -> list (list ascii);
  (* a profile page: the href of each 'a[href^="mailto:"]' of the
     profile area *)
  open_profile : list ascii -> response (list (list ascii));
  (* the repositories tab: the href of each repository link *)
  open_repositories : list ascii -> response (list (list ascii));
  (* a repository: the text of its README, if it links to one *)
  open_readme : list ascii -> response (option (list ascii))
}.

Record state : Type := State {
  emailData : list email_record;
  processedGithubUrls : list (list ascii);
  files : gmap string json
}.

Definition noreply : list ascii := chars "noreply.github.com".
Definition filename : string := "fullstack-developer-emails.json".

(** [el.href.replace('mailto:', '')] on an href that starts with it. *)
Definition strip_mailto (href : list ascii) : list ascii :=
  if starts_with (chars "mailto:") href then drop 7 href else href.

Section Scrape.
Variable W : World.

(** The README emails of one repository, [[]] when anything fails. *)
Definition readme_emails (repoUrl : list ascii) : list email_record :=
  match open_readme W repoUrl with
  | Ok (Some readmeContent) =>
      flat_map (fun e =>
        if negb (includes e noreply)
        then [EmailRecord e (repoUrl ++ chars " (README)")]
        else [])
        (extractEmails readmeContent)
  | Ok None => []
  | Fail _ => []
  end.

Definition scrapeGitHubProfile (githubUrl : list ascii) (st : state)
  : list email_record * state :=
  if JSSet.has githubUrl (processedGithubUrls st) then ([], st)
  else
    let st' := State (emailData st)
                     (JSSet.add githubUrl (processedGithubUrls st))
                     (files st) in
    match open_profile W githubUrl with
    | Ok mailtos =>
        let profileEmails :=
          filter (fun e => truthy (Some e) = true)
                 (map strip_mailto mailtos) in
        match open_repositories W githubUrl with
        | Ok links =>
            let repoLinks := take 3 links in
            let repoEmails := flat_map readme_emails repoLinks in
            (map (fun e => EmailRecord e (githubUrl ++ chars " (Profile)"))
                 profileEmails ++ repoEmails, st')
        | Fail _ => ([], st')
        end
    | Fail _ => ([], st')
    end.

(** [for (const githubUrl of githubUrls) emailData.push(...emails)] *)
Fixpoint scrape_all (githubUrls : list (list ascii)) (st : state) : state :=
  match githubUrls with
  | [] => st
  | githubUrl :: rest =>
      let (emails, st') := scrapeGitHubProfile githubUrl st in
      scrape_all rest
        (State (emailData st' ++ emails) (processedGithubUrls st')
               (files st'))
  end.

Definition to_json (r : email_record) : json :=
  JObject [("email"%string, JString (email r));
           ("source"%string, JString (source r))].

(** [main(maxPages)] *)
Definition main (maxPages : nat) (st : state) : state :=
  let githubUrls := upwork_github_urls W maxPages in
  let st' := scrape_all githubUrls st in
  State (emailData st') (processedGithubUrls st')
        (<[filename := JArray (map to_json (emailData st'))]> (files st')).
End Scrape.

Definition initial : state := State [] [] ∅.

End Puppeteer.

(** * Vocabulary of the properties *)

Module Spec.
Import JSString Regex Patterns Net.

(** A word with property [P] starts at the head of [s]. *)
Definition starts_here (P : list ascii -> Prop) (s : list ascii) : Prop :=
  exists m rest, s = m ++ rest /\ P m.

(** A word with property [P] is a substring of [s]. *)
Definition occurs (P : list ascii -> Prop) (s : list ascii) : Prop :=
  exists pre suf, s = pre ++ suf /\ starts_here P suf.

(** [m] is the longest word with property [P] at the head of
    [m ++ rest]. *)
Definition longest (P : list ascii -> Prop) (m rest : list ascii) : Prop :=
  forall m' rest', m ++ rest = m' ++ rest' -> P m' -> length m' <= length m.

(** [scanned P best text ms]: [ms] are substrings of [text] with property
    [P], in order of appearance and without overlap; each is the first to
    start after the one before (no word with [P] starts in a gap) and is
    the one that [best] selects among those that start where it does. *)
Inductive scanned (P : list ascii -> Prop)
    (best : list ascii -> list ascii -> Prop)
  : list ascii -> list (list ascii) -> Prop :=
| scanned_none text :
    ~ occurs P text -> scanned P best text []
| scanned_hit gap m rest ms :
    P m ->
    best m rest ->
    (forall g1 g2, gap = g1 ++ g2 -> g2 <> [] ->
                   ~ starts_here P (g2 ++ m ++ rest)) ->
    scanned P best rest ms ->
    scanned P best (gap ++ m ++ rest) (m :: ms).

(** The first answer of the backtracking matcher at the head of
    [m ++ rest] is [m]. *)
Definition first_answer (icase : bool) (r : regex) (m rest : list ascii)
  : Prop :=
  exists caps tl, run icase r (m ++ rest) = (caps, rest) :: tl.

(** [local-part@domain.tld] *)
Definition email_shape (m : list ascii) : Prop :=
  exists l d t,
    m = l ++ chars "@" ++ d ++ chars "." ++ t /\
    1 <= length l /\ forallb local_char l = true /\
    1 <= length d /\ forallb domain_char d = true /\
    2 <= length t /\ forallb is_letter t = true.

(** Equal up to the case of ASCII letters. *)
Definition same_letters (a b : list ascii) : Prop :=
  map to_upper a = map to_upper b.

(** [scheme://[www.]github.com/<user>] *)
Definition github_url_shape (w : list ascii) : Prop :=
  exists scheme www host user,
    w = scheme ++ chars "://" ++ www ++ host ++ chars "/" ++ user /\
    (same_letters scheme (chars "http") \/
     same_letters scheme (chars "https")) /\
    (www = [] \/ same_letters www (chars "www.")) /\
    same_letters host (chars "github.com") /\
    1 <= length user /\ forallb user_char user = true.

(** Calls of [extractGitHubUsername] one after the other. *)
Fixpoint call_sequence (urls : list (option (list ascii)))
  : Upwork.U (list (option (list ascii))) :=
  match urls with
  | [] => Upwork.uret []
  | url :: rest =>
      Upwork.ubind (Upwork.extractGitHubUsername url) (fun r =>
      Upwork.ubind (call_sequence rest) (fun rs =>
      Upwork.uret (r :: rs)))
  end.

(** The answer of a call made on a fresh module. *)
Definition answer (url : option (list ascii)) : option (list ascii) :=
  match Upwork.extractGitHubUsername url (Upwork.State 0 []) with
  | Some (r, _) => r
  | None => None
  end.

(** A computation that never throws. *)
Definition safe {A} (c : Index.M A) : Prop :=
  forall st, exists a st', c st = (Index.Return a, st').

(** A computation that leaves the files and the console as they are. *)
Definition quiet {A} (c : Index.M A) : Prop :=
  forall st, Index.files (c st).2 = Index.files st /\
             Index.console (c st).2 = Index.console st.

(** Parts of the two patterns, named for the proofs. *)
Definition tld : regex := Seq (Chr ".") (Rep 2 is_letter).
Definition host (n : nat) : regex := Seq (Rep n domain_char) tld.
Definition after_host : regex :=
  Seq (Str (chars "github.com/")) (Group (Rep 1 user_char)).
Definition after_scheme : regex :=
  Seq (Str (chars "://")) (Seq (Opt (Str (chars "www."))) after_host).

(** The first element of a list of answers. *)
Definition starts_with_answer {A} (l : list A) (x : A) : Prop :=
  exists tl, l = x :: tl.

(** What a call of [extractGitHubUsername] on a non-empty string leaves
    as the answer and as [lastIndex]: both are read off a search from
    position 0, whatever the state before. *)
Definition fresh_exec (url : list ascii) : option (list ascii) * nat :=
  match exec true githubUrlRegex url 0 with
  | (Some m, li) => (if truthy (group m 1) then group m 1 else None, li)
  | (None, li) => (None, li)
  end.
(** The state when the search has answered the [n] pages from [page] on
    and the repositories of each have been processed. *)
Fixpoint pages_processed (W : Index.World) (n page : nat) (st : Index.state)
  : Index.state :=
  match n with
  | 0 => st
  | S n' =>
      match Index.search_repos W page with
      | Ok items =>
          pages_processed W n' (page + 1)
            (Index.for_each items
               (fun r => Index.processRepository W (Index.owner_login r)
                           (Index.name r)) st).2
      | Fail _ => st
      end
  end.
End Spec.

(** * Concrete worlds *)

Module Scenarios.
Import JSString Patterns Net Index.

Definition not_found : error := Error (Some 404).
Definition rate_limited : error := Error (Some 403).
Definition bad_credentials : error := Error (Some 401).

Definition acme : repo := Repo (chars "acme") (chars "app").

(** One repository on the first search page, whose README is [readme];
    the second page fails with [e]. *)
Definition one_repo (readme : list ascii) (e : error) : World := {|
  search_repos := fun page =>
    if page =? 1 then Ok [acme] else Fail e;
  get_readme := fun owner repo =>
    if bool_decide (owner = chars "acme" /\ repo = chars "app")
    then Ok readme else Fail not_found;
  list_contributors := fun _ _ => Fail not_found;
  get_user := fun _ => Fail not_found;
  list_events := fun _ => Fail not_found;
  list_commits := fun _ _ => Fail not_found;
  get_commit := fun _ _ _ => Fail not_found;
  list_repos_for_user := fun _ => Fail not_found
|}.

Definition three_emails : list ascii :=
  chars "Mail ann@example.com, bob@example.org or eve@example.net.".

Definition noreply_readme : list ascii :=
  chars "Maintainer: 12345+dev@users.noreply.github.com".

(** A user whose public profile shows [email]. *)
Definition one_user (email : list ascii) : World := {|
  search_repos := fun _ => Fail not_found;
  get_readme := fun _ _ => Fail not_found;
  list_contributors := fun _ _ => Fail not_found;
  get_user := fun username =>
    if bool_decide (username = chars "mockuser2") then Ok (Some email)
    else Fail not_found;
  list_events := fun _ => Fail not_found;
  list_commits := fun _ _ => Fail not_found;
  get_commit := fun _ _ _ => Fail not_found;
  list_repos_for_user := fun _ => Fail not_found
|}.

(** The mock profile of the test suite: the overview text ends in the
    sentence with the URL, the portfolio and social anchors follow. *)
Definition mock_hrefs : list (option (list ascii)) :=
  [Some (chars "https://github.com/mockuser/project1");
   Some (chars "https://linkedin.com/in/mockuser");
   Some (chars "https://github.com/mockuser2")].

Definition mock_profile : Upwork.profile_page := {|
  Upwork.overview :=
    chars "I'm a full-stack developer with experience in React, Node.js, and more. Check out my GitHub: https://github.com/mockuser";
  Upwork.portfolio := chars "Project 1";
  Upwork.experience := [];
  Upwork.hrefs := mock_hrefs
|}.

(** The same links, with the sentence at the very start of the text. *)
Definition short_profile : Upwork.profile_page := {|
  Upwork.overview := chars "Check out my GitHub: https://github.com/mockuser";
  Upwork.portfolio := chars "Project 1";
  Upwork.experience := [];
  Upwork.hrefs := mock_hrefs
|}.

(** A profile without any link to the code host. *)
Definition plain_profile : Upwork.profile_page := {|
  Upwork.overview := chars "Ten years of experience with databases.";
  Upwork.portfolio := [];
  Upwork.experience := [];
  Upwork.hrefs := []
|}.

(** A marketplace whose every profile is [p]. *)
Definition single_profile (p : Upwork.profile_page) : Upwork.World := {|
  Upwork.cookies_file := true;
  Upwork.get_search := fun _ => Fail not_found;
  Upwork.get_profile := fun _ => Ok p
|}.

(** Page 1 lists one freelancer, whose profile names no account; page 2
    lists one whose profile does; later pages are empty. *)
Definition two_pages : Upwork.World := {|
  Upwork.cookies_file := true;
  Upwork.get_search := fun page =>
    if page =? 1 then Ok [Some (chars "/freelancers/~01")]
    else if page =? 2 then Ok [Some (chars "/freelancers/~02")]
    else Ok [];
  Upwork.get_profile := fun url =>
    if bool_decide (url = chars "https://www.upwork.com/freelancers/~01")
    then Ok plain_profile else Ok short_profile
|}.

(** Page 1 lists one freelancer with linked accounts, page 2 is [second]. *)
Definition then_page (second : response (list (option (list ascii))))
  : Upwork.World := {|
  Upwork.cookies_file := true;
  Upwork.get_search := fun page =>
    if page =? 1 then Ok [Some (chars "/freelancers/~02")]
    else if page =? 2 then second
    else Ok [Some (chars "/freelancers/~02")];
  Upwork.get_profile := fun _ => Ok short_profile
|}.

(** Two search pages with one repository each; the third page fails with
    [e]. *)
Definition repo_pages (e : error) : Index.World := {|
  Index.search_repos := fun page =>
    if page =? 1 then Ok [acme]
    else if page =? 2 then Ok [Index.Repo (chars "acme") (chars "lib")]
    else Fail e;
  Index.get_readme := fun owner repo =>
    if bool_decide (repo = chars "app") then Ok three_emails
    else if bool_decide (repo = chars "lib")
    then Ok (chars "Ask ann@example.com or dan@example.io")
    else Fail not_found;
  Index.list_contributors := fun _ _ => Fail not_found;
  Index.get_user := fun _ => Fail not_found;
  Index.list_events := fun _ => Fail not_found;
  Index.list_commits := fun _ _ => Fail not_found;
  Index.get_commit := fun _ _ _ => Fail not_found;
  Index.list_repos_for_user := fun _ => Fail not_found
|}.

Definition fresh : Upwork.state := Upwork.State 0 [].

(** The text that the scraper scans on the mock profile, and its URL. *)
Definition mock_text : list ascii :=
  Upwork.overview mock_profile ++ chars " " ++ Upwork.portfolio mock_profile
    ++ chars " " ++ Upwork.experience mock_profile.
Definition mock_url : list ascii := chars "https://github.com/mockuser".
End Scenarios.

(** * Vocabulary and worlds of the further properties *)

Module Invariants.
Import Net.
(** [steps R c]: whatever [c] does, and however it ends, the store before
    and the store after are related by [R]. *)
Definition steps (R : list (list ascii) -> list (list ascii) -> Prop)
    {A} (c : Index.M A) : Prop :=
  forall st, R (Index.emailSet st) (Index.emailSet (c st).2).

(** Nothing is removed. *)
Definition grows (s s' : list (list ascii)) : Prop :=
  forall e, e ∈ s -> e ∈ s'.

(** No identifier comes to stand twice. *)
Definition stays_distinct (s s' : list (list ascii)) : Prop :=
  NoDup s -> NoDup s'.

(** Whatever is new has property [P]. *)
Definition adds_only (P : list ascii -> Prop) (s s' : list (list ascii))
  : Prop :=
  forall e, e ∈ s' -> e ∈ s \/ P e.

(** The code host [W] with another repository search. *)
Definition with_search (W : Index.World)
    (f : nat -> response (list Index.repo)) : Index.World := {|
  Index.search_repos := f;
  Index.get_readme := Index.get_readme W;
  Index.list_contributors := Index.list_contributors W;
  Index.get_user := Index.get_user W;
  Index.list_events := Index.list_events W;
  Index.list_commits := Index.list_commits W;
  Index.get_commit := Index.get_commit W;
  Index.list_repos_for_user := Index.list_repos_for_user W
|}.

(** What [checkCommits] does with one commit. *)
Definition inspect_commit (W : Index.World) (owner repo sha : list ascii)
  : Index.M unit :=
  Index.bind (Index.await (Index.get_commit W owner repo sha))
    (fun commitData =>
       Index.bind (Index.add_unless_noreply (Index.author_email commitData))
         (fun _ => Index.add_unless_noreply
                     (Index.committer_email commitData))).

(** A value that passes the test of the event and commit paths: a string
    that is not empty and in which [noreply.github.com] does not occur. *)
Definition passes (v : option (list ascii)) (e : list ascii) : Prop :=
  v = Some e /\ e <> [] /\
  ~ (exists pre post, e = pre ++ Index.noreply ++ post).
End Invariants.

Module MoreScenarios.
Import JSString Patterns Net Scenarios.

(** A repository with three commits: the detail of the second cannot be
    fetched. *)
Definition three_commits : Index.World := {|
  Index.search_repos := fun _ => Fail not_found;
  Index.get_readme := fun _ _ => Fail not_found;
  Index.list_contributors := fun _ _ => Fail not_found;
  Index.get_user := fun _ => Fail not_found;
  Index.list_events := fun _ => Fail not_found;
  Index.list_commits := fun _ _ =>
    Ok [chars "c1"; chars "c2"; chars "c3"];
  Index.get_commit := fun _ _ sha =>
    if bool_decide (sha = chars "c1")
    then Ok (Index.CommitData (Some (chars "ann@example.com"))
                              (Some (chars "7+ann@users.noreply.github.com")))
    else if bool_decide (sha = chars "c3")
    then Ok (Index.CommitData (Some (chars "eve@example.net")) None)
    else Fail not_found;
  Index.list_repos_for_user := fun _ => Fail not_found
|}.

(** A code host whose search finds nothing on any page. *)
Definition empty_search : Index.World :=
  Invariants.with_search (one_repo three_emails rate_limited)
                         (fun _ => Ok []).

(** A marketplace without the cookies file. *)
Definition no_cookies : Upwork.World := {|
  Upwork.cookies_file := false;
  Upwork.get_search := Upwork.get_search two_pages;
  Upwork.get_profile := Upwork.get_profile two_pages
|}.

(** A user with five public events, and a repository with two commits. *)
Definition pushes : Index.World := {|
  Index.search_repos := fun _ => Fail not_found;
  Index.get_readme := fun _ _ => Fail not_found;
  Index.list_contributors := fun _ _ => Fail not_found;
  Index.get_user := fun _ => Fail not_found;
  Index.list_events := fun _ =>
    Ok [Index.Event (chars "PushEvent")
          (Some (chars "7+ann@users.noreply.github.com"));
        Index.Event (chars "WatchEvent") (Some (chars "bob@example.org"));
        Index.Event (chars "PushEvent") None;
        Index.Event (chars "PushEvent") (Some (chars "noreply@github.com"));
        Index.Event (chars "PushEvent") (Some [])];
  Index.list_commits := fun _ _ => Ok [chars "c1"; chars "c2"];
  Index.get_commit := fun _ _ sha =>
    if bool_decide (sha = chars "c1")
    then Ok (Index.CommitData (Some (chars "eve@example.net"))
               (Some (chars "noreply@github.com")))
    else Ok (Index.CommitData
               (Some (chars "7+eve@users.noreply.github.com")) None);
  Index.list_repos_for_user := fun _ => Fail not_found
|}.
End MoreScenarios.

Module Urls.
Import JSString Patterns Spec.
(** [w] is [scheme://[www.]github.com/<user>] for this [user]. *)
Definition account_url (user w : list ascii) : Prop :=
  exists scheme www host,
    w = scheme ++ chars "://" ++ www ++ host ++ chars "/" ++ user /\
    (same_letters scheme (chars "http") \/
     same_letters scheme (chars "https")) /\
    (www = [] \/ same_letters www (chars "www.")) /\
    same_letters host (chars "github.com") /\
    1 <= length user /\ forallb user_char user = true.

(** Nothing of [[A-Za-z0-9_-]] opens [trail]. *)
Definition word_ends (trail : list ascii) : Prop :=
  trail = [] \/ exists x t, trail = x :: t /\ user_char x = false.

(** [fullText] of [scrapeUpworkProfile]. *)
Definition fullText (page : Upwork.profile_page) : list ascii :=
  Upwork.overview page ++ chars " " ++ Upwork.portfolio page ++ chars " "
    ++ Upwork.experience page.
End Urls.

Module UpworkScenarios.
Import JSString Net.

(** A profile that names its account after a sentence longer than the
    URL. *)
Definition late_profile : Upwork.profile_page := {|
  Upwork.overview :=
    chars "Full-stack developer, ten years. Code: https://github.com/ada";
  Upwork.portfolio := chars "Shop";
  Upwork.experience := chars "Agency";
  Upwork.hrefs := []
|}.

(** A marketplace on which one profile cannot be fetched. *)
Definition one_down : Upwork.World := {|
  Upwork.cookies_file := true;
  Upwork.get_search := fun _ => Ok [];
  Upwork.get_profile := fun url =>
    if bool_decide (url = chars "https://www.upwork.com/freelancers/~01")
    then Fail Scenarios.not_found else Ok Scenarios.short_profile
|}.
End UpworkScenarios.

Module Links.
Import JSString Regex Patterns.

(** [/github\.com\/([a-zA-Z0-9_-]+)/i] of puppeteer-scraper.js *)
Definition profileRegex : regex :=
  Seq (Str (chars "github.com/")) (Group (Rep 1 user_char)).

(** A character that cannot open a match of [profileRegex]. *)
Definition not_g (c : ascii) : bool := negb (chr_ok true "g" c).

(** [function getGitHubProfileUrl(url)]: [url.match] of a pattern without
    the [g] flag is the first match. *)
Definition getGitHubProfileUrl (url : list ascii) : list ascii :=
  match search true profileRegex url 0 with
  | Some match_ =>
      match group match_ 1 with
      | Some username =>
          if truthy (Some username)
          then chars "https://github.com/" ++ username
          else url
      | None => url
      end
  | None => url
  end.
End Links.

Module Provenance.
Import JSString Patterns Net.

(** [r] is what the profile page of [githubUrl] gives for one of its
    [mailto:] links. *)
Definition profile_record (W : Puppeteer.World) (githubUrl : list ascii)
    (r : Puppeteer.email_record) : Prop :=
  exists mailtos href,
    Puppeteer.open_profile W githubUrl = Ok mailtos /\ href ∈ mailtos /\
    Puppeteer.email r = Puppeteer.strip_mailto href /\
    Puppeteer.email r <> [] /\
    Puppeteer.source r = githubUrl ++ chars " (Profile)".

(** [r] is what the README of one of the first three repositories of
    [githubUrl] gives. *)
Definition readme_record (W : Puppeteer.World) (githubUrl : list ascii)
    (r : Puppeteer.email_record) : Prop :=
  exists links repoUrl readmeContent before after,
    Puppeteer.open_repositories W githubUrl = Ok links /\
    repoUrl ∈ take 3 links /\
    Puppeteer.open_readme W repoUrl = Ok (Some readmeContent) /\
    readmeContent = before ++ Puppeteer.email r ++ after /\
    Spec.email_shape (Puppeteer.email r) /\
    ~ (exists pre post,
         Puppeteer.email r = pre ++ Puppeteer.noreply ++ post) /\
    Puppeteer.source r = repoUrl ++ chars " (README)".

(** One account with a [mailto:] link of the [noreply] kind on its profile
    and four repositories, the fourth of which has an address in its
    README. *)
Definition one_account : Puppeteer.World := {|
  Puppeteer.upwork_github_urls := fun _ => [chars "https://github.com/ada"];
  Puppeteer.open_profile := fun _ =>
    Ok [chars "mailto:7+ada@users.noreply.github.com"];
  Puppeteer.open_repositories := fun _ =>
    Ok [chars "https://github.com/ada/one"; chars "https://github.com/ada/two";
        chars "https://github.com/ada/three";
        chars "https://github.com/ada/four"];
  Puppeteer.open_readme := fun repoUrl =>
    if bool_decide (repoUrl = chars "https://github.com/ada/four")
    then Ok (Some (chars "Write to ada@example.org"))
    else if bool_decide (repoUrl = chars "https://github.com/ada/two")
    then Ok (Some (chars "bot@users.noreply.github.com, eve@example.net."))
    else Ok None
|}.
End Provenance.

(** ** cli.js: the token in the [.env] file

    Here a string is read over the code units below 256, so that [ascii]
    holds each of them: of the line terminators these are LF and CR, of the
    white space TAB, LF, VT, FF, CR, SP and NBSP. The [.env] file is its
    content, or [None] when [fs.existsSync] is false; reading and writing
    it do not fail. *)

Module Cli.
Import JSString Regex.

Definition nl : list ascii := ["010"%char].

Definition line_terminator (c : ascii) : bool :=
  (code c =? 10) || (code c =? 13).

(** [.] of a pattern without the [s] flag *)
Definition dot (c : ascii) : bool := negb (line_terminator c).

Definition key : list ascii := chars "GITHUB_TOKEN=".

(** [/GITHUB_TOKEN=(.+)/] *)
Definition tokenRegex : regex := Seq (Str key) (Group (Rep 1 dot)).
(** [/GITHUB_TOKEN=.*/] *)
Definition lineRegex : regex := Seq (Str key) (Rep 0 dot).

Definition is_space (c : ascii) : bool :=
  ((9 <=? code c) && (code c <=? 13)) || (code c =? 32) || (code c =? 160).

Fixpoint trim_start (s : list ascii) : list ascii :=
  match s with
  | c :: s' => if is_space c then trim_start s' else s
  | [] => []
  end.

(** [s.trim()] *)
Definition trim (s : list ascii) : list ascii :=
  rev (trim_start (rev (trim_start s))).

(** The replacement text of [String.prototype.replace] for a pattern
    without groups: [$$], [$&], [$`] and [$'] are expanded, every other
    [$] stands for itself. *)
Fixpoint substitute (replacement matched before after : list ascii)
  : list ascii :=
  match replacement with
  | [] => []
  | c :: r =>
      if Ascii.eqb c "$" then
        match r with
        | d :: r' =>
            if Ascii.eqb d "$" then
              "$"%char :: substitute r' matched before after
            else if Ascii.eqb d "&" then
              matched ++ substitute r' matched before after
            else if Ascii.eqb d "`" then
              before ++ substitute r' matched before after
            else if Ascii.eqb d "'" then
              after ++ substitute r' matched before after
            else c :: substitute r matched before after
        | [] => [c]
        end
      else c :: substitute r matched before after
  end.

(** [s.replace(re, replacement)] for a pattern without the [g] flag: the
    first match is replaced. *)
Definition replace (re : regex) (s replacement : list ascii) : list ascii :=
  match search false re s 0 with
  | Some m =>
      let before := take (index m) s in
      let after := drop (index m + length (whole m)) s in
      before ++ substitute replacement (whole m) before after ++ after
  | None => s
  end.

(** [function checkGitHubToken()], as the truth value of what it returns. *)
Definition checkGitHubToken (env : option (list ascii)) : bool :=
  match env with
  | None => false
  | Some envContent =>
      match search false tokenRegex envContent 0 with
      | Some tokenMatch =>
          match group tokenMatch 1 with
          | Some g => truthy (Some g) && (0 <? length (trim g))
          | None => false
          end
      | None => false
      end
  end.

(** The comment lines of a new [.env] file. *)
Definition header : list ascii :=
  chars "# GitHub Personal Access Token" ++ nl
    ++ chars "# Create one at https://github.com/settings/tokens" ++ nl
    ++ chars "# Required scopes: public_repo, read:user, user:email".

(** [function saveGitHubToken(token)]: the content that it writes. *)
Definition saveGitHubToken (token : list ascii) (env : option (list ascii))
  : list ascii :=
  match env with
  | Some envContent =>
      if includes envContent key
      then replace lineRegex envContent (key ++ token)
      else envContent ++ nl ++ key ++ token
  | None => header ++ nl ++ key ++ token
  end.
End Cli.

(** * Properties *)

Import JSString Regex Patterns Net Json Spec Scenarios.

(** *** The matcher against what a pattern denotes *)

Lemma rep_zero_self ok s : s ∈ rep ok 0 s.
Proof.
  destruct s as [|x s]; simpl; [set_solver|].
  destruct (ok x); set_solver.
Qed.

Lemma rep_sound ok n s rest :
  rest ∈ rep ok n s ->
  exists w, s = w ++ rest /\ n <= length w /\ forallb ok w = true.
Proof.
  revert n; induction s as [|x s IH]; intros n Hin; simpl in Hin.
  - destruct n; [|set_solver].
    apply list_elem_of_singleton in Hin as ->. by exists [].
  - assert (Hstop : rest ∈ (if n is 0 then [x :: s] else []) ->
                    exists w, x :: s = w ++ rest /\ n <= length w
                              /\ forallb ok w = true).
    { destruct n; [|set_solver].
      intros ->%list_elem_of_singleton. by exists []. }
    destruct (ok x) eqn:Hx; [|auto].
    apply elem_of_app in Hin as [Hin|Hin]; [|auto].
    destruct (IH _ Hin) as (w & -> & Hn & Hw).
    exists (x :: w); simpl; rewrite Hx, Hw; repeat split; lia.
Qed.

Lemma rep_complete ok n w rest :
  n <= length w -> forallb ok w = true -> rest ∈ rep ok n (w ++ rest).
Proof.
  revert n; induction w as [|x w IH]; intros n Hn Hw; simpl in *.
  - assert (n = 0) as -> by lia. apply rep_zero_self.
  - apply andb_prop in Hw as [-> Hw].
    apply elem_of_app; left. apply IH; [lia|done].
Qed.

Lemma str_ok_sound icase l s rest :
  str_ok icase l s = Some rest ->
  exists w, s = w ++ rest /\ length w = length l /\ str_ok icase l w = Some [].
Proof.
  revert s; induction l as [|c l IH]; intros s H; simpl in H.
  - injection H as ->. by exists [].
  - destruct s as [|x s]; [done|].
    destruct (chr_ok icase c x) eqn:Hc; [|done].
    destruct (IH _ H) as (w & -> & Hl & Hw).
    exists (x :: w); simpl; rewrite Hc; auto.
Qed.

Lemma str_ok_complete icase l w rest :
  str_ok icase l w = Some [] -> str_ok icase l (w ++ rest) = Some rest.
Proof.
  revert w; induction l as [|c l IH]; intros w H; simpl in *.
  - by injection H as ->.
  - destruct w as [|x w]; [done|]; simpl.
    destruct (chr_ok icase c x); [auto|done].
Qed.

Lemma run_sound icase r s m :
  m ∈ run icase r s -> exists w, s = w ++ m.2 /\ lang icase r w.
Proof.
  revert s m; induction r as [c|l|p|r1 IH1 r2 IH2|r IH|n p|r IH];
    intros s m Hin; simpl in Hin.
  - destruct s as [|x s]; [set_solver|].
    destruct (chr_ok icase c x) eqn:Hc; [|set_solver].
    apply list_elem_of_singleton in Hin as ->. exists [x]; simpl; eauto.
  - destruct (str_ok icase l s) as [s'|] eqn:Hs; [|set_solver].
    apply list_elem_of_singleton in Hin as ->.
    destruct (str_ok_sound _ _ _ _ Hs) as (w & -> & ? & ?).
    exists w; simpl; auto.
  - destruct s as [|x s]; [set_solver|].
    destruct (class_ok icase p x) eqn:Hc; [|set_solver].
    apply list_elem_of_singleton in Hin as ->. exists [x]; simpl; eauto.
  - apply list_elem_of_In, in_flat_map in Hin as (m1 & Hm1 & Hin).
    apply in_map_iff in Hin as (m2 & <- & Hm2).
    apply list_elem_of_In in Hm1, Hm2.
    destruct (IH1 _ _ Hm1) as (u & -> & Hu).
    destruct (IH2 _ _ Hm2) as (v & Hv & Hlv).
    exists (u ++ v); simpl. rewrite Hv at 1. rewrite (assoc_L (++)).
    split; [done|]. by exists u, v.
  - apply elem_of_app in Hin as [Hin|Hin].
    + destruct (IH _ _ Hin) as (w & ? & ?). exists w; simpl; auto.
    + apply list_elem_of_singleton in Hin as ->. exists []; simpl; auto.
  - apply list_elem_of_fmap in Hin as (rest & -> & Hin).
    destruct (rep_sound _ _ _ _ Hin) as (w & -> & ? & ?).
    exists w; simpl; auto.
  - apply list_elem_of_fmap in Hin as (m' & -> & Hin).
    destruct (IH _ _ Hin) as (w & ? & ?). exists w; simpl; auto.
Qed.

Lemma run_complete icase r w rest :
  lang icase r w -> exists caps, (caps, rest) ∈ run icase r (w ++ rest).
Proof.
  revert w rest; induction r as [c|l|p|r1 IH1 r2 IH2|r IH|n p|r IH];
    intros w rest Hw; simpl in Hw.
  - destruct Hw as (x & -> & Hx). exists []; simpl. rewrite Hx. set_solver.
  - destruct Hw as [_ Hw]. exists []; simpl.
    rewrite (str_ok_complete _ _ _ _ Hw). set_solver.
  - destruct Hw as (x & -> & Hx). exists []; simpl. rewrite Hx. set_solver.
  - destruct Hw as (u & v & -> & Hu & Hv).
    destruct (IH1 u (v ++ rest) Hu) as [c1 H1].
    destruct (IH2 v rest Hv) as [c2 H2].
    exists (c1 ++ c2); simpl. rewrite <- (assoc_L (++)).
    apply list_elem_of_In, in_flat_map. exists (c1, v ++ rest).
    split; [by apply list_elem_of_In|].
    apply in_map_iff. exists (c2, rest). split; [done|].
    by apply list_elem_of_In.
  - destruct Hw as [->|Hw]; simpl.
    + eexists. apply elem_of_app; right. apply list_elem_of_singleton. reflexivity.
    + destruct (IH _ rest Hw) as [c Hc]. exists c.
      apply elem_of_app; by left.
  - destruct Hw as [Hn Hw]. exists []; simpl.
    apply list_elem_of_fmap. exists rest. split; [done|].
    by apply rep_complete.
  - destruct (IH _ rest Hw) as [c Hc]; simpl.
    eexists. apply list_elem_of_fmap. exists (c, rest). split; [done|done].
Qed.

Lemma run_nil_iff icase r s :
  run icase r s = [] <-> ~ starts_here (lang icase r) s.
Proof.
  split.
  - intros Hnil (w & rest & -> & Hw).
    destruct (run_complete icase r w rest Hw) as [caps Hin].
    rewrite Hnil in Hin. set_solver.
  - intros Hno. destruct (run icase r s) as [|m tl] eqn:Hrun; [done|].
    destruct Hno. destruct (run_sound icase r s m) as (w & -> & Hw).
    { rewrite Hrun. set_solver. }
    by exists w, m.2.
Qed.

Lemma take_app_rest (w rest : list ascii) :
  take (length (w ++ rest) - length rest) (w ++ rest) = w.
Proof.
  rewrite length_app. replace (length w + length rest - length rest)
    with (length w) by lia.
  by rewrite take_app_length.
Qed.

Lemma first_match_shape icase r s m0 tl :
  run icase r s = m0 :: tl ->
  exists w, s = w ++ m0.2 /\ take (length s - length m0.2) s = w /\
            lang icase r w.
Proof.
  intros Hrun. destruct (run_sound icase r s m0) as (w & Hs & Hw).
  { rewrite Hrun. set_solver. }
  exists w. split; [done|]. split; [|done].
  rewrite Hs. apply take_app_rest.
Qed.

Lemma search_some icase r s i m :
  search icase r s i = Some m ->
  exists gap rest,
    s = gap ++ whole m ++ rest /\ index m = i + length gap /\
    lang icase r (whole m) /\
    (forall g1 g2, gap = g1 ++ g2 -> g2 <> [] ->
                   ~ starts_here (lang icase r) (g2 ++ whole m ++ rest)) /\
    exists tl, run icase r (whole m ++ rest) = (groups m, rest) :: tl.
Proof.
  assert (Hhit : forall s i m0 tl, run icase r s = m0 :: tl ->
    exists gap rest,
      let m := Match i (take (length s - length m0.2) s) m0.1 in
      s = gap ++ whole m ++ rest /\ index m = i + length gap /\
      lang icase r (whole m) /\
      (forall g1 g2, gap = g1 ++ g2 -> g2 <> [] ->
                     ~ starts_here (lang icase r) (g2 ++ whole m ++ rest)) /\
      exists tl, run icase r (whole m ++ rest) = (groups m, rest) :: tl).
  { clear. intros s i m0 tl Hrun.
    destruct (first_match_shape _ _ _ _ _ Hrun) as (w & Hs & Htake & Hw).
    exists [], m0.2. simpl. rewrite Htake. repeat split; auto.
    - intros g1 g2 Hg. by destruct g1, g2.
    - exists tl. rewrite <- Hs, Hrun. by destruct m0. }
  revert i; induction s as [|x s IH]; intros i; simpl.
  - destruct (run icase r []) as [|m0 tl] eqn:Hrun; [done|].
    intros [= <-]. exact (Hhit [] i m0 tl Hrun).
  - destruct (run icase r (x :: s)) as [|m0 tl] eqn:Hrun.
    + intros Hs. destruct (IH _ Hs) as (gap & rest & -> & Hi & Hw & Hleft & Hhd).
      exists (x :: gap), rest. repeat split; simpl; auto; [lia|].
      intros g1 g2 Hg Hne. destruct g1 as [|y g1]; simpl in Hg.
      * subst g2. simpl. by apply (proj1 (run_nil_iff icase r _)).
      * injection Hg as -> ->. by apply (Hleft g1 g2).
    + intros [= <-]. exact (Hhit (x :: s) i m0 tl Hrun).
Qed.

Lemma search_none icase r s i :
  search icase r s i = None -> ~ occurs (lang icase r) s.
Proof.
  revert i; induction s as [|x s IH]; intros i; simpl.
  - destruct (run icase r []) eqn:Hrun; [|done].
    intros _ (pre & suf & Hs & Hocc).
    destruct pre, suf; try done. by apply run_nil_iff in Hrun.
  - destruct (run icase r (x :: s)) eqn:Hrun; [|done].
    intros Hs (pre & suf & Heq & Hocc).
    destruct pre as [|y pre]; simpl in Heq.
    + subst suf. by apply run_nil_iff in Hrun.
    + injection Heq as -> ->. apply (IH _ Hs). by exists pre, suf.
Qed.

Lemma search_is_Some icase r s i :
  occurs (lang icase r) s -> is_Some (search icase r s i).
Proof.
  intros Hocc. destruct (search icase r s i) eqn:Hs; [done|].
  by apply search_none in Hs.
Qed.

(** [exec] from a position inside the text. *)
Lemma exec_some icase r text li m li' :
  exec icase r text li = (Some m, li') ->
  li <= length text /\ li' = index m + length (whole m) /\
  exists gap rest,
    drop li text = gap ++ whole m ++ rest /\ index m = li + length gap /\
    lang icase r (whole m) /\
    (forall g1 g2, gap = g1 ++ g2 -> g2 <> [] ->
                   ~ starts_here (lang icase r) (g2 ++ whole m ++ rest)) /\
    exists tl, run icase r (whole m ++ rest) = (groups m, rest) :: tl.
Proof.
  unfold exec. destruct (length text <? li) eqn:Hlt; [done|].
  apply Nat.ltb_ge in Hlt.
  destruct (search icase r (drop li text) li) as [m0|] eqn:Hs; [|done].
  intros [= <- <-]. split; [done|]. split; [done|].
  by apply search_some.
Qed.

Lemma exec_none icase r text li li' :
  exec icase r text li = (None, li') ->
  li' = 0 /\ (length text < li \/ ~ occurs (lang icase r) (drop li text)).
Proof.
  unfold exec. destruct (length text <? li) eqn:Hlt.
  - apply Nat.ltb_lt in Hlt. intros [= <-]. auto.
  - destruct (search icase r (drop li text) li) as [m0|] eqn:Hs; [done|].
    intros [= <-]. split; [done|]. right. by eapply search_none.
Qed.

Lemma drop_after (text : list ascii) li gap m rest :
  drop li text = gap ++ m ++ rest ->
  drop (li + length gap + length m) text = rest.
Proof.
  intros H. rewrite <- Nat.add_assoc, <- drop_drop, H.
  by rewrite (assoc_L (++)), <- length_app, drop_app_length.
Qed.

(** The loop of [match] on a pattern that matches no empty word. *)
Lemma match_loop_scanned icase r text :
  (forall w, lang icase r w -> w <> []) ->
  forall fuel li,
    li <= length text -> length text - li < fuel ->
    scanned (lang icase r) (first_answer icase r) (drop li text)
            (match_loop fuel icase r text li).
Proof.
  intros Hne. induction fuel as [|fuel IH]; intros li Hli Hfuel; [lia|].
  simpl. destruct (exec icase r text li) as [[m|] li'] eqn:Hex.
  - apply exec_some in Hex
      as (_ & -> & gap & rest & Hdrop & Hi & Hw & Hleft & tl & Hfirst).
    assert (Hlen : length (drop li text) =
                   length gap + length (whole m) + length rest).
    { rewrite Hdrop, !length_app. lia. }
    rewrite length_drop in Hlen.
    pose proof (Hne _ Hw) as Hm.
    destruct (whole m) as [|c wm] eqn:Hwm; [done|]. rewrite <- Hwm in *.
    assert (0 < length (whole m)) by (rewrite Hwm; simpl; lia).
    rewrite Hdrop. constructor; auto.
    { by exists (groups m), tl. }
    rewrite <- (drop_after text li gap (whole m) rest Hdrop) at 1.
    rewrite Hi. apply IH; lia.
  - apply exec_none in Hex as [_ [?|Hno]]; [lia|]. by constructor.
Qed.

Lemma match_loop_fuel icase r text :
  (forall w, lang icase r w -> w <> []) ->
  forall fuel fuel' li,
    li <= length text -> length text - li < fuel -> length text - li < fuel' ->
    match_loop fuel icase r text li = match_loop fuel' icase r text li.
Proof.
  intros Hne. induction fuel as [|fuel IH]; intros fuel' li Hli Hf Hf'; [lia|].
  destruct fuel' as [|fuel']; [lia|]. simpl.
  destruct (exec icase r text li) as [[m|] li'] eqn:Hex; [|done].
  apply exec_some in Hex
    as (_ & -> & gap & rest & Hdrop & Hi & Hw & _).
  assert (Hlen : length (drop li text) =
                 length gap + length (whole m) + length rest).
  { rewrite Hdrop, !length_app. lia. }
  rewrite length_drop in Hlen.
  pose proof (Hne _ Hw) as Hm.
  destruct (whole m) as [|c wm] eqn:Hwm; [done|]. rewrite <- Hwm in *.
  assert (0 < length (whole m)) by (rewrite Hwm; simpl; lia).
  f_equal. apply IH; lia.
Qed.

Lemma scanned_impl (P Q : list ascii -> Prop) (b c : list ascii -> list ascii -> Prop)
    text ms :
  (forall w, P w <-> Q w) ->
  (forall m rest, P m -> b m rest -> c m rest) ->
  scanned P b text ms -> scanned Q c text ms.
Proof.
  intros HPQ Hbc. assert (Hst : forall s, starts_here Q s -> starts_here P s).
  { intros s (m & rest & -> & Hm). exists m, rest. by rewrite HPQ. }
  induction 1 as [text Hno|gap m rest ms Hm Hb Hleft _ IH].
  - constructor. intros (pre & suf & -> & Hs). apply Hno. exists pre, suf. auto.
  - constructor; auto; [by apply HPQ|]. intros g1 g2 Hg Hne Hs.
    apply (Hleft g1 g2 Hg Hne). auto.
Qed.

Lemma scanned_nil_iff P b text ms :
  scanned P b text ms -> ms = [] <-> ~ occurs P text.
Proof.
  destruct 1 as [text Hno|gap m rest ms Hm _ _ _]; [done|].
  split; [done|]. intros []. exists gap, (m ++ rest). split; [done|].
  by exists m, rest.
Qed.

(** *** Greedy repetition *)

Lemma rep_length_le ok n s z : z ∈ rep ok n s -> length z <= length s.
Proof.
  intros (w & Hs & _)%rep_sound. rewrite Hs, length_app. lia.
Qed.

(** The first remainder of a greedy repetition is the shortest. *)
Lemma rep_head_min ok n s c tl z :
  rep ok n s = c :: tl -> z ∈ rep ok n s -> length c <= length z.
Proof.
  revert n c tl z; induction s as [|x s IH]; intros n c tl z; simpl.
  - destruct n; [|done]. intros [= <- <-] Hz.
    by apply list_elem_of_singleton in Hz as ->.
  - assert (Hstop : forall u, u ∈ (if n is 0 then [x :: s] else []) ->
                              u = x :: s).
    { destruct n; intros u Hu;
        [by apply list_elem_of_singleton in Hu|by apply elem_of_nil in Hu]. }
    assert (Hhd : forall l : list (list ascii), l = c :: tl -> c ∈ l).
    { intros l ->. apply list_elem_of_here. }
    destruct (ok x).
    + destruct (rep ok (pred n) s) as [|c0 tl0] eqn:Hrep; simpl.
      * intros Hc Hz. by rewrite (Hstop _ (Hhd _ Hc)), (Hstop _ Hz).
      * intros [= <- <-] Hz. apply elem_of_cons in Hz as [->|Hz]; [done|].
        apply elem_of_app in Hz as [Hz|Hz].
        -- eapply IH; [done|]. rewrite Hrep. by apply list_elem_of_further.
        -- rewrite (Hstop _ Hz); simpl.
           assert (Hc0 : c0 ∈ rep ok (pred n) s)
             by (rewrite Hrep; apply list_elem_of_here).
           pose proof (rep_length_le _ _ _ _ Hc0). lia.
    + intros Hc Hz. by rewrite (Hstop _ (Hhd _ Hc)), (Hstop _ Hz).
Qed.

Lemma run_seq_rep icase n p r2 s :
  run icase (Seq (Rep n p) r2) s =
  flat_map (run icase r2) (rep (class_ok icase p) n s).
Proof.
  simpl. induction (rep (class_ok icase p) n s) as [|c l IH]; simpl; [done|].
  rewrite IH. f_equal. induction (run icase r2 c) as [|[??] ? IH']; simpl;
    [done|by rewrite IH'].
Qed.

Lemma run_seq_chr icase c r2 s :
  run icase (Seq (Chr c) r2) s =
  match s with
  | x :: s' => if chr_ok icase c x then run icase r2 s' else []
  | [] => []
  end.
Proof.
  simpl. destruct s as [|x s]; [done|]. destruct (chr_ok icase c x); [|done].
  simpl. rewrite app_nil_r.
  induction (run icase r2 s) as [|[??] ? IH']; simpl; [done|by rewrite IH'].
Qed.

(** A class repeated up to a separator that is outside it: one way only. *)
Lemma rep_then_sep {R} ok (sep : ascii) (f : list ascii -> list R) l B :
  ok sep = false ->
  (forall x c, x <> sep -> f (x :: c) = []) ->
  forallb ok l = true ->
  forall n, n <= length l ->
  flat_map f (rep ok n (l ++ sep :: B)) = f (sep :: B).
Proof.
  intros Hsep Hf. induction l as [|x l IH]; intros Hl n Hn; simpl in *.
  - assert (n = 0) as -> by lia. rewrite Hsep. simpl. apply app_nil_r.
  - apply andb_prop in Hl as [Hx Hl]. rewrite Hx.
    rewrite flat_map_app, IH by (done || lia).
    assert (x <> sep) by congruence.
    destruct n; simpl; rewrite ?(Hf x _ H), ?app_nil_r; done.
Qed.

(** *** The email pattern *)

Lemma dot_not_letter x : is_letter x = true -> x <> "."%char.
Proof. by intros H ->. Qed.

Lemma letters_before_dot (u v t rest : list ascii) :
  u ++ "."%char :: v = t ++ rest -> forallb is_letter t = true ->
  length t <= length u.
Proof.
  revert t; induction u as [|x u IH]; intros [|y t] Heq Ht; simpl in *;
    try lia.
  - injection Heq as <- _. by apply andb_prop in Ht as [Ht _].
  - injection Heq as <- Heq. apply andb_prop in Ht as [_ Ht].
    specialize (IH _ Heq Ht). lia.
Qed.

Lemma chr_ok_exact c x : chr_ok false c x = true -> x = c.
Proof. unfold chr_ok, canon. apply Ascii.eqb_eq. Qed.

Lemma host_sound n s h :
  h ∈ run false (host n) s ->
  exists d t, s = d ++ "."%char :: t ++ h.2 /\ n <= length d /\
              forallb domain_char d = true /\
              2 <= length t /\ forallb is_letter t = true.
Proof.
  intros Hh. destruct (run_sound _ _ _ _ Hh)
    as (w & -> & d & v & -> & [Hn Hd] & u & t & -> & (x & -> & Hx) & Ht & Hlt).
  apply chr_ok_exact in Hx as ->.
  exists d, t. by rewrite <- !(assoc_L (++)).
Qed.

Lemma host_complete n d t rest :
  n <= length d -> forallb domain_char d = true ->
  2 <= length t -> forallb is_letter t = true ->
  exists caps, (caps, rest) ∈ run false (host n) (d ++ "."%char :: t ++ rest).
Proof.
  intros Hn Hd Ht Hlt.
  destruct (run_complete false (host n) (d ++ "."%char :: t) rest)
    as [caps Hc].
  - exists d, ("."%char :: t). repeat split; auto.
    exists ["."%char], t. repeat split; auto. by exists "."%char.
  - exists caps. by rewrite <- (assoc_L (++)) in Hc.
Qed.

Lemma host_longest s : forall n h tl,
  run false (host n) s = h :: tl ->
  forall d t rest,
    s = d ++ "."%char :: t ++ rest -> n <= length d ->
    forallb domain_char d = true ->
    2 <= length t -> forallb is_letter t = true ->
    length h.2 <= length rest.
Proof.
  induction s as [|x s IH]; intros n h tl Hrun d t rest Hs Hn Hd Ht Hlt.
  { by destruct d. }
  unfold host in Hrun. rewrite run_seq_rep in Hrun. simpl rep in Hrun.
  destruct d as [|y d]; simpl in Hs, Hn, Hd; injection Hs as -> ->.
  - assert (n = 0) as -> by lia.
    change (domain_char "."%char) with true in Hrun.
    change (Init.Nat.pred 0) with 0 in Hrun. cbv iota in Hrun.
    rewrite flat_map_app, <- run_seq_rep in Hrun. fold (host 0) in Hrun.
    destruct (run false (host 0) (t ++ rest)) as [|h0 tl0] eqn:Hhost.
    + cbn [app flat_map] in Hrun. unfold tld in Hrun.
      rewrite run_seq_chr in Hrun.
      change (chr_ok false "."%char "."%char) with true in Hrun.
      cbv iota in Hrun. rewrite app_nil_r in Hrun. cbn [run] in Hrun.
      destruct (rep (class_ok false is_letter) 2 (t ++ rest))
        as [|c0 tl1] eqn:Hrep; [done|].
      injection Hrun as <- _. simpl.
      eapply rep_head_min; [done|]. by apply rep_complete.
    + injection Hrun as <- _.
      destruct (host_sound 0 (t ++ rest) h0)
        as (d0 & t0 & Heq & _ & _ & Ht0 & _).
      { rewrite Hhost. set_solver. }
      pose proof (letters_before_dot _ _ _ _ (eq_sym Heq) Hlt).
      apply (f_equal length) in Heq. rewrite !length_app in Heq.
      simpl in Heq. rewrite length_app in Heq. lia.
  - apply andb_prop in Hd as [Hy Hd].
    rewrite Hy in Hrun.
    rewrite flat_map_app, <- run_seq_rep in Hrun. fold (host (pred n)) in Hrun.
    destruct (host_complete (pred n) d t rest) as [caps Hc]; auto; [lia|].
    destruct (run false (host (pred n)) (d ++ "."%char :: t ++ rest))
      as [|h0 tl0] eqn:Hhost; [set_solver|].
    injection Hrun as <- _. eapply IH; eauto. lia.
Qed.

Lemma email_lang_iff m : lang false emailRegex m <-> email_shape m.
Proof.
  split.
  - intros (l & v & -> & [Hl Hll] & a & v2 & -> & (x & -> & Hx) & d & v3 & ->
            & [Hd Hdd] & p & t & -> & (y & -> & Hy) & Ht & Htt).
    apply chr_ok_exact in Hx as ->. apply chr_ok_exact in Hy as ->.
    by exists l, d, t.
  - intros (l & d & t & -> & Hl & Hll & Hd & Hdd & Ht & Htt).
    exists l, (chars "@" ++ d ++ chars "." ++ t). repeat split; auto.
    exists (chars "@"), (d ++ chars "." ++ t). repeat split; auto.
    { by exists "@"%char. }
    exists d, (chars "." ++ t). repeat split; auto.
    exists (chars "."), t. repeat split; auto. by exists "."%char.
Qed.

Lemma email_nonempty w : lang false emailRegex w -> w <> [].
Proof.
  intros (l & d & t & -> & Hl & _)%email_lang_iff. destruct l; simpl in *;
    [lia|done].
Qed.

Lemma at_not_local : local_char "@" = false.
Proof. reflexivity. Qed.

(** The matcher's first answer for the email pattern is the longest word of
    the shape that starts there. *)
Lemma email_first_is_longest m rest :
  first_answer false emailRegex m rest -> longest email_shape m rest.
Proof.
  intros (caps & tl & Hrun) m' rest' Heq
    (l & d & t & -> & Hl & Hll & Hd & Hdd & Ht & Htt).
  rewrite Heq in Hrun. unfold emailRegex in Hrun.
  rewrite run_seq_rep in Hrun. simpl "++" in Hrun.
  rewrite <- !(assoc_L (++)) in Hrun. simpl "++" in Hrun.
  rewrite (rep_then_sep (class_ok false local_char) "@"%char) in Hrun;
    [| apply at_not_local | | done | done].
  - rewrite run_seq_chr in Hrun.
    change (chr_ok false "@"%char "@"%char) with true in Hrun.
    cbv iota in Hrun. rewrite <- !(assoc_L (++)) in Hrun.
    pose proof (host_longest _ 1 _ _ Hrun d t rest' eq_refl Hd Hdd Ht Htt)
      as Hlen. simpl in Hlen.
    apply (f_equal length) in Heq.
    rewrite (length_app m), (length_app _ rest') in Heq. lia.
  - intros x c Hx. rewrite run_seq_chr. unfold chr_ok; simpl.
    destruct (Ascii.eqb_spec x "@"%char); [done|done].
Qed.

Lemma scanned_all P b text ms : scanned P b text ms -> Forall P ms.
Proof. induction 1; constructor; auto. Qed.

Lemma email_shape_length m : email_shape m -> 6 <= length m.
Proof.
  intros (l & d & t & -> & ? & _ & ? & _ & ? & _).
  rewrite !length_app. simpl. lia.
Qed.

Lemma match_emails_scanned text :
  scanned email_shape (longest email_shape) text (match_emails text).
Proof.
  assert (Hs : scanned (lang false emailRegex) (first_answer false emailRegex)
                 (drop 0 text)
                 (match_loop (length text + 2) false emailRegex text 0)).
  { apply match_loop_scanned; [apply email_nonempty|lia|lia]. }
  rewrite drop_0 in Hs. unfold match_emails, match_all.
  eapply scanned_impl in Hs;
    [|apply email_lang_iff
     |intros m rest _; apply email_first_is_longest].
  destruct (match_loop _ _ _ _ _); [done|done].
Qed.

(** C3. For every text, email extraction ([extractEmails], and the same
    pattern used through [match] in index.js) returns the substrings of the
    [local-part@domain.tld] shape found by a scan from the left: they are in
    order of appearance, do not overlap and are copied unchanged, no word of
    the shape starts in a gap before any of them, and each is the longest
    word of the shape at its position. The loop gives the same list with any
    larger fuel, so the call always returns; the list is empty exactly when
    the text has no substring of the shape; [a@b] is never extracted, and
    [a@b@c] gives nothing. *)
Theorem extractEmails_exact (text : list ascii) :
  let emails := Puppeteer.extractEmails text in
  scanned email_shape (longest email_shape) text emails
  /\ match_emails text = emails
  /\ (forall fuel, length text < fuel ->
        match_loop fuel false emailRegex text 0 = emails)
  /\ (emails = [] <-> ~ occurs email_shape text)
  /\ ~ (chars "a@b" ∈ emails)
  /\ Puppeteer.extractEmails (chars "a@b@c") = [].
Proof.
  assert (Hsame : match_emails text = Puppeteer.extractEmails text)
    by reflexivity.
  cbv zeta. rewrite <- Hsame.
  pose proof (match_emails_scanned text) as Hs.
  repeat split.
  - done.
  - intros fuel Hfuel. unfold match_emails, match_all.
    rewrite (match_loop_fuel false emailRegex text email_nonempty
               fuel (length text + 2) 0) by lia.
    by destruct (match_loop _ _ _ _ _).
  - by apply (scanned_nil_iff _ _ _ _ Hs).
  - by apply (scanned_nil_iff _ _ _ _ Hs).
  - intros Hin. apply scanned_all in Hs.
    rewrite Forall_forall in Hs. apply Hs, email_shape_length in Hin.
    simpl in Hin. lia.
Qed.

Lemma extractEmails_exact_witness :
  match_loop 100 false emailRegex (chars "mail bob@example.org") 0
  = Puppeteer.extractEmails (chars "mail bob@example.org").
Proof.
  destruct (extractEmails_exact (chars "mail bob@example.org"))
    as (_ & _ & Hfuel & _).
  apply Hfuel. simpl. lia.
Defined.

(** *** The URL pattern *)

Lemma user_class_icase x : class_ok true user_char x = user_char x.
Proof. by destruct x as [[] [] [] [] [] [] [] []]. Qed.

Lemma forallb_same {A} (f g : A -> bool) l :
  (forall x, f x = g x) -> forallb f l = forallb g l.
Proof. intros H. induction l as [|x l IH]; simpl; [done|by rewrite H, IH]. Qed.

Lemma str_ok_same w : forall w' rest,
  same_letters w' w -> str_ok true w (w' ++ rest) = Some rest.
Proof.
  unfold same_letters.
  induction w as [|c w IH]; intros [|x w'] rest Heq; simpl in *; try done.
  injection Heq as Hx Heq. unfold chr_ok, canon. rewrite Hx, Ascii.eqb_refl.
  by apply IH.
Qed.

Lemma str_ok_letters w : forall u,
  str_ok true w u = Some [] -> same_letters u w.
Proof.
  unfold same_letters.
  induction w as [|c w IH]; intros [|x u] H; simpl in *; try done.
  destruct (chr_ok true c x) eqn:Hc; [|done].
  apply Ascii.eqb_eq in Hc. unfold canon in Hc. rewrite Hc. f_equal. auto.
Qed.

Lemma run_seq_str icase w r2 s :
  run icase (Seq (Str w) r2) s =
  match str_ok icase w s with
  | Some s' => run icase r2 s'
  | None => []
  end.
Proof.
  simpl. destruct (str_ok icase w s); [|done]. simpl. rewrite app_nil_r.
  induction (run icase r2 l) as [|[??] ? IH']; simpl; [done|by rewrite IH'].
Qed.

Lemma map_pair_id {A B} (l : list (A * B)) :
  map (fun m => (m.1, m.2)) l = l.
Proof. induction l as [|[??] ? IH]; simpl; [done|by rewrite IH]. Qed.

Lemma run_seq_opt icase r1 r2 s :
  ngroups r1 = 0 ->
  run icase (Seq (Opt r1) r2) s =
  run icase (Seq r1 r2) s ++ run icase r2 s.
Proof.
  intros Hg. simpl. rewrite flat_map_app, Hg. simpl.
  by rewrite app_nil_r, map_pair_id.
Qed.

(** The greedy repetition stops where the class stops. *)
Lemma rep_greedy_head ok n u trail :
  forallb ok u = true -> n <= length u ->
  (trail = [] \/ exists x t, trail = x :: t /\ ok x = false) ->
  exists tl, rep ok n (u ++ trail) = trail :: tl.
Proof.
  intros Hu Hn Htrail. revert n Hn.
  induction u as [|x u IH]; intros n Hn; simpl in *.
  - assert (n = 0) as -> by lia.
    destruct Htrail as [->|(x & t & -> & Hx)]; simpl; [by eexists|].
    rewrite Hx. by eexists.
  - apply andb_prop in Hu as [-> Hu].
    destruct (IH Hu (pred n)) as [tl ->]; [lia|]. by eexists.
Qed.

Lemma starts_app {A} (l1 l2 : list A) x :
  starts_with_answer l1 x -> starts_with_answer (l1 ++ l2) x.
Proof. intros [tl ->]. by exists (tl ++ l2). Qed.

Lemma run_after_host host user trail :
  same_letters host (chars "github.com") ->
  1 <= length user -> forallb user_char user = true ->
  (trail = [] \/ exists t, trail = "/"%char :: t) ->
  starts_with_answer
    (run true after_host (host ++ chars "/" ++ user ++ trail))
    ([Some user], trail).
Proof.
  intros Hhost Hn Hu Htrail. unfold after_host. rewrite run_seq_str.
  rewrite (assoc_L (++)).
  rewrite (str_ok_same (chars "github.com/") (host ++ chars "/")).
  2:{ unfold same_letters in *. rewrite map_app, Hhost. done. }
  cbn [run].
  destruct (rep_greedy_head (class_ok true user_char) 1 user trail) as [tl Hrep].
  - by rewrite (forallb_same _ user_char) by apply user_class_icase.
  - done.
  - destruct Htrail as [->|[t ->]]; [by left|right]. by exists "/"%char, t.
  - rewrite Hrep. simpl. rewrite take_app_rest. by eexists.
Qed.

Lemma run_after_scheme www host user trail :
  (www = [] \/ same_letters www (chars "www.")) ->
  same_letters host (chars "github.com") ->
  1 <= length user -> forallb user_char user = true ->
  (trail = [] \/ exists t, trail = "/"%char :: t) ->
  starts_with_answer
    (run true after_scheme
         (chars "://" ++ www ++ host ++ chars "/" ++ user ++ trail))
    ([Some user], trail).
Proof.
  intros Hwww Hhost Hn Hu Htrail. unfold after_scheme. rewrite run_seq_str.
  rewrite (str_ok_same (chars "://") (chars "://")) by done.
  rewrite run_seq_opt by done.
  pose proof (run_after_host host user trail Hhost Hn Hu Htrail) as Hrun.
  destruct Hwww as [->|Hwww].
  - rewrite run_seq_str. simpl "++" at 2.
    destruct host as [|g host]; [done|]. injection Hhost as Hg _.
    simpl str_ok. unfold chr_ok at 1, canon. rewrite Hg. simpl. done.
  - apply starts_app. rewrite run_seq_str, str_ok_same by done. done.
Qed.

Lemma run_github_url scheme www host user trail :
  (same_letters scheme (chars "http") \/
   same_letters scheme (chars "https")) ->
  (www = [] \/ same_letters www (chars "www.")) ->
  same_letters host (chars "github.com") ->
  1 <= length user -> forallb user_char user = true ->
  (trail = [] \/ exists t, trail = "/"%char :: t) ->
  starts_with_answer
    (run true githubUrlRegex
         (scheme ++ chars "://" ++ www ++ host ++ chars "/" ++ user ++ trail))
    ([Some user], trail).
Proof.
  intros Hscheme Hwww Hhost Hn Hu Htrail.
  pose proof (run_after_scheme www host user trail Hwww Hhost Hn Hu Htrail)
    as Hrun.
  unfold githubUrlRegex. fold after_host. fold after_scheme.
  rewrite run_seq_str. destruct Hscheme as [Hs|Hs].
  - rewrite str_ok_same by done. rewrite run_seq_opt by done.
    rewrite run_seq_chr. simpl. done.
  - destruct scheme as [|h [|t1 [|t2 [|p [|s [|]]]]]]; try done.
    injection Hs as Hh Ht1 Ht2 Hp Hs.
    change ([h; t1; t2; p; s] ++ ?X) with ([h; t1; t2; p] ++ s :: X).
    rewrite (str_ok_same (chars "http") [h; t1; t2; p]).
    2:{ unfold same_letters. simpl. by rewrite Hh, Ht1, Ht2, Hp. }
    rewrite run_seq_opt by done. apply starts_app.
    rewrite run_seq_chr. unfold chr_ok, canon. rewrite Hs. simpl. done.
Qed.

(** *** extractGitHubUsername *)

Lemma extract_unfold c u st :
  Upwork.extractGitHubUsername (Some (c :: u)) st =
  Some ((fresh_exec (c :: u)).1,
        Upwork.State (fresh_exec (c :: u)).2 (Upwork.requested st)).
Proof.
  unfold Upwork.extractGitHubUsername, Upwork.ubind, Upwork.set_lastIndex,
    Upwork.regex_exec, fresh_exec. simpl Upwork.lastIndex.
  destruct (exec true githubUrlRegex (c :: u) 0) as [[m|] li]; simpl; [|done].
  by destruct (truthy (group m 1)).
Qed.

Lemma extract_absent url st :
  truthy url = false -> Upwork.extractGitHubUsername url st = Some (None, st).
Proof. by destruct url as [[|]|]. Qed.

Lemma extract_total url st :
  exists li, Upwork.extractGitHubUsername url st =
             Some (answer url, Upwork.State li (Upwork.requested st)).
Proof.
  destruct url as [[|c u]|].
  - exists (Upwork.lastIndex st). by destruct st.
  - eexists. unfold answer. by rewrite !extract_unfold.
  - exists (Upwork.lastIndex st). by destruct st.
Qed.

Lemma search_first_answer icase r s i m tl :
  run icase r s = m :: tl ->
  search icase r s i = Some (Match i (take (length s - length m.2) s) m.1).
Proof. intros Hrun. destruct s; simpl; by rewrite Hrun. Qed.

Lemma exec_first_answer icase r text caps rest tl :
  run icase r text = (caps, rest) :: tl ->
  exec icase r text 0 =
  (Some (Match 0 (take (length text - length rest) text) caps),
   length text - length rest).
Proof.
  intros Hrun. unfold exec.
  change (length text <? 0) with false. cbv iota. rewrite drop_0.
  rewrite (search_first_answer _ _ _ _ _ _ Hrun). simpl.
  rewrite length_take. f_equal. lia.
Qed.

Lemma answer_github_url scheme www host user trail :
  (same_letters scheme (chars "http") \/
   same_letters scheme (chars "https")) ->
  (www = [] \/ same_letters www (chars "www.")) ->
  same_letters host (chars "github.com") ->
  1 <= length user -> forallb user_char user = true ->
  (trail = [] \/ exists t, trail = "/"%char :: t) ->
  answer (Some (scheme ++ chars "://" ++ www ++ host ++ chars "/"
                  ++ user ++ trail)) = Some user.
Proof.
  intros Hscheme Hwww Hhost Hn Hu Htrail.
  destruct (run_github_url scheme www host user trail) as [tl Hrun]; auto.
  set (url := scheme ++ _) in *.
  assert (Hne : exists c u, url = c :: u).
  { subst url. destruct Hscheme as [H|H];
      (destruct scheme; [done|]); simpl; eauto. }
  destruct Hne as (c & u & Hurl). unfold answer. rewrite Hurl, extract_unfold.
  rewrite <- Hurl. unfold fresh_exec.
  rewrite (exec_first_answer _ _ _ _ _ _ Hrun). unfold group; simpl.
  destruct user; simpl in *; [lia|done].
Qed.

Lemma github_lang_shape w :
  lang true githubUrlRegex w -> github_url_shape w.
Proof.
  intros (scheme & v1 & -> & [_ Hscheme] & s & v2 & -> & Hs
          & sep & v3 & -> & [_ Hsep] & www & v4 & -> & Hwww
          & host & user & -> & [_ Hhost] & Hn & Hu).
  apply str_ok_letters in Hscheme, Hsep, Hhost.
  assert (sep = chars "://") as ->.
  { destruct sep as [|a [|b [|c [|]]]]; try done.
    injection Hsep as Ha Hb Hc.
    assert (Hlow : forall x y, to_upper x = y -> is_letter y = false ->
                               x = y).
    { intros x y <-.
      by destruct x as [[] [] [] [] [] [] [] []]. }
    by rewrite (Hlow _ _ Ha), (Hlow _ _ Hb), (Hlow _ _ Hc). }
  assert (Hh : exists h, host = h ++ chars "/" /\
                         same_letters h (chars "github.com")).
  { unfold same_letters in *.
    destruct host as [|a1 [|a2 [|a3 [|a4 [|a5 [|a6 [|a7 [|a8 [|a9 [|a10
      [|a11 [|]]]]]]]]]]]]; try done.
    exists [a1; a2; a3; a4; a5; a6; a7; a8; a9; a10].
    injection Hhost as ?????????? H11. split; [|simpl; congruence].
    assert (a11 = "/"%char) as ->; [|done].
    revert H11. clear. by destruct a11 as [[] [] [] [] [] [] [] []]. }
  destruct Hh as (h & -> & Hh).
  exists (scheme ++ s), www, h, user.
  rewrite <- !(assoc_L (++)). split; [done|].
  split; [|split; [|split; [done|]]].
  - destruct Hs as [->|(x & -> & Hx)].
    + left. by rewrite app_nil_r.
    + right. unfold same_letters in *. rewrite map_app, Hscheme. simpl.
      apply Ascii.eqb_eq in Hx. unfold canon in Hx. by rewrite Hx.
  - destruct Hwww as [->|[_ Hw]]; [by left|right].
    by apply str_ok_letters.
  - split; [done|].
    by rewrite (forallb_same _ user_char) in Hu by apply user_class_icase.
Qed.

Lemma answer_no_url url :
  ~ occurs github_url_shape url -> answer (Some url) = None.
Proof.
  intros Hno. destruct url as [|c u]; [done|].
  unfold answer. rewrite extract_unfold. unfold fresh_exec.
  destruct (exec true githubUrlRegex (c :: u) 0) as [[m|] li] eqn:Hex; [|done].
  destruct Hno. apply exec_some in Hex
    as (_ & _ & gap & rest & Hdrop & _ & Hw & _).
  rewrite drop_0 in Hdrop. exists gap, (whole m ++ rest). split; [done|].
  exists (whole m), rest. split; [done|]. by apply github_lang_shape.
Qed.

Lemma shape_has_colon w : github_url_shape w -> ":"%char ∈ w.
Proof.
  intros (scheme & www & host & user & -> & _).
  apply elem_of_app; right. apply list_elem_of_here.
Qed.

Lemma answer_no_scheme user :
  forallb user_char user = true ->
  answer (Some (chars "github.com/" ++ user)) = None.
Proof.
  intros Hu. apply answer_no_url.
  intros (pre & suf & Heq & m & rest & -> & Hm%shape_has_colon).
  assert (Hin : ":"%char ∈ chars "github.com/" ++ user).
  { rewrite Heq. apply elem_of_app; right. apply elem_of_app; by left. }
  apply elem_of_app in Hin as [Hin|Hin].
  - revert Hin. clear. simpl. rewrite !elem_of_cons, elem_of_nil.
    intros H. repeat (destruct H as [H|H]; [done|]). done.
  - rewrite forallb_forall in Hu. apply list_elem_of_In in Hin.
    by specialize (Hu _ Hin).
Qed.

(** C4. [extractGitHubUsername] returns [<user>] on every string
    [scheme://[www.]github.com/<user>] followed by nothing or by [/...],
    where the scheme is [http] or [https], scheme, [www.] and host are read
    without regard to case, and [<user>] is a non-empty word over
    [[A-Za-z0-9_-]]. It returns [null] on [github.com/<user>] without a
    scheme, on an absent or empty argument, and on every string in which
    no URL of that host occurs. *)
Theorem extractGitHubUsername_spec :
  (forall scheme www host user trail st,
      same_letters scheme (chars "http") \/
      same_letters scheme (chars "https") ->
      www = [] \/ same_letters www (chars "www.") ->
      same_letters host (chars "github.com") ->
      1 <= length user -> forallb user_char user = true ->
      trail = [] \/ (exists t, trail = "/"%char :: t) ->
      fst <$> Upwork.extractGitHubUsername
                (Some (scheme ++ chars "://" ++ www ++ host ++ chars "/"
                         ++ user ++ trail)) st
      = Some (Some user))
  /\ (forall user st,
        forallb user_char user = true ->
        fst <$> Upwork.extractGitHubUsername
                  (Some (chars "github.com/" ++ user)) st = Some None)
  /\ (forall st,
        Upwork.extractGitHubUsername None st = Some (None, st) /\
        Upwork.extractGitHubUsername (Some []) st = Some (None, st))
  /\ (forall url st,
        ~ occurs github_url_shape url ->
        fst <$> Upwork.extractGitHubUsername (Some url) st = Some None).
Proof.
  assert (Hans : forall url st,
             fst <$> Upwork.extractGitHubUsername url st = Some (answer url)).
  { intros url st. destruct (extract_total url st) as [li ->]. done. }
  split; [|split; [|split]].
  - intros. rewrite Hans. f_equal. by apply answer_github_url.
  - intros. rewrite Hans. f_equal. by apply answer_no_scheme.
  - done.
  - intros. rewrite Hans. f_equal. by apply answer_no_url.
Qed.

Lemma extractGitHubUsername_spec_witness :
  fst <$> Upwork.extractGitHubUsername
            (Some (chars "HTTPS" ++ chars "://" ++ chars "WWW."
                     ++ chars "GitHub.com" ++ chars "/" ++ chars "octo-cat"
                     ++ chars "/repo")) fresh
  = Some (Some (chars "octo-cat")).
Proof.
  destruct extractGitHubUsername_spec as [Hurl _].
  apply Hurl; [by right|by right|done|simpl; lia|done|].
  right. by exists (chars "repo").
Defined.

Lemma call_sequence_answers urls : forall st,
  exists li, call_sequence urls st =
             Some (map answer urls, Upwork.State li (Upwork.requested st)).
Proof.
  induction urls as [|url urls IH]; intros st; simpl.
  - exists (Upwork.lastIndex st). by destruct st.
  - unfold Upwork.ubind. destruct (extract_total url st) as [li ->].
    destruct (IH (Upwork.State li (Upwork.requested st))) as [li' ->].
    by exists li'.
Qed.

(** C8. The answer of [extractGitHubUsername] depends on its argument only,
    never on the [lastIndex] that earlier calls left: two calls on the same
    argument from any two states agree, a sequence of calls answers each
    argument as a fresh module would, and a matching URL, a URL of another
    host and the matching URL again give the username, [null] and the
    username. *)
Theorem extractGitHubUsername_stateless :
  (forall url st st',
      fst <$> Upwork.extractGitHubUsername url st =
      fst <$> Upwork.extractGitHubUsername url st')
  /\ (forall urls st,
        fst <$> call_sequence urls st = Some (map answer urls))
  /\ (forall st,
        fst <$> call_sequence
                  [Some (chars "https://github.com/octocat");
                   Some (chars "https://example.com/octocat");
                   Some (chars "https://github.com/octocat")] st
        = Some [Some (chars "octocat"); None; Some (chars "octocat")]).
Proof.
  assert (Hseq : forall urls st,
             fst <$> call_sequence urls st = Some (map answer urls)).
  { intros urls st. by destruct (call_sequence_answers urls st) as [li ->]. }
  split; [|split].
  - intros url st st'. destruct (extract_total url st) as [li ->].
    by destruct (extract_total url st') as [li' ->].
  - done.
  - intros st. by rewrite Hseq.
Qed.

(** *** The deduplication store *)

Section Dedup.
Context {A : Type} `{EqDecision A}.
Implicit Types (x : A) (s xs : list A).

Lemma add_present x s : x ∈ s -> JSSet.add x s = s.
Proof.
  intros Hin. unfold JSSet.add, JSSet.has. by rewrite bool_decide_eq_true_2.
Qed.

Lemma add_fresh x s : x ∉ s -> JSSet.add x s = s ++ [x].
Proof.
  intros Hin. unfold JSSet.add, JSSet.has. by rewrite bool_decide_eq_false_2.
Qed.

Lemma add_elem x s : x ∈ JSSet.add x s.
Proof.
  destruct (decide (x ∈ s)) as [Hin|Hin].
  - by rewrite add_present.
  - rewrite add_fresh by done. apply elem_of_app; right. apply list_elem_of_here.
Qed.

Lemma add_NoDup x s : NoDup s -> NoDup (JSSet.add x s).
Proof.
  intros Hs. destruct (decide (x ∈ s)) as [Hin|Hin].
  - by rewrite add_present.
  - rewrite add_fresh by done. apply NoDup_app. split; [done|].
    split; [|apply NoDup_singleton].
    intros y Hy ->%list_elem_of_singleton. done.
Qed.

Lemma filter_all (P : A -> Prop) `{forall y, Decision (P y)} xs :
  Forall P xs -> filter P xs = xs.
Proof.
  induction 1 as [|y xs Hy _ IH]; [done|].
  rewrite filter_cons_True by done. by rewrite IH.
Qed.

Lemma add_all_first_seen xs : forall s,
  JSSet.add_all xs s = s ++ filter (fun y => y ∉ s) (JSSet.first_seen xs).
Proof.
  induction xs as [|x xs IH]; intros s; simpl.
  - by rewrite app_nil_r.
  - unfold JSSet.add_all in *. simpl. rewrite IH.
    destruct (decide (x ∈ s)) as [Hin|Hin].
    + rewrite add_present by done. f_equal.
      rewrite filter_cons_False by (intros Hx; by apply Hx).
      rewrite list_filter_filter. apply list_filter_iff.
      intros y. split; [|tauto]. intros Hy. split; [done|]. by intros ->.
    + rewrite add_fresh by done. rewrite <- (assoc_L (++)). f_equal.
      rewrite filter_cons_True by done. simpl. f_equal.
      rewrite list_filter_filter. apply list_filter_iff.
      intros y. rewrite elem_of_app, list_elem_of_singleton. tauto.
Qed.

Lemma first_seen_NoDup xs : NoDup xs -> JSSet.first_seen xs = xs.
Proof.
  induction 1 as [|x xs Hx _ IH]; simpl; [done|]. rewrite IH. f_equal.
  apply filter_all, Forall_forall. intros y Hy ->. done.
Qed.
End Dedup.

(** C9. The deduplication store ([emailSet], a JavaScript [Set]): adding an
    identifier that is present leaves the size unchanged; adding a new one
    twice increases the size by exactly 1; after N distinct insertions into
    an empty store the enumeration is those N identifiers, of length N; and
    for every sequence of insertions into a cleared store the enumeration,
    which is what [saveEmails] returns, lists each identifier once, in the
    order of first insertion. *)
Theorem emailSet_deduplicates :
  (forall (x : list ascii) s,
      x ∈ s -> JSSet.size (JSSet.add x s) = JSSet.size s)
  /\ (forall (x : list ascii) s,
        x ∉ s -> JSSet.size (JSSet.add x (JSSet.add x s)) = JSSet.size s + 1)
  /\ (forall xs : list (list ascii),
        NoDup xs ->
        JSSet.from (JSSet.add_all xs []) = xs /\
        length (JSSet.from (JSSet.add_all xs [])) = length xs)
  /\ (forall (xs s : list (list ascii)),
        JSSet.from (JSSet.add_all xs (JSSet.clear s)) = JSSet.first_seen xs)
  /\ (forall (xs : list (list ascii)) st,
        let st' := (Index.for_each xs Index.emailSet_add
                      (Index.emailSet_clear st).2).2 in
        (Index.saveEmails Index.default_filename st').1
        = Index.Return (JSSet.first_seen xs)).
Proof.
  assert (Hfs : forall xs : list (list ascii),
             JSSet.add_all xs [] = JSSet.first_seen xs).
  { intros xs. rewrite add_all_first_seen. simpl.
    apply filter_all, Forall_forall. intros y _. apply not_elem_of_nil. }
  split; [|split; [|split; [|split]]].
  - intros x s Hin. by rewrite add_present.
  - intros x s Hin. rewrite (add_present x (JSSet.add x s)) by apply add_elem.
    rewrite add_fresh by done. unfold JSSet.size. rewrite length_app. done.
  - intros xs Hxs. unfold JSSet.from. rewrite Hfs.
    by rewrite first_seen_NoDup.
  - intros xs s. apply Hfs.
  - intros xs st. cbv zeta. destruct st as [set fs log]. simpl.
    assert (Hrun : forall (xs : list (list ascii)) set fs log,
               Index.for_each xs Index.emailSet_add (Index.State set fs log)
               = (Index.Return tt, Index.State (JSSet.add_all xs set) fs log)).
    { clear. induction xs as [|x xs IH]; intros set fs log; simpl; [done|].
      unfold Index.bind. simpl. by rewrite IH. }
    rewrite Hrun. simpl. f_equal. apply Hfs.
Qed.

Lemma emailSet_deduplicates_witness :
  JSSet.from (JSSet.add_all [chars "ann@example.com"; chars "bob@example.org"]
                            [])
  = [chars "ann@example.com"; chars "bob@example.org"] /\
  length (JSSet.from
            (JSSet.add_all [chars "ann@example.com"; chars "bob@example.org"]
                           [])) = 2.
Proof.
  destruct emailSet_deduplicates as (_ & _ & Hdistinct & _).
  apply Hdistinct. apply NoDup_cons. split; [|apply NoDup_singleton].
  by intros Hin%list_elem_of_singleton.
Defined.

Create HintDb safe.
Create HintDb quiet.

Section HarvestProofs.
Import Index.
Local Open Scope index_scope.

(** *** Computations that never throw *)

Section Safe.
Context {A : Type}.

Lemma safe_ret (a : A) : safe (ret a).
Proof. intros st. by exists a, st. Qed.

Lemma safe_bind {B} (c : M B) (k : B -> M A) :
safe c -> (forall a, safe (k a)) -> safe (bind c k).
Proof.
intros Hc Hk st. destruct (Hc st) as (b & st1 & H1).
destruct (Hk b st1) as (a & st2 & H2).
exists a, st2. unfold bind. by rewrite H1.
Qed.

Lemma safe_try (body : M A) (handler : error -> M A) :
(forall e, safe (handler e)) -> safe (try_catch body handler).
Proof.
intros Hh st. unfold try_catch.
destruct (body st) as [[a|e] st1]; [by exists a, st1|apply Hh].
Qed.

End Safe.

Lemma safe_for_each {A} (xs : list A) (body : A -> M unit) :
(forall x, safe (body x)) -> safe (for_each xs body).
Proof.
intros Hb. induction xs as [|x xs IH]; simpl.
- apply safe_ret.
- apply safe_bind; auto.
Qed.

Lemma safe_if {A} (b : bool) (c1 c2 : M A) :
safe c1 -> safe c2 -> safe (if b then c1 else c2).
Proof. by destruct b. Qed.

Lemma safe_emailSet_add e : safe (emailSet_add e).
Proof. intros st. by eexists _, _. Qed.
Lemma safe_emailSet_clear : safe emailSet_clear.
Proof. intros st. by eexists _, _. Qed.
Lemma safe_get_emailSet : safe get_emailSet.
Proof. intros st. by eexists _, _. Qed.
Lemma safe_writeFileSync f v : safe (writeFileSync f v).
Proof. intros st. by eexists _, _. Qed.
Lemma safe_console_log l : safe (console_log l).
Proof. intros st. by eexists _, _. Qed.

#[local] Hint Resolve safe_ret safe_bind safe_try safe_for_each safe_if
safe_emailSet_add safe_emailSet_clear safe_get_emailSet safe_writeFileSync
safe_console_log : safe.

Lemma safe_saveEmails f : safe (saveEmails f).
Proof. unfold saveEmails. auto 10 with safe. Qed.
#[local] Hint Resolve safe_saveEmails : safe.

Section SafeHarvest.
Variable W : World.

Lemma safe_getContributorEmails u : safe (getContributorEmails W u).
Proof. unfold getContributorEmails. auto with safe. Qed.

Lemma safe_processRepository o r : safe (processRepository W o r).
Proof. unfold processRepository. auto with safe. Qed.

Lemma safe_getUserRepositories u : safe (getUserRepositories W u).
Proof. unfold getUserRepositories. auto with safe. Qed.

Lemma safe_searchJavaScriptRepos_from budget page :
safe (searchJavaScriptRepos_from W budget page).
Proof.
destruct budget; simpl; apply safe_try; intros e; auto 10 with safe.
Qed.

(** [processGitHubUser] goes through its two lookups and returns [true]. *)
Lemma processGitHubUser_true u st :
exists st', processGitHubUser W u st = (Return true, st').
Proof.
unfold processGitHubUser, try_catch, bind.
destruct (safe_getContributorEmails u st) as (a & st1 & ->).
destruct (safe_getUserRepositories u st1) as (b & st2 & ->).
by exists st2.
Qed.

Lemma count_successes_all us : forall n st,
exists st', count_successes W us n st = (Return (n + length us), st').
Proof.
induction us as [|u us IH]; intros n st; simpl.
- exists st. unfold ret. do 2 f_equal. lia.
- unfold bind. destruct (processGitHubUser_true u st) as [st1 ->].
  destruct (IH (S n) st1) as [st2 ->]. exists st2. do 2 f_equal. lia.
Qed.
End SafeHarvest.

(** C10. [processGitHubUser] returns [true] for every username on every
    code host: its two lookups catch their own failures, so the branch that
    returns [false] is never taken, and in marketplace mode the success
    count that is logged equals the number of usernames processed. *)
Theorem processGitHubUser_always_true :
(forall W username st,
    exists st', processGitHubUser W username st = (Return true, st'))
/\ (forall W usernames st,
      exists st', count_successes W usernames 0 st
                  = (Return (length usernames), st'))
/\ (forall W usernames st,
      LogProcessed (length usernames) (length usernames)
      ∈ console (harvest_usernames W usernames st).2).
Proof.
split; [|split].
- intros. apply processGitHubUser_true.
- intros W us st. apply (count_successes_all W us 0 st).
- intros W us st. unfold harvest_usernames, bind.
  destruct (count_successes_all W us 0 st) as [st1 ->]. simpl.
  apply elem_of_app; left. apply elem_of_app; right.
  apply list_elem_of_here.
Qed.

(** *** Computations that write no file *)

Lemma quiet_ret {A} (a : A) : quiet (ret a).
Proof. by intros st. Qed.
Lemma quiet_throw {A} e : quiet (throw (A:=A) e).
Proof. by intros st. Qed.
Lemma quiet_await {A} (r : response A) : quiet (await r).
Proof. by destruct r. Qed.

Lemma quiet_bind {A B} (c : M A) (k : A -> M B) :
quiet c -> (forall a, quiet (k a)) -> quiet (bind c k).
Proof.
intros Hc Hk st. unfold bind. specialize (Hc st).
destruct (c st) as [[a|e] st1]; simpl in *; [|done].
destruct (Hk a st1) as [-> ->]. done.
Qed.

Lemma quiet_try {A} (body : M A) (handler : error -> M A) :
quiet body -> (forall e, quiet (handler e)) -> quiet (try_catch body handler).
Proof.
intros Hb Hh st. unfold try_catch. specialize (Hb st).
destruct (body st) as [[a|e] st1]; simpl in *; [done|].
destruct (Hh e st1) as [-> ->]. done.
Qed.

Lemma quiet_for_each {A} (xs : list A) (body : A -> M unit) :
(forall x, quiet (body x)) -> quiet (for_each xs body).
Proof.
intros Hb. induction xs as [|x xs IH]; simpl.
- apply quiet_ret.
- apply quiet_bind; auto.
Qed.

Lemma quiet_if {A} (b : bool) (c1 c2 : M A) :
quiet c1 -> quiet c2 -> quiet (if b then c1 else c2).
Proof. by destruct b. Qed.

Lemma quiet_emailSet_add e : quiet (emailSet_add e).
Proof. by intros st. Qed.
Lemma quiet_emailSet_clear : quiet emailSet_clear.
Proof. by intros st. Qed.
Lemma quiet_get_emailSet : quiet get_emailSet.
Proof. by intros st. Qed.

#[local] Hint Resolve quiet_ret quiet_throw quiet_await quiet_bind quiet_try
quiet_for_each quiet_if quiet_emailSet_add quiet_emailSet_clear
quiet_get_emailSet : quiet.

Lemma quiet_add_unless_noreply email : quiet (add_unless_noreply email).
Proof. destruct email; simpl; auto with quiet. Qed.
#[local] Hint Resolve quiet_add_unless_noreply : quiet.

Section QuietHarvest.
Variable W : World.

Lemma quiet_checkReadmeForEmails o r : quiet (checkReadmeForEmails W o r).
Proof. unfold checkReadmeForEmails. auto 10 with quiet. Qed.

Lemma quiet_getUserEvents u : quiet (getUserEvents W u).
Proof. unfold getUserEvents. auto 10 with quiet. Qed.

Lemma quiet_getContributorEmails u : quiet (getContributorEmails W u).
Proof.
unfold getContributorEmails. apply quiet_try; [|auto with quiet].
apply quiet_bind; [auto with quiet|]. intros [e|]; apply quiet_bind;
  auto using quiet_getUserEvents with quiet.
Qed.

Lemma quiet_getContributors o r : quiet (getContributors W o r).
Proof.
unfold getContributors. auto 10 using quiet_getContributorEmails with quiet.
Qed.

Lemma quiet_checkCommits o r : quiet (checkCommits W o r).
Proof. unfold checkCommits. auto 12 with quiet. Qed.

Lemma quiet_processRepository o r : quiet (processRepository W o r).
Proof.
unfold processRepository.
auto 10 using quiet_checkReadmeForEmails, quiet_getContributors,
  quiet_checkCommits with quiet.
Qed.

Lemma quiet_getUserRepositories u : quiet (getUserRepositories W u).
Proof.
unfold getUserRepositories. auto 10 using quiet_processRepository with quiet.
Qed.

Lemma quiet_processGitHubUser u : quiet (processGitHubUser W u).
Proof.
unfold processGitHubUser.
auto 10 using quiet_getContributorEmails, quiet_getUserRepositories
  with quiet.
Qed.

Lemma quiet_count_successes us : forall n, quiet (count_successes W us n).
Proof.
induction us as [|u us IH]; intros n; simpl;
  auto using quiet_processGitHubUser with quiet.
Qed.

(** What [saveEmails] does to the state. *)
Lemma saveEmails_state f st :
saveEmails f st =
(Return (emailSet st),
 State (emailSet st)
       (<[f := JArray (map JString (emailSet st))]> (files st))
       (console st ++ [LogSaved (length (emailSet st)) f])).
Proof. done. Qed.

(** A search that fails saves the store when the status is 403 and then
  only. *)
Lemma search_failure budget page st e :
search_repos W page = Fail e ->
searchJavaScriptRepos_from W budget page st =
if bool_decide (status e = Some 403)
then (Return tt,
      State (emailSet st)
            (<[default_filename := JArray (map JString (emailSet st))]>
               (files st))
            (console st ++ [LogSaved (length (emailSet st))
                                     default_filename]))
else (Return tt, st).
Proof.
intros Hfail. destruct budget; simpl; unfold try_catch, bind;
  rewrite Hfail; simpl; by destruct (bool_decide _).
Qed.

Lemma search_success budget page st items st1 :
search_repos W page = Ok items ->
for_each items (fun r => processRepository W (owner_login r) (name r)) st
= (Return tt, st1) ->
searchJavaScriptRepos_from W budget page st =
if (0 <? length items) && (page <? 100) then
  match budget with
  | S budget' => searchJavaScriptRepos_from W budget' (page + 1) st1
  | 0 => (Return tt, st1)
  end
else (Return tt,
      State (emailSet st1)
            (<[default_filename := JArray (map JString (emailSet st1))]>
               (files st1))
            (console st1 ++ [LogSaved (length (emailSet st1))
                                      default_filename])).
Proof.
intros Hsearch Hrun.
destruct budget; cbn [searchJavaScriptRepos_from];
  unfold try_catch, bind at 1; rewrite Hsearch;
  unfold await, ret at 1, bind at 1; rewrite Hrun;
  destruct ((0 <? length items) && (page <? 100)); try done.
by destruct (safe_searchJavaScriptRepos_from W budget (page + 1) st1)
  as ([] & st2 & ->).
Qed.

(** The repository search writes at most once, at its end, and then what
  is in the store. *)
Lemma search_writes budget : forall page st,
let st' := (searchJavaScriptRepos_from W budget page st).2 in
files st' = files st \/
files st' = <[default_filename := JArray (map JString (emailSet st'))]>
              (files st).
Proof.
induction budget as [|budget IH]; intros page st; cbv zeta.
all: destruct (search_repos W page) as [items|e] eqn:Hsearch;
  [|rewrite (search_failure _ _ _ _ Hsearch);
    destruct (bool_decide _); simpl; auto].
all: pose proof (quiet_for_each items
       (fun r => processRepository W (owner_login r) (name r))
       (fun r => quiet_processRepository _ _) st) as [Hf _].
all: destruct (safe_for_each items
       (fun r => processRepository W (owner_login r) (name r))
       (fun r => safe_processRepository W _ _) st) as ([] & st1 & Hrun).
all: rewrite Hrun in Hf; simpl in Hf.
all: rewrite (search_success _ _ _ _ _ Hsearch Hrun).
all: destruct ((0 <? length items) && (page <? 100)); simpl;
  rewrite <- ?Hf; auto.
Qed.
End QuietHarvest.

(** *** Persisting on a failed search *)

(** The run of the specification's scenario: three emails, then a search
  that is refused with 403. *)
Lemma three_emails_survive_403 :
let st := (run_directly (one_repo three_emails rate_limited) initial).2 in
emailSet st = [chars "ann@example.com"; chars "bob@example.org";
               chars "eve@example.net"] /\
files st !! default_filename
= Some (JArray [JString (chars "ann@example.com");
                JString (chars "bob@example.org");
                JString (chars "eve@example.net")]).
Proof. cbv zeta. split; [by vm_compute|]. by vm_compute. Qed.

(** C6, as stated, fails: a search refused with 401 ends the run and leaves
  no file, although three emails are in the store. *)
Lemma search_401_discards :
run_directly (one_repo three_emails bad_credentials) initial
= (Return tt,
   State [chars "ann@example.com"; chars "bob@example.org";
          chars "eve@example.net"] ∅ []).
Proof. by vm_compute. Qed.

(** A search that fails with another status writes nothing. *)
Lemma search_other_status_discards W budget page st e :
search_repos W page = Fail e ->
status e <> Some 403 ->
searchJavaScriptRepos_from W budget page st = (Return tt, st).
Proof.
intros Hfail Hne. rewrite (search_failure W _ _ _ _ Hfail).
by rewrite bool_decide_eq_false_2.
Qed.

End HarvestProofs.

(** *** The run up to a failed search *)

Lemma repos_run W items st :
  exists st1,
    Index.for_each items
      (fun r => Index.processRepository W (Index.owner_login r)
                  (Index.name r)) st
    = (Index.Return tt, st1) /\ Index.files st1 = Index.files st.
Proof.
  destruct (safe_for_each items
              (fun r => Index.processRepository W (Index.owner_login r)
                          (Index.name r))
              (fun r => safe_processRepository W _ _) st)
    as ([] & st1 & Hrun).
  exists st1. split; [done|].
  pose proof (quiet_for_each items
                (fun r => Index.processRepository W (Index.owner_login r)
                            (Index.name r))
                (fun r => quiet_processRepository W _ _) st) as [Hf _].
  by rewrite Hrun in Hf.
Qed.

Lemma pages_processed_files W : forall n page st,
  Index.files (pages_processed W n page st) = Index.files st.
Proof.
  induction n as [|n IH]; intros page st; simpl; [done|].
  destruct (Index.search_repos W page) as [items|e]; [|done].
  rewrite IH. destruct (repos_run W items st) as (st1 & -> & Hf). done.
Qed.

(** The search goes from page to page as long as each answers with
    repositories. *)
Lemma search_until_failure W : forall n budget page st,
  n <= budget -> page + n <= 100 ->
  (forall p, page <= p < page + n ->
             exists items, Index.search_repos W p = Ok items /\ items <> []) ->
  Index.searchJavaScriptRepos_from W budget page st
  = Index.searchJavaScriptRepos_from W (budget - n) (page + n)
      (pages_processed W n page st).
Proof.
  induction n as [|n IH]; intros budget page st Hb Hp Hok.
  - by rewrite Nat.sub_0_r, Nat.add_0_r.
  - destruct (Hok page) as (items & Hs & Hne); [lia|].
    destruct (repos_run W items st) as (st1 & Hrun & _).
    rewrite (search_success W _ _ _ _ _ Hs Hrun).
    assert ((0 <? length items) && (page <? 100) = true) as ->.
    { destruct items; [done|]. simpl. apply Nat.ltb_lt. lia. }
    destruct budget as [|budget]; [lia|].
    rewrite (IH budget (page + 1) st1); [|lia|lia|].
    2:{ intros p Hp'. apply Hok. lia. }
    simpl pages_processed. rewrite Hs, Hrun. simpl.
    by replace (page + 1 + n) with (page + S n) by lia.
Qed.

Lemma developers_run W st :
  Index.searchJavaScriptDevelopers W st
  = (let s := (Index.searchJavaScriptRepos_from W 99 1
                 (Index.State [] (Index.files st) (Index.console st))).2 in
     (Index.Return (Index.emailSet s), s)).
Proof.
  cbv [Index.searchJavaScriptDevelopers Index.bind Index.emailSet_clear
       Index.get_emailSet Index.ret Index.searchJavaScriptRepos
       JSSet.clear JSSet.from].
  change (100 - 1) with 99.
  by destruct (safe_searchJavaScriptRepos_from W 99 1
                 (Index.State [] (Index.files st) (Index.console st)))
    as ([] & st1 & ->).
Qed.

(** C6, as amended. In repository-search mode, let the search answer pages
    1 to [n] with repositories and fail on page [n + 1]. The run then stops
    there and returns normally, also when run as a script, and its store
    holds the emails collected from those [n] pages. When the status of the
    failure is 403, the run leaves in the output file exactly these
    emails, all [k] of them whatever [k] is, and touches no other file;
    with any other status it writes nothing. *)
Theorem search_403_persists W n e st :
  n < 100 ->
  (forall p, 1 <= p <= n ->
             exists items, Index.search_repos W p = Ok items /\ items <> []) ->
  Index.search_repos W (n + 1) = Fail e ->
  let collected :=
    Index.emailSet
      (pages_processed W n 1
         (Index.State [] (Index.files st) (Index.console st))) in
  let r := Index.searchJavaScriptDevelopers W st in
  Index.run_directly W st = (Index.Return tt, r.2) /\
  r.1 = Index.Return collected /\
  Index.emailSet r.2 = collected /\
  (status e = Some 403 ->
   Index.files r.2
   = <[Index.default_filename := JArray (map JString collected)]>
       (Index.files st) /\
   forall k, length collected = k ->
     exists emails,
       length emails = k /\ emails = collected /\
       Index.files r.2 !! Index.default_filename
       = Some (JArray (map JString emails))) /\
  (status e <> Some 403 -> Index.files r.2 = Index.files st).
Proof.
  intros Hn Hok Hfail. cbv zeta.
  set (st0 := Index.State [] (Index.files st) (Index.console st)).
  set (c := pages_processed W n 1 st0).
  assert (Hfiles : Index.files c = Index.files st)
    by apply (pages_processed_files W n 1 st0).
  assert (Hrun : Index.searchJavaScriptRepos_from W 99 1 st0
                 = Index.searchJavaScriptRepos_from W (99 - n) (1 + n) c).
  { apply search_until_failure; [lia|lia|]. intros p Hp. apply Hok. lia. }
  rewrite (Nat.add_comm n 1) in Hfail.
  rewrite (search_failure W _ _ _ _ Hfail) in Hrun.
  unfold Index.run_directly, Index.try_catch, Index.bind.
  rewrite developers_run. cbv zeta. fold st0. rewrite Hrun.
  destruct (bool_decide (status e = Some 403)) eqn:H403.
  - apply bool_decide_eq_true in H403. simpl. rewrite Hfiles.
    split; [done|]. split; [done|]. split; [done|]. split; [|done].
    intros _. split; [done|]. intros k Hk.
    exists (Index.emailSet c). by rewrite lookup_insert_eq.
  - apply bool_decide_eq_false in H403. simpl.
    split; [done|]. split; [done|]. split; [done|]. split; [done|]. done.
Qed.

Lemma search_403_persists_witness :
  let collected :=
    Index.emailSet
      (pages_processed (repo_pages rate_limited) 2 1
         (Index.State [] (Index.files Index.initial)
                      (Index.console Index.initial))) in
  let r := Index.searchJavaScriptDevelopers (repo_pages rate_limited)
             Index.initial in
  Index.run_directly (repo_pages rate_limited) Index.initial
  = (Index.Return tt, r.2) /\
  r.1 = Index.Return collected /\
  Index.emailSet r.2 = collected /\
  (status rate_limited = Some 403 ->
   Index.files r.2
   = <[Index.default_filename := JArray (map JString collected)]>
       (Index.files Index.initial) /\
   forall k, length collected = k ->
     exists emails,
       length emails = k /\ emails = collected /\
       Index.files r.2 !! Index.default_filename
       = Some (JArray (map JString emails))) /\
  (status rate_limited <> Some 403 ->
   Index.files r.2 = Index.files Index.initial).
Proof.
  apply (search_403_persists (repo_pages rate_limited) 2 rate_limited
           Index.initial); [lia| |reflexivity].
  intros p Hp. assert (p = 1 \/ p = 2) as [-> | ->] by lia;
    eexists; (split; [reflexivity|done]).
Defined.

(** The run over two pages: four emails collected, all four in the file. *)
Lemma four_emails_survive_403 :
  let st := (Index.run_directly (repo_pages rate_limited) Index.initial).2 in
  Index.emailSet st = [chars "ann@example.com"; chars "bob@example.org";
                       chars "eve@example.net"; chars "dan@example.io"] /\
  Index.files st !! Index.default_filename
  = Some (JArray [JString (chars "ann@example.com");
                  JString (chars "bob@example.org");
                  JString (chars "eve@example.net");
                  JString (chars "dan@example.io")]).
Proof. cbv zeta. split; by vm_compute. Qed.

(** *** The artifact of each entry point *)

Lemma javascript_mode_artifact W st :
  let st' := (Index.searchJavaScriptDevelopers W st).2 in
  Index.files st' = Index.files st \/
  Index.files st' =
    <[Index.default_filename :=
        JArray (map JString (Index.emailSet st'))]> (Index.files st).
Proof.
  cbv zeta.
  set (st0 := Index.State [] (Index.files st) (Index.console st)).
  assert (Hrun : (Index.searchJavaScriptDevelopers W st).2
                 = (Index.searchJavaScriptRepos_from W (100 - 1) 1 st0).2).
  { cbv [Index.searchJavaScriptDevelopers Index.bind Index.emailSet_clear
         Index.get_emailSet Index.ret Index.searchJavaScriptRepos
         JSSet.clear].
    fold st0.
    by destruct (safe_searchJavaScriptRepos_from W (100 - 1) 1 st0)
      as ([] & st1 & ->). }
  rewrite Hrun. apply (search_writes W (100 - 1) 1 st0).
Qed.

Lemma upwork_mode_artifact W UW fuel maxPages ust st us ust' :
  Upwork.findGitHubAccountsFromUpwork UW fuel maxPages ust = Some (us, ust') ->
  exists st',
    Index.findEmailsFromUpworkDevelopers W UW fuel maxPages ust st
    = Some (Index.Return (Index.emailSet st'), st', ust') /\
    Index.files st' =
      <[Index.upwork_filename :=
          JArray (map JString (Index.emailSet st'))]> (Index.files st).
Proof.
  intros Hcrawl. unfold Index.findEmailsFromUpworkDevelopers. simpl.
  rewrite Hcrawl. set (st0 := Index.State _ _ _).
  unfold Index.harvest_usernames, Index.bind at 1.
  destruct (count_successes_all W us 0 st0) as [st1 Hcount].
  pose proof (quiet_count_successes W us 0 st0) as [Hf _].
  rewrite Hcount in Hf |- *. simpl in Hf.
  exists (Index.State
            (Index.emailSet st1)
            (<[Index.upwork_filename :=
                 JArray (map JString (Index.emailSet st1))]> (Index.files st1))
            ((Index.console st1
                ++ [Index.LogProcessed (0 + length us) (length us)])
               ++ [Index.LogSaved (length (Index.emailSet st1))
                                  Index.upwork_filename])).
  split; [done|]. simpl. by rewrite Hf.
Qed.

Lemma scrape_all_files PW urls : forall st,
  Puppeteer.files (Puppeteer.scrape_all PW urls st) = Puppeteer.files st.
Proof.
  induction urls as [|u urls IH]; intros st; simpl; [done|].
  destruct (Puppeteer.scrapeGitHubProfile PW u st) as [emails st1] eqn:Hs.
  rewrite IH. simpl. unfold Puppeteer.scrapeGitHubProfile in Hs.
  destruct (JSSet.has _ _); [by injection Hs as _ <-|].
  destruct (Puppeteer.open_profile PW u); [|by injection Hs as _ <-].
  destruct (Puppeteer.open_repositories PW u); by injection Hs as _ <-.
Qed.

Lemma puppeteer_artifact PW maxPages st :
  let st' := Puppeteer.main PW maxPages st in
  Puppeteer.files st' =
    <[Puppeteer.filename :=
        JArray (map Puppeteer.to_json (Puppeteer.emailData st'))]>
      (Puppeteer.files st) /\
  forallb is_email_record
          (map Puppeteer.to_json (Puppeteer.emailData st')) = true.
Proof.
  cbv zeta. unfold Puppeteer.main. simpl. rewrite scrape_all_files.
  split; [done|]. induction (Puppeteer.emailData _); [done|]. done.
Qed.

(** C7, as amended. Every artifact is a JSON array written under a fixed
    name, replacing what the file held. [saveEmails] writes the store as
    bare strings; repository-search mode writes nothing or, at its end, the
    store to [javascript-developer-emails.json]; the marketplace mode of
    index.js writes the store, again as bare strings, to
    [fullstack-developer-emails.json] whenever its crawl returns; only the Puppeteer scraper writes
    [{email, source}] records, to the same name. *)
Theorem artifact_shapes :
  (forall f st,
      Index.files (Index.saveEmails f st).2 !! f
      = Some (JArray (map JString (Index.emailSet st))))
  /\ (forall W st,
        let st' := (Index.searchJavaScriptDevelopers W st).2 in
        Index.files st' = Index.files st \/
        Index.files st' =
          <[Index.default_filename :=
              JArray (map JString (Index.emailSet st'))]> (Index.files st))
  /\ (forall W UW fuel maxPages ust st usernames ust',
        Upwork.findGitHubAccountsFromUpwork UW fuel maxPages ust
        = Some (usernames, ust') ->
        exists st',
          Index.findEmailsFromUpworkDevelopers W UW fuel maxPages ust st
          = Some (Index.Return (Index.emailSet st'), st', ust') /\
          Index.files st' =
            <[Index.upwork_filename :=
                JArray (map JString (Index.emailSet st'))]> (Index.files st))
  /\ (forall PW maxPages st,
        let st' := Puppeteer.main PW maxPages st in
        Puppeteer.files st' =
          <[Puppeteer.filename :=
              JArray (map Puppeteer.to_json (Puppeteer.emailData st'))]>
            (Puppeteer.files st) /\
        forallb is_email_record
                (map Puppeteer.to_json (Puppeteer.emailData st')) = true)
  /\ (forall emails, forallb is_string (map JString emails) = true)
  /\ Index.default_filename = "javascript-developer-emails.json"%string
  /\ Index.upwork_filename = "fullstack-developer-emails.json"%string
  /\ Puppeteer.filename = "fullstack-developer-emails.json"%string.
Proof.
  split; [|split; [|split; [|split; [|split]]]].
  - intros f st. simpl. apply lookup_insert_eq.
  - apply javascript_mode_artifact.
  - intros W UW fuel maxPages ust st us ust'. apply upwork_mode_artifact.
  - apply puppeteer_artifact.
  - intros emails. by induction emails.
  - done.
Qed.

Lemma artifact_shapes_witness :
  exists st',
    Index.findEmailsFromUpworkDevelopers
      (one_user (chars "dev@example.com")) (then_page (Ok [])) 3 0 fresh
      Index.initial
    = Some (Index.Return (Index.emailSet st'), st',
            Upwork.State 28 [1; 2]) /\
    Index.files st' =
      <[Index.upwork_filename :=
          JArray (map JString (Index.emailSet st'))]> (Index.files Index.initial).
Proof.
  destruct artifact_shapes as (_ & _ & Hup & _).
  apply (Hup _ _ _ _ _ _ [chars "mockuser"; chars "mockuser2"]).
  by vm_compute.
Defined.

(** C7, as stated, fails: the marketplace mode of index.js writes bare
    strings. *)
Lemma upwork_mode_writes_bare_strings :
  option_map (fun x => Index.files x.1.2 !! Index.upwork_filename)
    (Index.findEmailsFromUpworkDevelopers
       (one_user (chars "dev@example.com")) (then_page (Ok [])) 3 0 fresh
       Index.initial)
  = Some (Some (JArray [JString (chars "dev@example.com")]))
  /\ is_email_record (JString (chars "dev@example.com")) = false.
Proof. split; by vm_compute. Qed.

(** *** The no-reply filter *)

(** C1, at the failing input: a placeholder address in a README reaches the
    store and the file. *)
Theorem readme_noreply_is_persisted :
  let st := (Index.run_directly (one_repo noreply_readme rate_limited)
                                Index.initial).2 in
  Index.emailSet st = [chars "12345+dev@users.noreply.github.com"] /\
  Index.files st !! Index.default_filename
  = Some (JArray [JString (chars "12345+dev@users.noreply.github.com")]) /\
  includes (chars "12345+dev@users.noreply.github.com") Index.noreply = true.
Proof. cbv zeta. split; [|split]; by vm_compute. Qed.

(** The paths through events and commits do filter. *)
Lemma add_unless_noreply_filters email st e :
  e ∈ Index.emailSet (Index.add_unless_noreply email st).2 ->
  e ∈ Index.emailSet st \/ includes e Index.noreply = false.
Proof.
  destruct email as [x|]; [|auto]. unfold Index.add_unless_noreply.
  destruct (truthy (Some x) && negb (includes x Index.noreply)) eqn:Hc;
    [|auto].
  apply andb_prop in Hc as [_ Hc%negb_true_iff].
  unfold Index.emailSet_add, JSSet.add; simpl.
  destruct (JSSet.has x (Index.emailSet st)); [auto|].
  intros [?| ->%list_elem_of_singleton]%elem_of_app; auto.
Qed.

(** The README path does not: every match is added. *)
Lemma checkReadmeForEmails_adds_all W owner repo content st :
  Index.get_readme W owner repo = Ok content ->
  Index.emailSet (Index.checkReadmeForEmails W owner repo st).2
  = JSSet.add_all (match_emails content) (Index.emailSet st).
Proof.
  intros Hr. unfold Index.checkReadmeForEmails, Index.try_catch, Index.bind at 1.
  rewrite Hr. simpl. destruct st as [set fs log]. simpl.
  generalize (match_emails content) set.
  induction l as [|x l IH]; intros s; simpl; [done|].
  unfold Index.bind. simpl. specialize (IH (JSSet.add x s)).
  destruct (Index.for_each l Index.emailSet_add _) as [[[]|] ?]; done.
Qed.

(** Nor does the profile path: a public email is added as it is. *)
Lemma profile_noreply_is_added :
  let st := (Index.processGitHubUser
               (one_user (chars "7+dev@users.noreply.github.com"))
               (chars "mockuser2") Index.initial).2 in
  Index.emailSet st = [chars "7+dev@users.noreply.github.com"].
Proof. by vm_compute. Qed.

(** *** The text scan of a profile *)

Lemma text_scan_step fuel text acc st :
  Upwork.text_scan (S fuel) text acc st =
  match exec true githubUrlRegex text (Upwork.lastIndex st) with
  | (Some m, li) =>
      match Upwork.extractGitHubUsername (Some (whole m))
              (Upwork.State li (Upwork.requested st)) with
      | Some (username, st') =>
          Upwork.text_scan fuel text (Upwork.add_username username acc) st'
      | None => None
      end
  | (None, li) => Some (acc, Upwork.State li (Upwork.requested st))
  end.
Proof.
  cbn [Upwork.text_scan]. unfold Upwork.ubind at 1, Upwork.regex_exec.
  destruct (exec true githubUrlRegex text (Upwork.lastIndex st))
    as [[m|] li]; [|done].
  unfold Upwork.ubind. by destruct (Upwork.extractGitHubUsername _ _).
Qed.

(** Why a scan can go on for ever: the call inside the loop leaves
    [lastIndex] at the length of the match it was given; when a search from
    there finds that match again, every round is the same. *)
Lemma text_scan_diverges text m k username :
  exec true githubUrlRegex text (length (whole m)) = (Some m, k) ->
  fresh_exec (whole m) = (username, length (whole m)) ->
  whole m <> [] ->
  forall fuel acc req,
    Upwork.text_scan fuel text acc (Upwork.State (length (whole m)) req)
    = None.
Proof.
  intros Hexec Hfresh Hne. induction fuel as [|fuel IH]; intros acc req;
    [done|].
  rewrite text_scan_step. simpl Upwork.lastIndex. rewrite Hexec.
  destruct (whole m) as [|c u] eqn:Hw; [done|].
  rewrite extract_unfold, Hfresh. apply IH.
Qed.

(** The URL of the mock profile starts at position 93, beyond the length 27
    of the URL itself. *)
Lemma mock_exec li :
  li = 0 \/ li = 27 ->
  exec true githubUrlRegex mock_text li
  = (Some (Match 93 mock_url [Some (chars "mockuser")]), 120).
Proof. intros [-> | ->]; by vm_compute. Qed.

Lemma mock_extract li req :
  Upwork.extractGitHubUsername (Some mock_url) (Upwork.State li req)
  = Some (Some (chars "mockuser"), Upwork.State 27 req).
Proof. by vm_compute. Qed.

Lemma mock_text_scan_diverges fuel acc req :
  Upwork.text_scan fuel mock_text acc (Upwork.State 0 req) = None.
Proof.
  destruct fuel as [|fuel]; [done|].
  rewrite text_scan_step. simpl Upwork.lastIndex.
  rewrite (mock_exec 0) by (by left).
  simpl whole. simpl Upwork.requested. rewrite mock_extract.
  apply (text_scan_diverges mock_text
           (Match 93 mock_url [Some (chars "mockuser")]) 120
           (Some (chars "mockuser"))); [|done|done].
  apply (mock_exec 27). by right.
Qed.

(** C2, at the failing input: on the mock profile the text scan finds the
    same URL in every round and never ends. *)
Theorem mock_profile_scrape_diverges :
  forall fuel profileUrl,
    Upwork.scrapeUpworkProfile (single_profile mock_profile) fuel profileUrl
                               fresh
    = None.
Proof.
  intros fuel profileUrl. unfold Upwork.scrapeUpworkProfile.
  change (Upwork.get_profile (single_profile mock_profile) profileUrl)
    with (Ok mock_profile).
  cbv beta iota. fold mock_text. unfold Upwork.ubind at 1, fresh.
  by rewrite mock_text_scan_diverges.
Qed.

(** Where the sentence opens the text, the URL starts before position 27
    and the scan ends with both accounts. *)
Lemma short_profile_scrape fuel profileUrl :
  Upwork.scrapeUpworkProfile (single_profile short_profile) (S (S fuel))
                             profileUrl fresh
  = Some ([chars "mockuser"; chars "mockuser2"], Upwork.State 28 []).
Proof. by vm_compute. Qed.

(** *** The pages of a crawl *)

Section CrawlFacts.
Variable W : Upwork.World.

Lemma crawl_ceiling fuel maxPages page acc st :
  0 < maxPages -> maxPages < page ->
  Upwork.crawl W (S fuel) maxPages page acc st = Some (acc, st).
Proof.
  intros H0%Nat.ltb_lt Hp%Nat.ltb_lt. simpl. by rewrite H0, Hp.
Qed.

(** A page that cannot be fetched, and a page without profile links, give
    no usernames. *)
Lemma search_without_links fuel page st :
  Upwork.cookies_file W = true ->
  (exists e, Upwork.get_search W page = Fail e) \/
  Upwork.get_search W page = Ok [] ->
  Upwork.searchUpworkProfiles W fuel page st
  = Some ([], Upwork.State (Upwork.lastIndex st)
                           (Upwork.requested st ++ [page])).
Proof.
  intros Hc Hs. unfold Upwork.searchUpworkProfiles. rewrite Hc.
  unfold Upwork.ubind, Upwork.request.
  by destruct Hs as [[e ->]| ->].
Qed.

(** A page without usernames ends the crawl, whatever the reason. *)
Lemma crawl_stops fuel maxPages page acc st st' :
  (0 <? maxPages) && (maxPages <? page) = false ->
  Upwork.searchUpworkProfiles W (S fuel) page st = Some ([], st') ->
  Upwork.crawl W (S fuel) maxPages page acc st = Some (acc, st').
Proof.
  intros Hc Hs. cbn [Upwork.crawl]. rewrite Hc. unfold Upwork.ubind.
  by rewrite Hs.
Qed.
End CrawlFacts.

(** C5, at the failing input: page 1 lists a freelancer whose profile names
    no account, so the crawl ends there although the page has a profile link
    and no ceiling is set; page 2, whose profile names two accounts, is
    never requested. *)
Theorem crawl_stops_on_page_without_usernames :
  forall fuel,
    Upwork.get_search two_pages 1 = Ok [Some (chars "/freelancers/~01")] /\
    Upwork.findGitHubAccountsFromUpwork two_pages (S fuel) 0 fresh
    = Some ([], Upwork.State 0 [1]) /\
    fst <$> Upwork.searchUpworkProfiles two_pages (S (S fuel)) 2 fresh
    = Some [chars "mockuser"; chars "mockuser2"].
Proof. intros fuel. split; [|split]; by vm_compute. Qed.

(** Where page 1 gives usernames and page 2 has no profile links, or cannot
    be fetched, the crawl ends after page 2 with the usernames of page 1. *)
Lemma crawl_ends_after_page_2 fuel second :
  second = Ok [] \/ second = Fail not_found ->
  Upwork.findGitHubAccountsFromUpwork (then_page second) (S (S fuel)) 0 fresh
  = Some ([chars "mockuser"; chars "mockuser2"], Upwork.State 28 [1; 2]).
Proof. intros [-> | ->]; by vm_compute. Qed.

(** * Further properties *)

Import Invariants MoreScenarios Urls UpworkScenarios Links Provenance.
Unset Default Proof Using.

(** *** What the harvest does to the store *)

Section Steps.
Import Index.
Local Open Scope index_scope.
Variable R : list (list ascii) -> list (list ascii) -> Prop.
Hypothesis R_refl : forall s, R s s.
Hypothesis R_trans : forall s1 s2 s3, R s1 s2 -> R s2 s3 -> R s1 s3.

Lemma steps_ret {A} (a : A) : steps R (ret a).
Proof. intros st. apply R_refl. Qed.
Lemma steps_throw {A} e : steps R (throw (A:=A) e).
Proof. intros st. apply R_refl. Qed.
Lemma steps_await {A} (r : response A) : steps R (await r).
Proof. destruct r; intros st; apply R_refl. Qed.
Lemma steps_get_emailSet : steps R get_emailSet.
Proof. intros st. apply R_refl. Qed.
Lemma steps_writeFileSync f v : steps R (writeFileSync f v).
Proof. intros st. apply R_refl. Qed.
Lemma steps_console_log l : steps R (console_log l).
Proof. intros st. apply R_refl. Qed.

Lemma steps_bind {A B} (c : M A) (k : A -> M B) :
  steps R c -> (forall a, steps R (k a)) -> steps R (bind c k).
Proof.
  intros Hc Hk st. unfold bind. specialize (Hc st).
  destruct (c st) as [[a|e] st1]; simpl in *; [|done].
  eapply R_trans; [done|apply Hk].
Qed.

Lemma steps_try {A} (body : M A) (handler : error -> M A) :
  steps R body -> (forall e, steps R (handler e)) ->
  steps R (try_catch body handler).
Proof.
  intros Hb Hh st. unfold try_catch. specialize (Hb st).
  destruct (body st) as [[a|e] st1]; simpl in *; [done|].
  eapply R_trans; [done|apply Hh].
Qed.

Lemma steps_for_each {A} (xs : list A) (body : A -> M unit) :
  (forall x, steps R (body x)) -> steps R (for_each xs body).
Proof.
  intros Hb. induction xs as [|x xs IH]; simpl.
  - apply steps_ret.
  - apply steps_bind; auto.
Qed.

Lemma steps_if {A} (b : bool) (c1 c2 : M A) :
  steps R c1 -> steps R c2 -> steps R (if b then c1 else c2).
Proof. by destruct b. Qed.

Lemma steps_saveEmails f : steps R (saveEmails f).
Proof.
  unfold saveEmails.
  repeat (apply steps_bind; [|intros ?]);
    auto using steps_get_emailSet, steps_writeFileSync, steps_console_log,
      steps_ret.
Qed.

(** The two places where the harvest adds: any truthy value, and a value
    that passed the no-reply test. *)
Hypothesis R_add : forall e s, e <> [] -> R s (JSSet.add e s).

Lemma steps_add_truthy (v : option (list ascii)) :
  steps R (match v with
           | Some e => if truthy v then emailSet_add e else ret tt
           | None => ret tt
           end).
Proof.
  destruct v as [[|c e]|]; try apply steps_ret. intros st. by apply R_add.
Qed.

Variable W : World.
Hypothesis R_readme : forall e s,
  email_shape e -> R s (JSSet.add e s).
Hypothesis R_filtered : forall e s,
  e <> [] -> includes e noreply = false -> R s (JSSet.add e s).

Lemma steps_add_unless_noreply v : steps R (add_unless_noreply v).
Proof.
  destruct v as [e|]; [|apply steps_ret]. unfold add_unless_noreply.
  destruct (truthy (Some e) && negb (includes e noreply)) eqn:Hc;
    [|apply steps_ret].
  apply andb_prop in Hc as [Ht Hn%negb_true_iff]. intros st.
  apply R_filtered; [by destruct e|done].
Qed.

Lemma steps_checkReadmeForEmails o r : steps R (checkReadmeForEmails W o r).
Proof.
  unfold checkReadmeForEmails. apply steps_try; [|intros; apply steps_ret].
  apply steps_bind; [apply steps_await|]. intros content.
  pose proof (scanned_all _ _ _ _ (match_emails_scanned content)) as Hall.
  induction Hall as [|e es He _ IH]; simpl; [apply steps_ret|].
  apply steps_bind; [|done]. intros st. by apply R_readme.
Qed.

Lemma steps_getUserEvents u : steps R (getUserEvents W u).
Proof.
  unfold getUserEvents. apply steps_try; [|intros; apply steps_ret].
  apply steps_bind; [apply steps_await|]. intros events.
  apply steps_for_each. intros ev. apply steps_if;
    [apply steps_add_unless_noreply|apply steps_ret].
Qed.

Lemma steps_getContributorEmails u : steps R (getContributorEmails W u).
Proof.
  unfold getContributorEmails. apply steps_try; [|intros; apply steps_ret].
  apply steps_bind; [apply steps_await|]. intros v.
  apply steps_bind; [apply steps_add_truthy|]. intros _.
  apply steps_getUserEvents.
Qed.

Lemma steps_getContributors o r : steps R (getContributors W o r).
Proof.
  unfold getContributors. apply steps_try; [|intros; apply steps_ret].
  apply steps_bind; [apply steps_await|]. intros l.
  apply steps_for_each. intros; apply steps_getContributorEmails.
Qed.

Lemma steps_checkCommits o r : steps R (checkCommits W o r).
Proof.
  unfold checkCommits. apply steps_try; [|intros; apply steps_ret].
  apply steps_bind; [apply steps_await|]. intros l.
  apply steps_for_each. intros sha.
  apply steps_bind; [apply steps_await|]. intros cd.
  apply steps_bind; intros; apply steps_add_unless_noreply.
Qed.

Lemma steps_processRepository o r : steps R (processRepository W o r).
Proof.
  unfold processRepository. apply steps_try; [|intros; apply steps_ret].
  apply steps_bind; [apply steps_checkReadmeForEmails|]. intros _.
  apply steps_bind; [apply steps_getContributors|]. intros _.
  apply steps_checkCommits.
Qed.

Lemma steps_getUserRepositories u : steps R (getUserRepositories W u).
Proof.
  unfold getUserRepositories. apply steps_try; [|intros; apply steps_ret].
  apply steps_bind; [apply steps_await|]. intros l.
  apply steps_for_each. intros; apply steps_processRepository.
Qed.

Lemma steps_processGitHubUser u : steps R (processGitHubUser W u).
Proof.
  unfold processGitHubUser. apply steps_try; [|intros; apply steps_ret].
  apply steps_bind; [apply steps_getContributorEmails|]. intros _.
  apply steps_bind; [apply steps_getUserRepositories|]. intros _.
  apply steps_ret.
Qed.

Lemma steps_searchJavaScriptRepos_from budget :
  forall page, steps R (searchJavaScriptRepos_from W budget page).
Proof.
  induction budget as [|budget IH]; intros page; simpl.
  all: apply steps_try;
    [|intros e; apply steps_if;
      [apply steps_bind; [apply steps_saveEmails|intros; apply steps_ret]
      |apply steps_ret]].
  all: apply steps_bind; [apply steps_await|]; intros items.
  all: apply steps_bind;
    [apply steps_for_each; intros; apply steps_processRepository|].
  all: intros _; apply steps_if;
    [|apply steps_bind; [apply steps_saveEmails|intros; apply steps_ret]].
  - apply steps_ret.
  - apply IH.
Qed.

Lemma steps_count_successes us :
  forall n, steps R (count_successes W us n).
Proof.
  induction us as [|u us IH]; intros n; simpl; [apply steps_ret|].
  apply steps_bind; [apply steps_processGitHubUser|]. intros b. apply IH.
Qed.

Lemma steps_harvest_usernames us : steps R (harvest_usernames W us).
Proof.
  unfold harvest_usernames.
  apply steps_bind; [apply steps_count_successes|]. intros n.
  apply steps_bind; [apply steps_console_log|]. intros _.
  apply steps_saveEmails.
Qed.
End Steps.

(** *** The substring test of the filter *)

Lemma starts_with_iff p s :
  starts_with p s = true <-> exists post, s = p ++ post.
Proof.
  revert s; induction p as [|a p IH]; intros s; simpl.
  - split; [by exists s|done].
  - destruct s as [|b s]; [split; [done|by intros [? ?]]|].
    rewrite andb_true_iff, IH. split.
    + intros [->%Ascii.eqb_eq [post ->]]. by exists post.
    + intros [post [= -> ->]]. split; [apply Ascii.eqb_refl|by exists post].
Qed.

Lemma includes_iff s p :
  includes s p = true <-> exists pre post, s = pre ++ p ++ post.
Proof.
  induction s as [|c s IH]; simpl; rewrite orb_true_iff, starts_with_iff.
  - split.
    + intros [[post H]|H]; [by exists [], post|done].
    + intros (pre & post & H). left. destruct pre; [by exists post|done].
  - rewrite IH. split.
    + intros [[post ->]|(pre & post & ->)]; [by exists [], post|].
      by exists (c :: pre), post.
    + intros (pre & post & H). destruct pre as [|x pre]; simpl in H.
      * left. by exists post.
      * right. injection H as -> ->. by exists pre, post.
Qed.


Lemma grows_refl s : grows s s.
Proof. by intros e. Qed.
Lemma grows_trans s1 s2 s3 : grows s1 s2 -> grows s2 s3 -> grows s1 s3.
Proof. intros H1 H2 e He. auto. Qed.
Lemma grows_add e s : grows s (JSSet.add e s).
Proof.
  intros x Hx. unfold JSSet.add. destruct (JSSet.has e s); [done|].
  apply elem_of_app. by left.
Qed.

Lemma stays_distinct_refl s : stays_distinct s s.
Proof. by intros H. Qed.
Lemma stays_distinct_trans s1 s2 s3 :
  stays_distinct s1 s2 -> stays_distinct s2 s3 -> stays_distinct s1 s3.
Proof. intros H1 H2 H. auto. Qed.
Lemma stays_distinct_add e s : stays_distinct s (JSSet.add e s).
Proof. intros H. by apply add_NoDup. Qed.

Lemma adds_only_refl P s : adds_only P s s.
Proof. intros e He. by left. Qed.
Lemma adds_only_trans P s1 s2 s3 :
  adds_only P s1 s2 -> adds_only P s2 s3 -> adds_only P s1 s3.
Proof.
  intros H1 H2 e He. destruct (H2 e He) as [H|H]; [auto|by right].
Qed.
Lemma adds_only_add (P : list ascii -> Prop) e s :
  P e -> adds_only P s (JSSet.add e s).
Proof.
  intros HP x Hx. unfold JSSet.add in Hx. destruct (JSSet.has e s); [by left|].
  apply elem_of_app in Hx as [Hx| ->%list_elem_of_singleton]; auto.
Qed.

Lemma email_shape_nonempty e : email_shape e -> e <> [].
Proof. intros H%email_shape_length ->. simpl in H. lia. Qed.

Lemma filtered_paths W :
  (forall username st e,
      e ∈ Index.emailSet (Index.getUserEvents W username st).2 ->
      e ∈ Index.emailSet st \/ includes e Index.noreply = false)
  /\ (forall owner repo st e,
        e ∈ Index.emailSet (Index.checkCommits W owner repo st).2 ->
        e ∈ Index.emailSet st \/ includes e Index.noreply = false).
Proof.
  set (P := fun e : list ascii => includes e Index.noreply = false).
  split.
  - intros u st. apply (steps_getUserEvents (adds_only P));
      [apply adds_only_refl|apply adds_only_trans|].
    intros e s _ He. by apply adds_only_add.
  - intros o r st. apply (steps_checkCommits (adds_only P));
      [apply adds_only_refl|apply adds_only_trans|].
    intros e s _ He. by apply adds_only_add.
Qed.

(** X1. The event and commit paths never add a placeholder address: what
    they leave in the store was there before, or is a string in which
    [noreply.github.com] does not occur. *)
Theorem events_and_commits_filter_noreply W :
  (forall username st e,
      e ∈ Index.emailSet (Index.getUserEvents W username st).2 ->
      e ∈ Index.emailSet st \/
      ~ (exists pre post, e = pre ++ Index.noreply ++ post))
  /\ (forall owner repo st e,
        e ∈ Index.emailSet (Index.checkCommits W owner repo st).2 ->
        e ∈ Index.emailSet st \/
        ~ (exists pre post, e = pre ++ Index.noreply ++ post)).
Proof.
  destruct (filtered_paths W) as [Hevents Hcommits].
  assert (Hsub : forall e,
             includes e Index.noreply = false ->
             ~ (exists pre post, e = pre ++ Index.noreply ++ post)).
  { intros e He Hsub. apply includes_iff in Hsub. congruence. }
  split.
  - intros u st e Hin. destruct (Hevents u st e Hin); auto.
  - intros o r st e Hin. destruct (Hcommits o r st e Hin); auto.
Qed.

(** X2. Harvesting never removes an email from the store. *)
Theorem harvest_never_removes W :
  (forall owner repo st e,
      e ∈ Index.emailSet st ->
      e ∈ Index.emailSet (Index.processRepository W owner repo st).2)
  /\ (forall username st e,
        e ∈ Index.emailSet st ->
        e ∈ Index.emailSet (Index.processGitHubUser W username st).2)
  /\ (forall page st e,
        e ∈ Index.emailSet st ->
        e ∈ Index.emailSet (Index.searchJavaScriptRepos W page st).2).
Proof.
  split; [|split].
  - intros o r st. apply (steps_processRepository grows);
      [apply grows_refl|apply grows_trans|intros; apply grows_add ..].
  - intros u st. apply (steps_processGitHubUser grows);
      [apply grows_refl|apply grows_trans|intros; apply grows_add ..].
  - intros page st. apply (steps_searchJavaScriptRepos_from grows);
      [apply grows_refl|apply grows_trans|intros; apply grows_add ..].
Qed.

Lemma harvest_never_removes_witness :
  chars "old@example.com"
  ∈ Index.emailSet
      (Index.processRepository (one_repo three_emails rate_limited)
         (chars "acme") (chars "app")
         (Index.State [chars "old@example.com"] ∅ [])).2.
Proof.
  destruct (harvest_never_removes (one_repo three_emails rate_limited))
    as [Hrepo _].
  apply Hrepo. simpl. apply list_elem_of_here.
Defined.

(** X3. What a run leaves in the store, and returns, is duplicate-free and
    holds no empty string. *)
Theorem run_output_is_clean W :
  (forall st,
      let r := Index.searchJavaScriptDevelopers W st in
      r.1 = Index.Return (Index.emailSet r.2) /\
      NoDup (Index.emailSet r.2) /\
      forall e, e ∈ Index.emailSet r.2 -> e <> [])
  /\ (forall usernames st,
        let r := Index.harvest_usernames W usernames st in
        r.1 = Index.Return (Index.emailSet r.2) /\
        (NoDup (Index.emailSet st) -> NoDup (Index.emailSet r.2)) /\
        forall e, e ∈ Index.emailSet r.2 ->
                  e ∈ Index.emailSet st \/ e <> []).
Proof.
  set (P := fun e : list ascii => e <> []).
  assert (HP : forall c : Index.M unit,
             steps (adds_only P) c -> steps stays_distinct c ->
             forall st, Index.emailSet st = [] ->
               NoDup (Index.emailSet (c st).2) /\
               forall e, e ∈ Index.emailSet (c st).2 -> e <> []).
  { intros c H1 H2 st Hst. split.
    - apply H2. rewrite Hst. apply NoDup_nil_2.
    - intros e He. destruct (H1 st e He) as [Hin|Hne]; [|done].
      rewrite Hst in Hin. by apply elem_of_nil in Hin. }
  split.
  - intros st. cbv zeta.
    set (st0 := Index.State [] (Index.files st) (Index.console st)).
    assert (Hrun : Index.searchJavaScriptDevelopers W st
                   = (Index.Return
                        (Index.emailSet
                           (Index.searchJavaScriptRepos_from W (100 - 1) 1
                              st0).2),
                      (Index.searchJavaScriptRepos_from W (100 - 1) 1 st0).2)).
    { cbv [Index.searchJavaScriptDevelopers Index.bind Index.emailSet_clear
           Index.get_emailSet Index.ret Index.searchJavaScriptRepos
           JSSet.clear JSSet.from].
      fold st0.
      by destruct (safe_searchJavaScriptRepos_from W (100 - 1) 1 st0)
        as ([] & st1 & ->). }
    rewrite Hrun. simpl. split; [done|].
    apply (HP (Index.searchJavaScriptRepos_from W (100 - 1) 1)); [| |done].
    + apply steps_searchJavaScriptRepos_from;
        [apply adds_only_refl|apply adds_only_trans| | |].
      * intros e s He. by apply adds_only_add.
      * intros e s He. by apply adds_only_add, email_shape_nonempty.
      * intros e s He _. by apply adds_only_add.
    + apply steps_searchJavaScriptRepos_from;
        [apply stays_distinct_refl|apply stays_distinct_trans
        |intros; apply stays_distinct_add ..].
  - intros us st. cbv zeta. split; [|split].
    + destruct (count_successes_all W us 0 st) as [st1 Hcount].
      assert (Hrun : exists st2, Index.harvest_usernames W us st
                                 = (Index.Return (Index.emailSet st2), st2)).
      { unfold Index.harvest_usernames, Index.bind at 1. rewrite Hcount.
        by exists (Index.State
                  (Index.emailSet st1)
                  (<[Index.upwork_filename :=
                       JArray (map JString (Index.emailSet st1))]>
                     (Index.files st1))
                  ((Index.console st1
                      ++ [Index.LogProcessed (0 + length us) (length us)])
                     ++ [Index.LogSaved (length (Index.emailSet st1))
                                        Index.upwork_filename])). }
      destruct Hrun as [st2 ->]. done.
    + apply (steps_harvest_usernames stays_distinct);
        [apply stays_distinct_refl|apply stays_distinct_trans
        |intros; apply stays_distinct_add ..].
    + apply (steps_harvest_usernames (adds_only P));
        [apply adds_only_refl|apply adds_only_trans| | |].
      * intros e s He. by apply adds_only_add.
      * intros e s He. by apply adds_only_add, email_shape_nonempty.
      * intros e s He _. by apply adds_only_add.
Qed.

(** *** Where the harvest stops and where it goes on *)

Lemma for_each_app {A} (l1 l2 : list A) (body : A -> Index.M unit) st :
  Index.for_each (l1 ++ l2) body st =
  Index.bind (Index.for_each l1 body) (fun _ => Index.for_each l2 body) st.
Proof.
  revert st. induction l1 as [|x l1 IH]; intros st; simpl; [done|].
  unfold Index.bind in *.
  destruct (body x st) as [[[]|e] st1]; [|done]. apply IH.
Qed.

(** X4. A commit whose detail cannot be fetched ends the inspection: the
    commits before it count, the commits after it are never looked at. *)
Theorem checkCommits_stops_at_failed_commit W owner repo st before sha
    after e st1 :
  Index.list_commits W owner repo = Ok (before ++ sha :: after) ->
  Index.for_each before (inspect_commit W owner repo) st
  = (Index.Return tt, st1) ->
  Index.get_commit W owner repo sha = Fail e ->
  Index.checkCommits W owner repo st = (Index.Return tt, st1).
Proof.
  intros Hlist Hbefore Hfail.
  unfold Index.checkCommits, Index.try_catch, Index.bind at 1.
  rewrite Hlist. simpl Index.await. unfold Index.ret at 1.
  change (fun sha0 : list ascii => _) with (inspect_commit W owner repo).
  rewrite for_each_app. unfold Index.bind at 1. rewrite Hbefore.
  simpl Index.for_each. unfold Index.bind at 1, inspect_commit at 1.
  unfold Index.bind at 1. by rewrite Hfail.
Qed.

Lemma checkCommits_stops_at_failed_commit_witness :
  Index.checkCommits three_commits (chars "acme") (chars "app") Index.initial
  = (Index.Return tt, Index.State [chars "ann@example.com"] ∅ []).
Proof.
  apply (checkCommits_stops_at_failed_commit three_commits _ _ _
           [chars "c1"] (chars "c2") [chars "c3"] not_found);
    by vm_compute.
Defined.

(** X5. The three lookups of a repository always all run, each on what the
    one before left: the catch around them is never entered. *)
Theorem processRepository_runs_all_three W owner repo st :
  Index.processRepository W owner repo st =
  (Index.Return tt,
   (Index.checkCommits W owner repo
      (Index.getContributors W owner repo
         (Index.checkReadmeForEmails W owner repo st).2).2).2).
Proof.
  assert (Hsafe : forall c : Index.M unit,
             safe c -> forall s, c s = (Index.Return tt, (c s).2)).
  { intros c Hc s. destruct (Hc s) as ([] & s' & ->). done. }
  unfold Index.processRepository, Index.try_catch, Index.bind.
  rewrite (Hsafe (Index.checkReadmeForEmails W owner repo)).
  2:{ apply safe_try. intros; apply safe_ret. }
  rewrite (Hsafe (Index.getContributors W owner repo)).
  2:{ apply safe_try. intros; apply safe_ret. }
  rewrite (Hsafe (Index.checkCommits W owner repo)).
  2:{ apply safe_try. intros; apply safe_ret. }
  done.
Qed.

(** *** The pages of a repository search *)

Lemma for_each_repos_with_search W f items st :
  Index.for_each items
    (fun r => Index.processRepository (with_search W f)
                (Index.owner_login r) (Index.name r)) st
  = Index.for_each items
      (fun r => Index.processRepository W (Index.owner_login r)
                  (Index.name r)) st.
Proof. reflexivity. Qed.

Lemma search_pages_only W f budget : forall page st,
  (forall p, page <= p <= 100 -> f p = Index.search_repos W p) ->
  page <= 100 ->
  Index.searchJavaScriptRepos_from (with_search W f) budget page st
  = Index.searchJavaScriptRepos_from W budget page st.
Proof.
  induction budget as [|budget IH]; intros page st Hf Hpage.
  all: destruct (Index.search_repos W page) as [items|e] eqn:Hsearch.
  all: assert (Hsearch' : Index.search_repos (with_search W f) page
                          = Index.search_repos W page)
         by (simpl; apply Hf; lia).
  all: rewrite Hsearch in Hsearch'.
  2,4: by rewrite (search_failure _ _ _ _ _ Hsearch),
            (search_failure _ _ _ _ _ Hsearch').
  all: destruct (repos_run W items st) as (st1 & Hrun & _).
  all: rewrite (search_success _ _ _ _ _ _ Hsearch Hrun).
  all: rewrite <- for_each_repos_with_search with (f := f) in Hrun.
  all: rewrite (search_success _ _ _ _ _ _ Hsearch' Hrun); simpl.
  - done.
  - destruct ((0 <? length items) && (page <? 100)) eqn:Hc; [|done].
    apply andb_prop in Hc as [_ Hlt%Nat.ltb_lt].
    apply IH; [|lia]. intros p Hp. apply Hf. lia.
Qed.

Lemma search_budget_enough W budget : forall budget' page st,
  100 - page <= budget -> 100 - page <= budget' ->
  Index.searchJavaScriptRepos_from W budget page st
  = Index.searchJavaScriptRepos_from W budget' page st.
Proof.
  induction budget as [|budget IH]; intros budget' page st Hb Hb'.
  all: destruct (Index.search_repos W page) as [items|e] eqn:Hsearch.
  2,4: by rewrite !(search_failure _ _ _ _ _ Hsearch).
  all: destruct (repos_run W items st) as (st1 & Hrun & _).
  all: rewrite !(search_success _ _ _ _ _ _ Hsearch Hrun).
  all: destruct ((0 <? length items) && (page <? 100)) eqn:Hc; [|done].
  all: apply andb_prop in Hc as [_ Hlt%Nat.ltb_lt].
  - lia.
  - destruct budget' as [|budget']; [lia|]. apply IH; lia.
Qed.

(** X6. A repository search never asks for a page beyond 100: what the
    search would answer there changes nothing, and neither does a larger
    budget of calls. *)
Theorem search_stays_within_100_pages W :
  (forall f page st,
      (forall p, page <= p <= 100 -> f p = Index.search_repos W p) ->
      page <= 100 ->
      Index.searchJavaScriptRepos (with_search W f) page st
      = Index.searchJavaScriptRepos W page st)
  /\ (forall budget page st,
        100 - page <= budget ->
        Index.searchJavaScriptRepos_from W budget page st
        = Index.searchJavaScriptRepos W page st).
Proof.
  split.
  - intros f page st Hf Hpage. by apply search_pages_only.
  - intros budget page st Hb. by apply search_budget_enough.
Qed.

Lemma search_stays_within_100_pages_witness :
  Index.searchJavaScriptRepos
    (with_search (one_repo three_emails rate_limited)
       (fun p => if p <=? 100
                 then Index.search_repos (one_repo three_emails rate_limited) p
                 else Ok [acme]))
    1 Index.initial
  = Index.searchJavaScriptRepos (one_repo three_emails rate_limited) 1
                                Index.initial.
Proof.
  destruct (search_stays_within_100_pages
              (one_repo three_emails rate_limited)) as [Hpages _].
  apply Hpages; [|lia]. intros p [_ Hp%Nat.leb_le]. by rewrite Hp.
Defined.

Lemma search_all_ok_writes W budget : forall page st,
  (forall p, page <= p <= 100 ->
             exists items, Index.search_repos W p = Ok items) ->
  page <= 100 -> 100 - page <= budget ->
  let st' := (Index.searchJavaScriptRepos_from W budget page st).2 in
  Index.files st' =
    <[Index.default_filename :=
        JArray (map JString (Index.emailSet st'))]> (Index.files st).
Proof.
  induction budget as [|budget IH]; intros page st Hok Hpage Hb; cbv zeta.
  all: destruct (Hok page) as [items Hsearch]; [lia|].
  all: destruct (repos_run W items st) as (st1 & Hrun & Hfiles).
  all: rewrite (search_success _ _ _ _ _ _ Hsearch Hrun).
  all: destruct ((0 <? length items) && (page <? 100)) eqn:Hc;
    [|by simpl; rewrite Hfiles].
  all: apply andb_prop in Hc as [_ Hlt%Nat.ltb_lt].
  - lia.
  - rewrite <- Hfiles. apply IH; [|lia|lia]. intros p Hp. apply Hok. lia.
Qed.

(** X7. When no search fails, a repository-search run ends by writing the
    store to the output file. *)
Theorem search_without_failure_persists W st :
  (forall p, 1 <= p <= 100 ->
             exists items, Index.search_repos W p = Ok items) ->
  let st' := (Index.searchJavaScriptDevelopers W st).2 in
  Index.files st' =
    <[Index.default_filename :=
        JArray (map JString (Index.emailSet st'))]> (Index.files st).
Proof.
  intros Hok. cbv zeta.
  set (st0 := Index.State [] (Index.files st) (Index.console st)).
  assert (Hrun : (Index.searchJavaScriptDevelopers W st).2
                 = (Index.searchJavaScriptRepos_from W (100 - 1) 1 st0).2).
  { cbv [Index.searchJavaScriptDevelopers Index.bind Index.emailSet_clear
         Index.get_emailSet Index.ret Index.searchJavaScriptRepos
         JSSet.clear].
    fold st0.
    by destruct (safe_searchJavaScriptRepos_from W (100 - 1) 1 st0)
      as ([] & st1 & ->). }
  rewrite Hrun.
  apply (search_all_ok_writes W (100 - 1) 1 st0); [done|lia|lia].
Qed.

Lemma search_without_failure_persists_witness :
  let st' := (Index.searchJavaScriptDevelopers empty_search
                (Index.State [chars "old@example.com"] ∅ [])).2 in
  Index.files st' =
    <[Index.default_filename :=
        JArray (map JString (Index.emailSet st'))]> ∅.
Proof.
  apply (search_without_failure_persists empty_search
           (Index.State [chars "old@example.com"] ∅ [])).
  intros p _. by exists [].
Defined.

(** *** The test of the event and commit paths *)

Lemma add_iff (e x : list ascii) s : x ∈ JSSet.add e s <-> x ∈ s \/ x = e.
Proof.
  unfold JSSet.add, JSSet.has. case_bool_decide as He.
  - split; [by left|]. by intros [H| ->].
  - rewrite elem_of_app, list_elem_of_singleton. done.
Qed.

Lemma add_unless_noreply_iff v st :
  (Index.add_unless_noreply v st).1 = Index.Return tt /\
  forall x, x ∈ Index.emailSet (Index.add_unless_noreply v st).2 <->
            x ∈ Index.emailSet st \/ passes v x.
Proof.
  unfold Index.add_unless_noreply, passes.
  destruct v as [e|]; [|split; [done|]; intros x; split; [by left|]].
  2:{ by intros [H|[H _]]. }
  destruct (includes e Index.noreply) eqn:Hinc.
  - rewrite andb_false_r. split; [done|]. intros x. split; [by left|].
    intros [H|([= <-] & _ & Hno)]; [done|].
    destruct Hno. by apply includes_iff.
  - rewrite andb_true_r.
    assert (Hno : ~ (exists pre post, e = pre ++ Index.noreply ++ post)).
    { intros H%includes_iff. congruence. }
    destruct e as [|a e]; simpl.
    + split; [done|]. intros x. split; [by left|].
      by intros [H|([= <-] & Hne & _)].
    + split; [done|]. intros x. rewrite add_iff. split.
      * intros [H| ->]; [by left|right]. done.
      * intros [H|([= <-] & _)]; [by left|by right].
Qed.

Lemma inspect_commit_ok W owner repo sha d s :
  Index.get_commit W owner repo sha = Ok d ->
  inspect_commit W owner repo sha s
  = Index.add_unless_noreply (Index.committer_email d)
      (Index.add_unless_noreply (Index.author_email d) s).2.
Proof.
  intros Hd. unfold inspect_commit, Index.bind. rewrite Hd. simpl.
  destruct (add_unless_noreply_iff (Index.author_email d) s) as [Hr _].
  by destruct (Index.add_unless_noreply (Index.author_email d) s)
    as [[[]|err] s1].
Qed.

Lemma for_each_iff {A} (Q : A -> list ascii -> Prop) (body : A -> Index.M unit)
    (xs : list A) :
  (forall a, a ∈ xs -> forall st,
     (body a st).1 = Index.Return tt /\
     forall x, x ∈ Index.emailSet (body a st).2 <->
               x ∈ Index.emailSet st \/ Q a x) ->
  forall st,
    (Index.for_each xs body st).1 = Index.Return tt /\
    forall x, x ∈ Index.emailSet (Index.for_each xs body st).2 <->
              x ∈ Index.emailSet st \/ exists a, a ∈ xs /\ Q a x.
Proof.
  induction xs as [|a xs IH]; intros Hbody st; simpl.
  - split; [done|]. intros x. split; [by left|].
    intros [H|(a & Ha & _)]; [done|]. by apply elem_of_nil in Ha.
  - unfold Index.bind.
    destruct (Hbody a (list_elem_of_here _ _) st) as [Hret Hin].
    destruct (body a st) as [[[]|err] st1]; [|done]. simpl in Hin.
    destruct (IH (fun b Hb => Hbody b (list_elem_of_further _ _ _ Hb)) st1)
      as [Hret' Hin'].
    split; [done|]. intros x. rewrite Hin', Hin. split.
    + intros [[H|H]|(b & Hb & H)]; [by left|right..].
      * exists a. split; [apply list_elem_of_here|done].
      * exists b. split; [by apply list_elem_of_further|done].
    + intros [H|(b & [->|Hb]%elem_of_cons & H)]; [by left; left|by left; right|].
      right. by exists b.
Qed.

(** X8. The test of the event and commit paths is a substring test, and
    the paths add exactly what passes it. When the events of a user are
    listed, the store after [getUserEvents] holds what it held before and
    the author email of the first commit of every [PushEvent] that is a
    string, not empty, in which [noreply.github.com] does not occur, and
    nothing else. When the commits of a repository are listed and the
    detail of each is fetched, the same holds of [checkCommits] for the
    author and the committer email of every commit. *)
Theorem noreply_filter_is_substring_test W :
  (forall username events st e,
      Index.list_events W username = Ok events ->
      e ∈ Index.emailSet (Index.getUserEvents W username st).2 <->
      e ∈ Index.emailSet st \/
      exists event,
        event ∈ events /\ Index.type event = chars "PushEvent" /\
        passes (Index.first_commit_author_email event) e)
  /\ (forall owner repo commits st e,
        Index.list_commits W owner repo = Ok commits ->
        (forall sha, sha ∈ commits ->
           exists commitData,
             Index.get_commit W owner repo sha = Ok commitData) ->
        e ∈ Index.emailSet (Index.checkCommits W owner repo st).2 <->
        e ∈ Index.emailSet st \/
        exists sha commitData,
          sha ∈ commits /\
          Index.get_commit W owner repo sha = Ok commitData /\
          (passes (Index.author_email commitData) e \/
           passes (Index.committer_email commitData) e)).
Proof.
  split.
  - intros username events st e Hlist.
    unfold Index.getUserEvents, Index.try_catch, Index.bind at 1.
    rewrite Hlist. simpl Index.await. unfold Index.ret at 1.
    destruct (for_each_iff
                (fun event x =>
                   Index.type event = chars "PushEvent" /\
                   passes (Index.first_commit_author_email event) x)
                (fun event =>
                   if bool_decide (Index.type event = chars "PushEvent")
                   then Index.add_unless_noreply
                          (Index.first_commit_author_email event)
                   else Index.ret tt) events) with (st := st)
      as [Hret Hin].
    { intros ev _ s. case_bool_decide as Ht.
      - destruct (add_unless_noreply_iff
                    (Index.first_commit_author_email ev) s) as [Hr Hi].
        split; [done|]. intros x. rewrite Hi. split.
        + intros [H|H]; auto.
        + intros [H|[_ H]]; auto.
      - split; [done|]. intros x. simpl. split; [by left|].
        by intros [H|[H _]]. }
    destruct (Index.for_each events _ st) as [[[]|err] st1]; [|done].
    simpl in *. rewrite Hin. split.
    + intros [H|(ev & Hev & Ht & H)]; [by left|right]. by exists ev.
    + intros [H|(ev & Hev & Ht & H)]; [by left|right]. by exists ev.
  - intros owner repo commits st e Hlist Hall.
    unfold Index.checkCommits, Index.try_catch, Index.bind at 1.
    rewrite Hlist. simpl Index.await. unfold Index.ret at 1.
    destruct (for_each_iff
                (fun sha x =>
                   exists commitData,
                     Index.get_commit W owner repo sha = Ok commitData /\
                     (passes (Index.author_email commitData) x \/
                      passes (Index.committer_email commitData) x))
                (inspect_commit W owner repo) commits) with (st := st)
      as [Hret Hin].
    { intros sha Hsha s. destruct (Hall sha Hsha) as [d Hd].
      rewrite (inspect_commit_ok _ _ _ _ _ s Hd).
      destruct (add_unless_noreply_iff (Index.author_email d) s)
        as [_ Hi1].
      destruct (add_unless_noreply_iff (Index.committer_email d)
                  (Index.add_unless_noreply (Index.author_email d) s).2)
        as [Hr2 Hi2].
      split; [done|]. intros x. rewrite Hi2, Hi1. split.
      - intros [[H|H]|H]; [by left|right; exists d; auto..].
      - intros [H|(d' & Hd' & H)]; [by left; left|].
        rewrite Hd in Hd'. injection Hd' as <-. destruct H; auto. }
    change (Index.for_each commits _ st)
      with (Index.for_each commits (inspect_commit W owner repo) st).
    destruct (Index.for_each commits _ st) as [[[]|err] st1]; [|done].
    simpl in *. rewrite Hin. split.
    + intros [H|(sha & Hsha & d & Hd & H)]; [by left|right].
      by exists sha, d.
    + intros [H|(sha & d & Hsha & Hd & H)]; [by left|right].
      exists sha. split; [done|]. by exists d.
Qed.

Lemma noreply_filter_is_substring_test_witness :
  chars "noreply@github.com"
  ∈ Index.emailSet
      (Index.getUserEvents pushes (chars "ann") Index.initial).2
  /\ chars "eve@example.net"
     ∈ Index.emailSet
         (Index.checkCommits pushes (chars "acme") (chars "app")
            Index.initial).2.
Proof.
  destruct (noreply_filter_is_substring_test pushes) as [Hevents Hcommits].
  split.
  - apply (Hevents (chars "ann") _ Index.initial _ eq_refl). right.
    exists (Index.Event (chars "PushEvent")
              (Some (chars "noreply@github.com"))).
    split; [do 3 apply list_elem_of_further; apply list_elem_of_here|]. split; [done|].
    split; [done|]. split; [done|].
    intros Hsub%includes_iff. by vm_compute in Hsub.
  - apply (Hcommits (chars "acme") (chars "app") _ Index.initial _ eq_refl).
    + intros sha _. simpl. case_bool_decide; by eexists.
    + right. exists (chars "c1"), (Index.CommitData
                 (Some (chars "eve@example.net"))
                 (Some (chars "noreply@github.com"))).
      split; [apply list_elem_of_here|]. split; [done|]. left.
      split; [done|]. split; [done|].
      intros Hsub%includes_iff. by vm_compute in Hsub.
Defined.

(** What the two paths leave on that world. *)
Lemma pushes_run :
  Index.emailSet (Index.getUserEvents pushes (chars "ann") Index.initial).2
  = [chars "noreply@github.com"] /\
  Index.emailSet
    (Index.checkCommits pushes (chars "acme") (chars "app") Index.initial).2
  = [chars "eve@example.net"; chars "noreply@github.com"].
Proof. split; by vm_compute. Qed.

(** *** Where the emails of a README come from *)

Lemma scanned_substrings P b text ms :
  scanned P b text ms ->
  forall m, m ∈ ms -> exists pre post, text = pre ++ m ++ post.
Proof.
  induction 1 as [text Hno|gap m rest ms Hm _ _ _ IH]; intros x Hx.
  - by apply elem_of_nil in Hx.
  - apply elem_of_cons in Hx as [->|Hx]; [by exists gap, rest|].
    destruct (IH x Hx) as (pre & post & ->).
    exists (gap ++ m ++ pre), post. by rewrite <- !(assoc_L (++)).
Qed.

Lemma first_seen_subset {A} `{EqDecision A} (xs : list A) x :
  x ∈ JSSet.first_seen xs -> x ∈ xs.
Proof.
  induction xs as [|y xs IH]; simpl; [done|].
  intros [->|Hx]%elem_of_cons; [apply list_elem_of_here|].
  apply list_elem_of_further, IH.
  by apply list_elem_of_filter in Hx as [_ Hx].
Qed.

Lemma add_all_elem {A} `{EqDecision A} (xs s : list A) x :
  x ∈ JSSet.add_all xs s -> x ∈ s \/ x ∈ xs.
Proof.
  rewrite add_all_first_seen. intros [Hx|Hx]%elem_of_app; [by left|right].
  apply list_elem_of_filter in Hx as [_ Hx]. by apply first_seen_subset.
Qed.

(** X9. What the README lookup adds are substrings of the README that have
    the email shape; when the README cannot be fetched nothing is added. *)
Theorem readme_emails_come_from_readme W owner repo st e :
  e ∈ Index.emailSet (Index.checkReadmeForEmails W owner repo st).2 ->
  e ∈ Index.emailSet st \/
  exists content pre post,
    Index.get_readme W owner repo = Ok content /\
    content = pre ++ e ++ post /\ email_shape e.
Proof.
  destruct (Index.get_readme W owner repo) as [content|err] eqn:Hr.
  - rewrite (checkReadmeForEmails_adds_all W owner repo content st Hr).
    intros [Hin|Hin]%add_all_elem; [by left|right].
    pose proof (match_emails_scanned content) as Hs.
    destruct (scanned_substrings _ _ _ _ Hs e Hin) as (pre & post & Heq).
    exists content, pre, post. split; [done|]. split; [done|].
    apply scanned_all in Hs. rewrite Forall_forall in Hs. by apply Hs.
  - unfold Index.checkReadmeForEmails, Index.try_catch, Index.bind.
    rewrite Hr. simpl. by left.
Qed.

Lemma readme_emails_come_from_readme_witness :
  chars "bob@example.org" ∈ Index.emailSet Index.initial \/
  exists content pre post,
    Index.get_readme (one_repo three_emails rate_limited)
                     (chars "acme") (chars "app") = Ok content /\
    content = pre ++ chars "bob@example.org" ++ post /\
    email_shape (chars "bob@example.org").
Proof.
  apply (readme_emails_come_from_readme
           (one_repo three_emails rate_limited) (chars "acme") (chars "app")
           Index.initial).
  vm_compute. apply list_elem_of_further, list_elem_of_here.
Defined.

(** X10. The script run directly never reaches the [catch] of its last
    line: the search of the repositories handles every failure itself, so
    the run is the run of [searchJavaScriptDevelopers], and nothing is saved
    on the way out. *)
Theorem direct_run_never_reaches_its_catch W st :
  Index.run_directly W st
  = (Index.Return tt, (Index.searchJavaScriptDevelopers W st).2).
Proof.
  assert (Hsafe : safe (Index.searchJavaScriptDevelopers W)).
  { unfold Index.searchJavaScriptDevelopers, Index.searchJavaScriptRepos.
    apply safe_bind; [apply safe_emailSet_clear|]. intros _.
    apply safe_bind; [apply safe_searchJavaScriptRepos_from|]. intros _.
    apply safe_bind; [apply safe_get_emailSet|]. intros s. apply safe_ret. }
  unfold Index.run_directly, Index.try_catch, Index.bind.
  destruct (Hsafe st) as (a & st' & ->). done.
Qed.

(** *** What a crawl keeps *)

Lemma answer_truthy url u : answer url = Some u -> truthy (Some u) = true.
Proof.
  destruct url as [[|c s]|]; try done. unfold answer.
  rewrite extract_unfold. unfold fresh_exec.
  destruct (exec true githubUrlRegex (c :: s) 0) as [[m|] li]; [|done].
  cbn [fst]. destruct (truthy (group m 1)) eqn:Ht; [|done].
  intros Heq. by rewrite Heq in Ht.
Qed.

Lemma add_username_answer url acc :
  Upwork.add_username (answer url) acc =
  match answer url with
  | Some u => JSSet.add u acc
  | None => acc
  end.
Proof.
  unfold Upwork.add_username. destruct (answer url) as [u|] eqn:Ha; [|done].
  by rewrite (answer_truthy _ _ Ha).
Qed.

Lemma add_username_NoDup v acc :
  NoDup acc -> NoDup (Upwork.add_username v acc).
Proof.
  intros H. destruct v as [[|c u]|]; simpl; try done. by apply add_NoDup.
Qed.

Lemma add_username_grows v acc x :
  x ∈ acc -> x ∈ Upwork.add_username v acc.
Proof.
  intros H. destruct v as [[|c u]|]; simpl; try done. by apply grows_add.
Qed.

Lemma link_scan_spec links : forall acc st,
  exists li,
    Upwork.link_scan links acc st =
    Some (JSSet.add_all (omap answer links) acc,
          Upwork.State li (Upwork.requested st)).
Proof.
  induction links as [|href links IH]; intros acc st; simpl.
  - exists (Upwork.lastIndex st). by destruct st.
  - unfold Upwork.ubind. destruct (extract_total href st) as [li ->].
    rewrite add_username_answer.
    destruct (IH (match answer href with
                  | Some u => JSSet.add u acc
                  | None => acc
                  end) (Upwork.State li (Upwork.requested st))) as [li' ->].
    exists li'. by destruct (answer href).
Qed.

Lemma add_all_NoDup {A} `{EqDecision A} (xs : list A) : forall s,
  NoDup s -> NoDup (JSSet.add_all xs s).
Proof.
  unfold JSSet.add_all.
  induction xs as [|x xs IH]; intros s Hs; simpl; [done|].
  by apply IH, add_NoDup.
Qed.

Lemma add_all_grows {A} `{EqDecision A} (xs : list A) : forall s x,
  x ∈ s -> x ∈ JSSet.add_all xs s.
Proof.
  intros s x Hx. rewrite add_all_first_seen. apply elem_of_app. by left.
Qed.

Lemma text_scan_keeps fuel text : forall acc st r st',
  Upwork.text_scan fuel text acc st = Some (r, st') ->
  Upwork.requested st' = Upwork.requested st /\
  (NoDup acc -> NoDup r) /\ (forall x, x ∈ acc -> x ∈ r).
Proof.
  induction fuel as [|fuel IH]; intros acc st r st'; [done|].
  rewrite text_scan_step.
  destruct (exec true githubUrlRegex text (Upwork.lastIndex st))
    as [[m|] li]; [|by intros [= <- <-]].
  destruct (extract_total (Some (whole m))
              (Upwork.State li (Upwork.requested st))) as [li' ->].
  intros Hrun. destruct (IH _ _ _ _ Hrun) as (Hreq & Hnd & Hin).
  split; [done|]. split.
  - intros H. by apply Hnd, add_username_NoDup.
  - intros x Hx. by apply Hin, add_username_grows.
Qed.

Section CrawlKeeps.
Variable W : Upwork.World.

Lemma scrapeUpworkProfile_keeps fuel url st r st' :
  Upwork.scrapeUpworkProfile W fuel url st = Some (r, st') ->
  Upwork.requested st' = Upwork.requested st /\ NoDup r.
Proof.
  unfold Upwork.scrapeUpworkProfile.
  destruct (Upwork.get_profile W url) as [page|e];
    [|intros [= <- <-]; split; [done|apply NoDup_nil_2]].
  unfold Upwork.ubind at 1.
  destruct (Upwork.text_scan fuel _ [] st) as [[us st1]|] eqn:Hscan; [|done].
  destruct (text_scan_keeps _ _ _ _ _ _ Hscan) as (Hreq & Hnd & _).
  unfold Upwork.ubind.
  destruct (link_scan_spec (Upwork.hrefs page) us st1) as [li ->].
  intros [= <- <-]. split; [done|].
  apply add_all_NoDup, Hnd, NoDup_nil_2.
Qed.

Lemma scrape_each_keeps fuel links : forall acc st r st',
  Upwork.scrape_each W fuel links acc st = Some (r, st') ->
  Upwork.requested st' = Upwork.requested st.
Proof.
  induction links as [|u links IH]; intros acc st r st'; simpl.
  - by intros [= _ <-].
  - unfold Upwork.ubind.
    destruct (Upwork.scrapeUpworkProfile W fuel u st)
      as [[us st1]|] eqn:Hs; [|done].
    intros Hrun. rewrite (IH _ _ _ _ Hrun).
    by destruct (scrapeUpworkProfile_keeps _ _ _ _ _ Hs).
Qed.

Lemma searchUpworkProfiles_requests fuel page st r st' :
  Upwork.searchUpworkProfiles W fuel page st = Some (r, st') ->
  if Upwork.cookies_file W
  then Upwork.requested st' = Upwork.requested st ++ [page]
  else r = [] /\ st' = st.
Proof.
  unfold Upwork.searchUpworkProfiles.
  destruct (Upwork.cookies_file W); [|by intros [= <- <-]].
  unfold Upwork.ubind, Upwork.request.
  destruct (Upwork.get_search W page) as [anchors|e];
    [|by intros [= _ <-]].
  intros Hrun. by rewrite (scrape_each_keeps _ _ _ _ _ _ Hrun).
Qed.

Lemma crawl_keeps fuel maxPages : forall page acc st r st',
  Upwork.crawl W fuel maxPages page acc st = Some (r, st') ->
  (NoDup acc -> NoDup r) /\
  (forall x, x ∈ acc -> x ∈ r) /\
  exists k,
    Upwork.requested st' = Upwork.requested st ++ seq page k /\
    (0 < maxPages -> forall p, p ∈ seq page k -> p <= maxPages).
Proof.
  induction fuel as [|fuel IH]; intros page acc st r st'; [done|].
  cbn [Upwork.crawl].
  destruct ((0 <? maxPages) && (maxPages <? page)) eqn:Hc.
  { intros [= <- <-]. split; [done|]. split; [done|]. exists 0; simpl.
    split; [by rewrite app_nil_r|]. intros _ p Hp. by apply elem_of_nil in Hp. }
  unfold Upwork.ubind.
  destruct (Upwork.searchUpworkProfiles W (S fuel) page st)
    as [[us st1]|] eqn:Hs; [|done].
  apply searchUpworkProfiles_requests in Hs.
  assert (Hpage : 0 < maxPages -> page <= maxPages).
  { intros H0%Nat.ltb_lt. rewrite H0 in Hc. simpl in Hc.
    by apply Nat.ltb_ge in Hc. }
  destruct (length us =? 0) eqn:Hlen.
  - intros [= <- <-]. split; [done|]. split; [done|].
    destruct (Upwork.cookies_file W).
    + exists 1. simpl. split; [done|].
      intros H0 p ->%list_elem_of_singleton. auto.
    + destruct Hs as [_ ->]. exists 0. simpl.
      split; [by rewrite app_nil_r|]. intros _ p Hp.
      by apply elem_of_nil in Hp.
  - destruct (Upwork.cookies_file W).
    2:{ destruct Hs as [-> _]. done. }
    intros Hrun. destruct (IH _ _ _ _ _ Hrun) as (Hnd & Hin & k & Hreq & Hk).
    split; [|split].
    + intros H. by apply Hnd, add_all_NoDup.
    + intros x Hx. by apply Hin, add_all_grows.
    + exists (S k). simpl. rewrite Hreq, Hs, <- (assoc_L (++)).
      split; [done|]. intros H0 p [->|Hp]%elem_of_cons; auto.
Qed.
End CrawlKeeps.

(** X11. The usernames that a crawl returns are pairwise distinct, and so
    are those of a single profile. *)
Theorem crawl_usernames_are_distinct W fuel :
  (forall maxPages st usernames st',
      Upwork.findGitHubAccountsFromUpwork W fuel maxPages st
      = Some (usernames, st') ->
      NoDup usernames)
  /\ (forall profileUrl st usernames st',
        Upwork.scrapeUpworkProfile W fuel profileUrl st
        = Some (usernames, st') ->
        NoDup usernames).
Proof.
  split.
  - intros maxPages st us st'. unfold Upwork.findGitHubAccountsFromUpwork,
      Upwork.ubind.
    destruct (Upwork.crawl W fuel maxPages 1 [] st) as [[r st1]|] eqn:Hc;
      [|done].
    intros [= <- <-]. destruct (crawl_keeps _ _ _ _ _ _ _ _ Hc) as [Hnd _].
    apply Hnd, NoDup_nil_2.
  - intros url st us st' Hs.
    by destruct (scrapeUpworkProfile_keeps _ _ _ _ _ _ Hs).
Qed.

Lemma crawl_usernames_are_distinct_witness :
  NoDup [chars "mockuser"; chars "mockuser2"].
Proof.
  destruct (crawl_usernames_are_distinct (then_page (Ok [])) 3) as [Hcrawl _].
  apply (Hcrawl 0 fresh _ (Upwork.State 28 [1; 2])). by vm_compute.
Defined.

(** X12. A crawl asks for the search pages 1, 2, 3, ... in this order, each
    once, and with a ceiling never for a page beyond it. *)
Theorem crawl_requests_consecutive_pages W fuel maxPages st usernames st' :
  Upwork.findGitHubAccountsFromUpwork W fuel maxPages st
  = Some (usernames, st') ->
  exists k,
    Upwork.requested st' = Upwork.requested st ++ seq 1 k /\
    (0 < maxPages -> k <= maxPages).
Proof.
  unfold Upwork.findGitHubAccountsFromUpwork, Upwork.ubind.
  destruct (Upwork.crawl W fuel maxPages 1 [] st) as [[r st1]|] eqn:Hc;
    [|done].
  intros [= _ <-].
  destruct (crawl_keeps _ _ _ _ _ _ _ _ Hc) as (_ & _ & k & Hreq & Hk).
  exists k. split; [done|]. intros H0. destruct k as [|k]; [lia|].
  specialize (Hk H0 (S k)). assert (S k ∈ seq 1 (S k)); [|auto].
  apply list_elem_of_In, in_seq. lia.
Qed.

Lemma crawl_requests_consecutive_pages_witness :
  exists k,
    Upwork.requested (Upwork.State 28 [1; 2])
    = Upwork.requested fresh ++ seq 1 k /\
    (0 < 2 -> k <= 2).
Proof.
  apply (crawl_requests_consecutive_pages
           (then_page (Ok [Some (chars "/freelancers/~02")])) 5 2 fresh
           [chars "mockuser"; chars "mockuser2"]).
  by vm_compute.
Defined.

(** X13. Without the cookies file a crawl asks for no page and finds
    nothing. *)
Theorem crawl_without_cookies_finds_nothing W fuel maxPages st :
  Upwork.cookies_file W = false ->
  Upwork.findGitHubAccountsFromUpwork W (S fuel) maxPages st = Some ([], st).
Proof.
  intros Hc. unfold Upwork.findGitHubAccountsFromUpwork, Upwork.ubind.
  cbn [Upwork.crawl].
  assert ((0 <? maxPages) && (maxPages <? 1) = false) as ->.
  { destruct maxPages as [|[|n]]; done. }
  unfold Upwork.ubind, Upwork.searchUpworkProfiles. rewrite Hc. done.
Qed.

Lemma crawl_without_cookies_finds_nothing_witness :
  Upwork.findGitHubAccountsFromUpwork no_cookies 3 0 fresh = Some ([], fresh).
Proof. by apply (crawl_without_cookies_finds_nothing no_cookies 2 0 fresh). Defined.

(** X14. A profile that cannot be fetched is skipped: the page goes on with
    the next profile, as if the link were not there. *)
Theorem failed_profile_is_skipped W fuel before profileUrl after acc st e :
  Upwork.get_profile W profileUrl = Fail e ->
  Upwork.scrape_each W fuel (before ++ profileUrl :: after) acc st
  = Upwork.scrape_each W fuel (before ++ after) acc st.
Proof.
  intros Hfail. revert acc st.
  induction before as [|u before IH]; intros acc st; simpl.
  - unfold Upwork.ubind, Upwork.scrapeUpworkProfile. rewrite Hfail. simpl.
    by rewrite app_nil_r.
  - unfold Upwork.ubind.
    destruct (Upwork.scrapeUpworkProfile W fuel u st) as [[us st1]|]; [|done].
    apply IH.
Qed.

Lemma failed_profile_is_skipped_witness :
  Upwork.scrape_each one_down 2
    ([chars "https://www.upwork.com/freelancers/~02"]
       ++ chars "https://www.upwork.com/freelancers/~01"
       :: [chars "https://www.upwork.com/freelancers/~03"])
    [] fresh
  = Upwork.scrape_each one_down 2
      ([chars "https://www.upwork.com/freelancers/~02"]
         ++ [chars "https://www.upwork.com/freelancers/~03"])
      [] fresh.
Proof.
  by apply (failed_profile_is_skipped one_down 2 _ _ _ [] fresh not_found).
Defined.

(** *** The match of the URL pattern, read backwards *)

Lemma rep_head_stops ok : forall s n c tl,
  rep ok n s = c :: tl ->
  c = [] \/ exists x t, c = x :: t /\ ok x = false.
Proof.
  induction s as [|x s IH]; intros n c tl; simpl.
  - destruct n; [|done]. intros [= <- _]. by left.
  - destruct (ok x) eqn:Hx.
    + destruct (rep ok (pred n) s) as [|c' tl'] eqn:Hr.
      * destruct n; [|done]. simpl in Hr.
        pose proof (rep_zero_self ok s) as Hin. rewrite Hr in Hin.
        by apply elem_of_nil in Hin.
      * simpl. intros [= <- _]. eapply IH, Hr.
    + destruct n; [|done]. intros [= <- _]. right. eauto.
Qed.

Lemma same_letters_sep sep :
  same_letters sep (chars "://") -> sep = chars "://".
Proof.
  unfold same_letters.
  destruct sep as [|a [|b [|c [|]]]]; try done. intros [= Ha Hb Hc].
  assert (Hlow : forall x y, to_upper x = y -> is_letter y = false -> x = y).
  { intros x y <-. by destruct x as [[] [] [] [] [] [] [] []]. }
  by rewrite (Hlow _ _ Ha), (Hlow _ _ Hb), (Hlow _ _ Hc).
Qed.

Lemma same_letters_host h :
  same_letters h (chars "github.com/") ->
  exists host, h = host ++ chars "/" /\ same_letters host (chars "github.com").
Proof.
  unfold same_letters.
  destruct h as [|a1 [|a2 [|a3 [|a4 [|a5 [|a6 [|a7 [|a8 [|a9 [|a10
    [|a11 [|]]]]]]]]]]]]; try done. intros Hhost.
  exists [a1; a2; a3; a4; a5; a6; a7; a8; a9; a10].
  injection Hhost as ?????????? H11. split; [|simpl; congruence].
  assert (a11 = "/"%char) as ->; [|done].
  revert H11. clear. by destruct a11 as [[] [] [] [] [] [] [] []].
Qed.

Lemma str_ok_split w s rest :
  str_ok true w s = Some rest ->
  exists u, s = u ++ rest /\ same_letters u w.
Proof.
  intros H. destruct (str_ok_sound _ _ _ _ H) as (u & -> & _ & Hu).
  exists u. split; [done|]. by apply str_ok_letters.
Qed.

Lemma run_after_host_head s hd tl :
  run true after_host s = hd :: tl ->
  exists host user,
    s = host ++ chars "/" ++ user ++ hd.2 /\ hd.1 = [Some user] /\
    same_letters host (chars "github.com") /\
    1 <= length user /\ forallb user_char user = true /\ word_ends hd.2.
Proof.
  unfold after_host. rewrite run_seq_str.
  destruct (str_ok true (chars "github.com/") s) as [s'|] eqn:Hs; [|done].
  apply str_ok_split in Hs as (h & -> & Hh).
  apply same_letters_host in Hh as (host & -> & Hhost).
  cbn [run].
  destruct (rep (class_ok true user_char) 1 s') as [|c cs] eqn:Hr; [done|].
  simpl. intros [= <- _]. simpl.
  assert (Hin : c ∈ rep (class_ok true user_char) 1 s').
  { rewrite Hr. apply list_elem_of_here. }
  apply rep_sound in Hin as (user & -> & Hn & Hu).
  rewrite (forallb_same _ user_char) in Hu by apply user_class_icase.
  exists host, user. rewrite <- !(assoc_L (++)).
  split; [done|]. split.
  { rewrite length_app, Nat.add_sub, take_app_length. done. }
  split; [done|]. split; [done|]. split; [done|].
  destruct (rep_head_stops _ _ _ _ _ Hr) as [->|(x & t & -> & Hx)];
    [by left|right].
  rewrite user_class_icase in Hx. eauto.
Qed.

Lemma run_after_scheme_head s hd tl :
  run true after_scheme s = hd :: tl ->
  exists www host user,
    s = chars "://" ++ www ++ host ++ chars "/" ++ user ++ hd.2 /\
    hd.1 = [Some user] /\
    (www = [] \/ same_letters www (chars "www.")) /\
    same_letters host (chars "github.com") /\
    1 <= length user /\ forallb user_char user = true /\ word_ends hd.2.
Proof.
  unfold after_scheme. rewrite run_seq_str.
  destruct (str_ok true (chars "://") s) as [s'|] eqn:Hs; [|done].
  apply str_ok_split in Hs as (sep & -> & ->%same_letters_sep).
  rewrite run_seq_opt by done. rewrite run_seq_str.
  assert (Hplain : run true after_host s' = hd :: tl \/
                   (exists tl', run true after_host s' = hd :: tl') ->
          exists www host user,
            chars "://" ++ s'
            = chars "://" ++ www ++ host ++ chars "/" ++ user ++ hd.2 /\
            hd.1 = [Some user] /\
            (www = [] \/ same_letters www (chars "www.")) /\
            same_letters host (chars "github.com") /\
            1 <= length user /\ forallb user_char user = true /\
            word_ends hd.2).
  { intros [H|[tl' H]];
      apply run_after_host_head in H as (host & user & -> & H);
      exists [], host, user; (split; [done|]);
      destruct H as (?&?&?&?&?); auto 10. }
  destruct (str_ok true (chars "www.") s') as [s''|] eqn:Hw.
  2:{ simpl. intros H. apply Hplain. by left. }
  destruct (run true after_host s'') as [|c cs] eqn:Hr.
  { simpl. intros H. apply Hplain. by left. }
  simpl. intros [= <- _].
  apply str_ok_split in Hw as (www & -> & Hwww).
  apply run_after_host_head in Hr as (host & user & -> & H).
  exists www, host, user. split; [done|].
  destruct H as (?&?&?&?&?); auto 10.
Qed.

Lemma run_github_head s hd tl :
  run true githubUrlRegex s = hd :: tl ->
  exists front user,
    s = front ++ hd.2 /\ hd.1 = [Some user] /\ account_url user front /\
    word_ends hd.2.
Proof.
  unfold githubUrlRegex. fold after_host. fold after_scheme.
  rewrite run_seq_str.
  destruct (str_ok true (chars "http") s) as [s1|] eqn:Hs; [|done].
  apply str_ok_split in Hs as (http & -> & Hhttp).
  rewrite run_seq_opt by done. rewrite run_seq_chr.
  assert (Hgo : forall scheme s2 tl',
             (same_letters scheme (chars "http") \/
              same_letters scheme (chars "https")) ->
             run true after_scheme s2 = hd :: tl' ->
             exists front user,
               scheme ++ s2 = front ++ hd.2 /\ hd.1 = [Some user] /\
               account_url user front /\ word_ends hd.2).
  { intros scheme s2 tl' Hscheme H.
    apply run_after_scheme_head in H
      as (www & host & user & -> & Hc & Hwww & Hhost & Hn & Hu & Hend).
    exists (scheme ++ chars "://" ++ www ++ host ++ chars "/" ++ user), user.
    split; [by rewrite <- !(assoc_L (++))|]. split; [done|].
    split; [|done]. exists scheme, www, host. auto 10. }
  destruct s1 as [|x s2].
  { simpl. intros H. apply (Hgo http [] tl); [by left|done]. }
  destruct (chr_ok true "s" x) eqn:Hx.
  2:{ simpl. intros H. apply (Hgo http (x :: s2) tl); [by left|done]. }
  destruct (run true after_scheme s2) as [|c cs] eqn:Hr.
  { simpl. intros H. apply (Hgo http (x :: s2) tl); [by left|done]. }
  simpl. intros [= <- _].
  replace (http ++ x :: s2) with ((http ++ [x]) ++ s2)
    by by rewrite <- (assoc_L (++)).
  apply (Hgo (http ++ [x]) s2 cs); [|done]. right.
  unfold same_letters in *. rewrite map_app, Hhttp. simpl.
  apply Ascii.eqb_eq in Hx. unfold canon in Hx. by rewrite Hx.
Qed.

(** What a match of the URL pattern is: the URL of an account whose name is
    the first group and runs as far as the class allows. *)
Lemma exec_github_match text li m k :
  exec true githubUrlRegex text li = (Some m, k) ->
  exists gap trail user,
    drop li text = gap ++ whole m ++ trail /\
    index m = li + length gap /\ k = index m + length (whole m) /\
    groups m = [Some user] /\ account_url user (whole m) /\
    word_ends trail /\
    (forall g1 g2, gap = g1 ++ g2 -> g2 <> [] ->
       ~ starts_here (lang true githubUrlRegex) (g2 ++ whole m ++ trail)).
Proof.
  intros Hex. apply exec_some in Hex
    as (_ & -> & gap & rest & Hdrop & Hidx & _ & Hfirst & tl & Hrun).
  apply run_github_head in Hrun
    as (front & user & Heq & Hg & Hurl & Hend). simpl in *.
  apply app_inv_tail in Heq as <-.
  exists gap, rest, user. auto 10.
Qed.

Lemma account_url_nonempty user w : account_url user w -> w <> [].
Proof.
  intros (scheme & www & host & -> & Hs & _). unfold same_letters in Hs.
  by destruct Hs as [Hs|Hs]; destruct scheme.
Qed.

(** A call on a match gives the name back and leaves [lastIndex] at the
    length of the match. *)
Lemma fresh_exec_account user w :
  account_url user w -> fresh_exec w = (Some user, length w).
Proof.
  intros (scheme & www & host & -> & Hs & Hw & Hh & Hn & Hu).
  destruct (run_github_url scheme www host user [] Hs Hw Hh Hn Hu)
    as [tl Hrun]; [by left|].
  rewrite app_nil_r in Hrun. unfold fresh_exec.
  rewrite (exec_first_answer _ _ _ _ _ _ Hrun). simpl.
  rewrite Nat.sub_0_r. unfold group. simpl.
  destruct user; [simpl in Hn; lia|done].
Qed.

Lemma extract_account user w st :
  account_url user w ->
  Upwork.extractGitHubUsername (Some w) st
  = Some (Some user, Upwork.State (length w) (Upwork.requested st)).
Proof.
  intros Hw. pose proof (account_url_nonempty _ _ Hw) as Hne.
  destruct w as [|c u]; [done|].
  by rewrite extract_unfold, (fresh_exec_account _ _ Hw).
Qed.

Lemma answer_account user w : account_url user w -> answer (Some w) = Some user.
Proof.
  intros Hw. pose proof (account_url_nonempty _ _ Hw) as Hne.
  destruct w as [|c u]; [done|]. unfold answer.
  by rewrite extract_unfold, (fresh_exec_account _ _ Hw).
Qed.

Lemma extract_first_account url st user st' :
  Upwork.extractGitHubUsername url st = Some (Some user, st') ->
  exists text before w trail,
    url = Some text /\ text = before ++ w ++ trail /\
    account_url user w /\ word_ends trail /\
    (forall g1 g2, before = g1 ++ g2 -> g2 <> [] ->
       ~ starts_here (lang true githubUrlRegex) (g2 ++ w ++ trail)) /\
    Upwork.requested st' = Upwork.requested st.
Proof.
  destruct url as [[|c u]|]; try done.
  rewrite extract_unfold. unfold fresh_exec.
  destruct (exec true githubUrlRegex (c :: u) 0) as [[m|] li] eqn:Hex;
    [|done].
  apply exec_github_match in Hex
    as (gap & trail & name & Hdrop & _ & _ & Hg & Hurl & Hend & Hfirst).
  rewrite drop_0 in Hdrop. unfold group. rewrite Hg. simpl.
  destruct name as [|x name]; simpl; intros [= <- <-]; simpl.
  exists (c :: u), gap, (whole m), trail. auto 10.
Qed.

(** *** When the text scan of a profile ends *)

Lemma search_later icase r : forall j s i m,
  search icase r s i = Some m -> i + j <= index m ->
  search icase r (drop j s) (i + j) = Some m.
Proof.
  induction j as [|j IH]; intros s i m Hs Hj.
  - by rewrite drop_0, Nat.add_0_r.
  - destruct s as [|x s]; simpl in Hs.
    + destruct (run icase r []); [done|]. injection Hs as <-. simpl in Hj. lia.
    + destruct (run icase r (x :: s)).
      * replace (i + S j) with (S i + j) by lia.
        apply (IH s (S i)); [done|lia].
      * injection Hs as <-. simpl in Hj. lia.
Qed.

Lemma exec_later icase r text j m k :
  exec icase r text 0 = (Some m, k) -> j <= index m ->
  exec icase r text j = (Some m, k).
Proof.
  intros Hex Hj. pose proof (exec_some _ _ _ _ _ _ Hex)
    as (_ & _ & gap & rest & Hdrop & Hidx & _).
  rewrite drop_0 in Hdrop. unfold exec in *.
  change (length text <? 0) with false in Hex. cbv iota in Hex.
  rewrite drop_0 in Hex.
  destruct (search icase r text 0) as [m0|] eqn:Hs; [|done].
  injection Hex as Hm Hk. subst m0 k.
  assert ((length text <? j) = false) as ->.
  { apply Nat.ltb_ge. rewrite Hdrop, length_app. lia. }
  pose proof (search_later icase r j text 0 m Hs Hj) as Hlater.
  simpl in Hlater. by rewrite Hlater.
Qed.

Lemma exec_nothing text li :
  ~ occurs (lang true githubUrlRegex) (drop li text) ->
  exec true githubUrlRegex text li = (None, 0).
Proof.
  intros Hno. destruct (exec true githubUrlRegex text li) as [[m|] k] eqn:Hex.
  - destruct Hno. apply exec_some in Hex
      as (_ & _ & gap & rest & Hdrop & _ & Hw & _).
    exists gap, (whole m ++ rest). split; [done|]. by exists (whole m), rest.
  - by apply exec_none in Hex as [-> _].
Qed.

(** X15. A profile text whose first GitHub URL starts at or after a position
    equal to the length of that URL is scanned for ever: the call inside
    the loop moves [lastIndex] back to the length of the URL, and the next
    search finds the same URL. *)
Theorem scrape_diverges_when_first_url_starts_late
    W fuel profileUrl page st m k :
  Upwork.get_profile W profileUrl = Ok page ->
  Upwork.lastIndex st = 0 ->
  exec true githubUrlRegex (fullText page) 0 = (Some m, k) ->
  length (whole m) <= index m ->
  Upwork.scrapeUpworkProfile W fuel profileUrl st = None.
Proof.
  intros Hpage Hli Hex Hlate. unfold Upwork.scrapeUpworkProfile.
  rewrite Hpage. cbv beta iota zeta. fold (fullText page).
  unfold Upwork.ubind at 1.
  assert (Upwork.text_scan fuel (fullText page) [] st = None) as ->; [|done].
  destruct fuel as [|fuel]; [done|].
  rewrite text_scan_step, Hli, Hex.
  pose proof (exec_github_match _ _ _ _ Hex)
    as (gap & trail & user & _ & _ & _ & _ & Hurl & _).
  rewrite (extract_account _ _ _ Hurl). simpl Upwork.requested.
  apply (text_scan_diverges (fullText page) m k (Some user));
    [by apply exec_later|by apply fresh_exec_account
    |by apply (account_url_nonempty user)].
Qed.

Lemma scrape_diverges_when_first_url_starts_late_witness :
  Upwork.scrapeUpworkProfile (single_profile late_profile) 1000
    (chars "https://www.upwork.com/freelancers/~07") fresh = None.
Proof.
  apply (scrape_diverges_when_first_url_starts_late
           (single_profile late_profile) 1000 _ late_profile fresh
           (Match 39 (chars "https://github.com/ada") [Some (chars "ada")])
           61);
    [done|done|by vm_compute|simpl; lia].
Defined.

(** X16. Where no further URL stands at or after the position equal to the
    length of the first one, the text scan ends in its second round, with
    the account of the first URL and with [lastIndex] back at 0. *)
Theorem text_scan_ends_after_one_account fuel text acc req m k :
  exec true githubUrlRegex text 0 = (Some m, k) ->
  ~ occurs (lang true githubUrlRegex) (drop (length (whole m)) text) ->
  Upwork.text_scan (S (S fuel)) text acc (Upwork.State 0 req)
  = Some (Upwork.add_username (group m 1) acc, Upwork.State 0 req).
Proof.
  intros Hex Hno. rewrite text_scan_step. simpl Upwork.lastIndex.
  rewrite Hex.
  pose proof (exec_github_match _ _ _ _ Hex)
    as (gap & trail & user & Hdrop & _ & _ & Hg & Hurl & _).
  rewrite drop_0 in Hdrop.
  rewrite (extract_account _ _ _ Hurl). simpl Upwork.requested.
  rewrite text_scan_step. simpl Upwork.lastIndex.
  rewrite exec_nothing by done.
  unfold group. by rewrite Hg.
Qed.

Lemma text_scan_ends_after_one_account_witness :
  Upwork.text_scan 2 (chars "My code: https://github.com/octocat/hello")
    [] (Upwork.State 0 [])
  = Some ([chars "octocat"], Upwork.State 0 []).
Proof.
  apply (text_scan_ends_after_one_account 0 _ [] []
           (Match 9 (chars "https://github.com/octocat")
                  [Some (chars "octocat")]) 35); [by vm_compute|].
  intros (pre & suf & Heq & Hocc).
  assert (Hs : search true githubUrlRegex
                 (drop 26 (chars "My code: https://github.com/octocat/hello"))
                 0 = None) by by vm_compute.
  apply search_none in Hs. apply Hs. by exists pre, suf.
Defined.

(** *** Where the usernames of a profile come from *)

Lemma answer_stands_in text user :
  answer (Some text) = Some user ->
  exists w before after, account_url user w /\ text = before ++ w ++ after.
Proof.
  intros Ha. destruct (extract_total (Some text) (Upwork.State 0 [])) as [li He].
  rewrite Ha in He.
  apply extract_first_account in He
    as (t & before & w & trail & [= <-] & -> & Hw & _).
  by exists w, before, trail.
Qed.

Lemma add_username_elem v acc x :
  x ∈ Upwork.add_username v acc -> x ∈ acc \/ v = Some x.
Proof.
  destruct v as [[|c u]|]; simpl; auto. unfold JSSet.add, JSSet.has.
  case_bool_decide; [by left|].
  intros [Hx|Hx]%elem_of_app; [by left|].
  apply list_elem_of_singleton in Hx as ->. by right.
Qed.

Lemma text_scan_provenance fuel text : forall acc st r st',
  Upwork.text_scan fuel text acc st = Some (r, st') ->
  forall user, user ∈ r ->
    user ∈ acc \/
    exists w before after, account_url user w /\ text = before ++ w ++ after.
Proof.
  induction fuel as [|fuel IH]; intros acc st r st'; [done|].
  rewrite text_scan_step.
  destruct (exec true githubUrlRegex text (Upwork.lastIndex st))
    as [[m|] li] eqn:Hex; [|intros [= <- <-]; auto].
  pose proof (exec_github_match _ _ _ _ Hex)
    as (gap & trail & name & Hdrop & _ & _ & _ & Hurl & _).
  rewrite (extract_account _ _ _ Hurl).
  intros Hrun user Hin.
  destruct (IH _ _ _ _ Hrun user Hin) as [Hacc|Hfound]; [|by right].
  apply add_username_elem in Hacc as [Hacc|[= <-]]; [by left|right].
  exists (whole m), (take (Upwork.lastIndex st) text ++ gap), trail.
  split; [done|].
  by rewrite <- (assoc_L (++)), <- Hdrop, take_drop.
Qed.

(** X17. Every username that [scrapeUpworkProfile] returns is the account of
    a GitHub URL that stands in the text of the profile or in one of its
    links. *)
Theorem profile_usernames_come_from_profile
    W fuel profileUrl st usernames st' user :
  Upwork.scrapeUpworkProfile W fuel profileUrl st = Some (usernames, st') ->
  user ∈ usernames ->
  exists page w before after,
    Upwork.get_profile W profileUrl = Ok page /\ account_url user w /\
    (fullText page = before ++ w ++ after \/
     Some (before ++ w ++ after) ∈ Upwork.hrefs page).
Proof.
  unfold Upwork.scrapeUpworkProfile.
  destruct (Upwork.get_profile W profileUrl) as [page|e];
    [|intros [= <- _] H; by apply elem_of_nil in H].
  cbv beta iota zeta. fold (fullText page). unfold Upwork.ubind at 1.
  destruct (Upwork.text_scan fuel (fullText page) [] st)
    as [[us st1]|] eqn:Hscan; [|done].
  unfold Upwork.ubind.
  destruct (link_scan_spec (Upwork.hrefs page) us st1) as [li ->].
  intros [= <- _] Hin. unfold JSSet.from in Hin.
  exists page. apply add_all_elem in Hin as [Hin|Hin].
  - destruct (text_scan_provenance _ _ _ _ _ _ Hscan user Hin)
      as [Hnil|(w & before & after & Hw & Heq)];
      [by apply elem_of_nil in Hnil|].
    exists w, before, after. auto.
  - apply list_elem_of_omap in Hin as (href & Hhref & Ha).
    destruct href as [text|]; [|done].
    apply answer_stands_in in Ha as (w & before & after & Hw & ->).
    exists w, before, after. auto.
Qed.

Lemma profile_usernames_come_from_profile_witness :
  exists page w before after,
    Upwork.get_profile (single_profile short_profile)
      (chars "https://www.upwork.com/freelancers/~02") = Ok page /\
    account_url (chars "mockuser2") w /\
    (fullText page = before ++ w ++ after \/
     Some (before ++ w ++ after) ∈ Upwork.hrefs page).
Proof.
  apply (profile_usernames_come_from_profile
           (single_profile short_profile) 2 _ fresh
           [chars "mockuser"; chars "mockuser2"] (Upwork.State 28 [])).
  - by vm_compute.
  - apply list_elem_of_further, list_elem_of_here.
Defined.

(** X18. The text scan of a profile starts where the last call on the shared
    pattern left [lastIndex]: when no GitHub URL stands in the text from
    that position on, the usernames are those of the links alone, in the
    order in which each is first met, whatever stands in the text before. *)
Theorem profile_text_before_lastIndex_is_not_seen
    W fuel profileUrl page st :
  Upwork.get_profile W profileUrl = Ok page ->
  ~ occurs (lang true githubUrlRegex)
      (drop (Upwork.lastIndex st) (fullText page)) ->
  fst <$> Upwork.scrapeUpworkProfile W (S fuel) profileUrl st
  = Some (JSSet.add_all (omap answer (Upwork.hrefs page)) []).
Proof.
  intros Hpage Hno. unfold Upwork.scrapeUpworkProfile. rewrite Hpage.
  cbv beta iota zeta. fold (fullText page). unfold Upwork.ubind at 1.
  rewrite text_scan_step, exec_nothing by done.
  unfold Upwork.ubind.
  by destruct (link_scan_spec (Upwork.hrefs page) []
                 (Upwork.State 0 (Upwork.requested st))) as [li ->].
Qed.

Lemma profile_text_before_lastIndex_is_not_seen_witness :
  fst <$> Upwork.scrapeUpworkProfile (single_profile late_profile) 1
            (chars "https://www.upwork.com/freelancers/~07")
            (Upwork.State 61 [1])
  = Some [].
Proof.
  apply (profile_text_before_lastIndex_is_not_seen
           (single_profile late_profile) 0 _ late_profile
           (Upwork.State 61 [1])); [done|].
  intros (pre & suf & Heq & Hocc).
  assert (Hs : search true githubUrlRegex
                 (drop 61 (fullText late_profile)) 0 = None)
    by by vm_compute.
  apply search_none in Hs. apply Hs. by exists pre, suf.
Defined.

(** *** The match of the URL pattern, read forwards *)

Lemma run_after_host_ends host user trail :
  same_letters host (chars "github.com") ->
  1 <= length user -> forallb user_char user = true -> word_ends trail ->
  starts_with_answer
    (run true after_host (host ++ chars "/" ++ user ++ trail))
    ([Some user], trail).
Proof.
  intros Hhost Hn Hu Htrail. unfold after_host. rewrite run_seq_str.
  rewrite (assoc_L (++)).
  rewrite (str_ok_same (chars "github.com/") (host ++ chars "/")).
  2:{ unfold same_letters in *. rewrite map_app, Hhost. done. }
  cbn [run].
  destruct (rep_greedy_head (class_ok true user_char) 1 user trail) as [tl Hrep].
  - by rewrite (forallb_same _ user_char) by apply user_class_icase.
  - done.
  - destruct Htrail as [->|(x & t & -> & Hx)]; [by left|right].
    exists x, t. by rewrite user_class_icase.
  - rewrite Hrep. simpl. rewrite take_app_rest. by eexists.
Qed.

Lemma run_after_scheme_ends www host user trail :
  (www = [] \/ same_letters www (chars "www.")) ->
  same_letters host (chars "github.com") ->
  1 <= length user -> forallb user_char user = true -> word_ends trail ->
  starts_with_answer
    (run true after_scheme
         (chars "://" ++ www ++ host ++ chars "/" ++ user ++ trail))
    ([Some user], trail).
Proof.
  intros Hwww Hhost Hn Hu Htrail. unfold after_scheme. rewrite run_seq_str.
  rewrite (str_ok_same (chars "://") (chars "://")) by done.
  rewrite run_seq_opt by done.
  pose proof (run_after_host_ends host user trail Hhost Hn Hu Htrail) as Hrun.
  destruct Hwww as [->|Hwww].
  - rewrite run_seq_str. simpl "++" at 2.
    destruct host as [|g host]; [done|]. injection Hhost as Hg _.
    simpl str_ok. unfold chr_ok at 1, canon. rewrite Hg. simpl. done.
  - apply starts_app. rewrite run_seq_str, str_ok_same by done. done.
Qed.

Lemma run_account user w trail :
  account_url user w -> word_ends trail ->
  starts_with_answer (run true githubUrlRegex (w ++ trail))
                     ([Some user], trail).
Proof.
  intros (scheme & www & host & -> & Hscheme & Hwww & Hhost & Hn & Hu) Htrail.
  rewrite <- !(assoc_L (++)).
  pose proof (run_after_scheme_ends www host user trail Hwww Hhost Hn Hu
                Htrail) as Hrun.
  unfold githubUrlRegex. fold after_host. fold after_scheme.
  rewrite run_seq_str. destruct Hscheme as [Hs|Hs].
  - rewrite str_ok_same by done. rewrite run_seq_opt by done.
    rewrite run_seq_chr. simpl. done.
  - destruct scheme as [|h [|t1 [|t2 [|p [|s [|]]]]]]; try done.
    injection Hs as Hh Ht1 Ht2 Hp Hs.
    change ([h; t1; t2; p; s] ++ ?X) with ([h; t1; t2; p] ++ s :: X).
    rewrite (str_ok_same (chars "http") [h; t1; t2; p]).
    2:{ unfold same_letters. simpl. by rewrite Hh, Ht1, Ht2, Hp. }
    rewrite run_seq_opt by done. apply starts_app.
    rewrite run_seq_chr. unfold chr_ok, canon. rewrite Hs. simpl. done.
Qed.

Lemma search_skips icase r s : forall before i,
  (forall g1 g2, before = g1 ++ g2 -> g2 <> [] ->
     ~ starts_here (lang icase r) (g2 ++ s)) ->
  search icase r (before ++ s) i = search icase r s (i + length before).
Proof.
  induction before as [|x before IH]; intros i Hno.
  - by rewrite Nat.add_0_r.
  - assert (Hrun : run icase r ((x :: before) ++ s) = []).
    { apply run_nil_iff. by apply (Hno [] (x :: before)). }
    simpl in *. rewrite Hrun, IH.
    + f_equal. lia.
    + intros g1 g2 -> Hne. by apply (Hno (x :: g1) g2).
Qed.

(** X19. [extractGitHubUsername] returns [user] exactly on the strings whose
    first GitHub URL (scheme [http] or [https], an optional [www.], the
    host, all without regard to case) names [user]: the name is not empty,
    has only characters of [[A-Za-z0-9_-]], and ends where the string ends
    or the next character is outside that class. *)
Theorem extractGitHubUsername_exact text st user :
  fst <$> Upwork.extractGitHubUsername (Some text) st = Some (Some user)
  <->
  exists before w trail,
    text = before ++ w ++ trail /\ account_url user w /\ word_ends trail /\
    (forall g1 g2, before = g1 ++ g2 -> g2 <> [] ->
       ~ starts_here (lang true githubUrlRegex) (g2 ++ w ++ trail)).
Proof.
  split.
  - destruct (Upwork.extractGitHubUsername (Some text) st)
      as [[r st']|] eqn:He; [|done].
    intros [= ->].
    apply extract_first_account in He
      as (t & before & w & trail & [= <-] & -> & Hw & Hend & Hfirst & _).
    by exists before, w, trail.
  - intros (before & w & trail & -> & Hw & Hend & Hfirst).
    destruct (run_account user w trail Hw Hend) as [tl Hrun].
    pose proof (account_url_nonempty _ _ Hw) as Hne.
    destruct (before ++ w ++ trail) as [|c u] eqn:Ht.
    { destruct before, w; done. }
    rewrite extract_unfold, <- Ht. unfold fresh_exec, exec.
    change (length (before ++ w ++ trail) <? 0) with false. cbv iota.
    rewrite drop_0, (search_skips _ _ _ _ _ Hfirst).
    rewrite (search_first_answer _ _ _ _ _ _ Hrun). simpl.
    unfold group. simpl.
    destruct Hw as (_ & _ & _ & _ & _ & _ & _ & Hn & _).
    destruct user; [simpl in Hn; lia|done].
Qed.

(** *** getGitHubProfileUrl *)

Lemma search_skips_not_g s : forall before i,
  forallb not_g before = true ->
  search true profileRegex (before ++ s) i
  = search true profileRegex s (i + length before).
Proof.
  induction before as [|x before IH]; intros i Hb.
  - by rewrite Nat.add_0_r.
  - simpl in Hb. apply andb_prop in Hb as [Hx Hb].
    assert (Hrun : run true profileRegex ((x :: before) ++ s) = []).
    { unfold profileRegex. rewrite run_seq_str. simpl.
      unfold not_g in Hx. apply negb_true_iff in Hx. by rewrite Hx. }
    simpl in *. rewrite Hrun, IH by done. f_equal. lia.
Qed.

Lemma same_letters_not_g l : forall u,
  same_letters u l -> forallb not_g l = true -> forallb not_g u = true.
Proof.
  unfold same_letters.
  induction l as [|c l IH]; intros [|x u] Heq Hl; simpl in *; try done.
  injection Heq as Hx Heq. apply andb_prop in Hl as [Hc Hl].
  rewrite (IH _ Heq Hl), andb_true_r.
  unfold not_g, chr_ok, canon in *. by rewrite Hx.
Qed.

Lemma profile_of_host host user trail before :
  forallb not_g before = true ->
  same_letters host (chars "github.com") ->
  1 <= length user -> forallb user_char user = true -> word_ends trail ->
  getGitHubProfileUrl (before ++ host ++ chars "/" ++ user ++ trail)
  = chars "https://github.com/" ++ user.
Proof.
  intros Hb Hhost Hn Hu Hend. unfold getGitHubProfileUrl.
  rewrite search_skips_not_g by done.
  destruct (run_after_host_ends host user trail Hhost Hn Hu Hend) as [tl Hrun].
  fold after_host in Hrun. change after_host with profileRegex in Hrun.
  rewrite (search_first_answer _ _ _ _ _ _ Hrun). unfold group. simpl.
  destruct user; [simpl in Hn; lia|done].
Qed.

Lemma profile_match url m :
  search true profileRegex url 0 = Some m ->
  exists user, groups m = [Some user] /\
               1 <= length user /\ forallb user_char user = true.
Proof.
  intros Hs. apply search_some in Hs as (gap & rest & _ & _ & _ & _ & tl & Hrun).
  change profileRegex with after_host in Hrun.
  apply run_after_host_head in Hrun as (host & user & _ & Hg & _ & Hn & Hu & _).
  by exists user.
Qed.

Lemma profile_values url :
  getGitHubProfileUrl url = url \/
  exists user, 1 <= length user /\ forallb user_char user = true /\
               getGitHubProfileUrl url = chars "https://github.com/" ++ user.
Proof.
  unfold getGitHubProfileUrl.
  destruct (search true profileRegex url 0) as [m|] eqn:Hs; [|by left].
  apply profile_match in Hs as (user & Hg & Hn & Hu).
  unfold group. rewrite Hg. simpl.
  destruct user as [|c user]; [by left|right]. by exists (c :: user).
Qed.

(** X20. [getGitHubProfileUrl] brings the URL of an account, and of anything
    below it, to [https://github.com/<user>], whatever the scheme, the
    [www.] and the case of the host; its value is either its argument or
    such a URL, and applying it twice is applying it once. *)
Theorem getGitHubProfileUrl_normalises :
  (forall user w trail,
      account_url user w -> word_ends trail ->
      getGitHubProfileUrl (w ++ trail) = chars "https://github.com/" ++ user)
  /\ (forall url,
        getGitHubProfileUrl url = url \/
        exists user,
          account_url user (getGitHubProfileUrl url) /\
          getGitHubProfileUrl url = chars "https://github.com/" ++ user)
  /\ (forall url,
        getGitHubProfileUrl (getGitHubProfileUrl url)
        = getGitHubProfileUrl url).
Proof.
  assert (Hcanon : forall user,
             1 <= length user -> forallb user_char user = true ->
             account_url user (chars "https://github.com/" ++ user)).
  { intros user Hn Hu. exists (chars "https"), [], (chars "github.com").
    split; [done|]. split; [by right|]. split; [by left|].
    split; [done|]. auto. }
  split; [|split].
  - intros user w trail
      (scheme & www & host & -> & Hscheme & Hwww & Hhost & Hn & Hu) Hend.
    replace ((scheme ++ chars "://" ++ www ++ host ++ chars "/" ++ user)
               ++ trail)
      with ((scheme ++ chars "://" ++ www)
              ++ host ++ chars "/" ++ user ++ trail)
      by (by rewrite <- !(assoc_L (++))).
    apply profile_of_host; try done.
    rewrite !forallb_app. apply andb_true_intro; split;
      [|apply andb_true_intro; split; [done|]].
    + destruct Hscheme as [H|H]; by apply (same_letters_not_g _ _ H).
    + destruct Hwww as [->|H]; [done|]. by apply (same_letters_not_g _ _ H).
  - intros url. destruct (profile_values url) as [H|(user & Hn & Hu & H)];
      [by left|right].
    exists user. rewrite H. auto.
  - intros url. destruct (profile_values url) as [H|(user & Hn & Hu & H)];
      [by rewrite !H|].
    rewrite H.
    pose proof (profile_of_host (chars "github.com") user []
                  (chars "https://")) as Hp.
    rewrite app_nil_r in Hp. apply Hp; [done|done|done|done|by left].
Qed.

(** *** The records of the browser scraper *)

Section Records.
Variable PW : Puppeteer.World.

Lemma readme_emails_elem repoUrl r :
  r ∈ Puppeteer.readme_emails PW repoUrl ->
  exists readmeContent before after,
    Puppeteer.open_readme PW repoUrl = Ok (Some readmeContent) /\
    readmeContent = before ++ Puppeteer.email r ++ after /\
    email_shape (Puppeteer.email r) /\
    ~ (exists pre post,
         Puppeteer.email r = pre ++ Puppeteer.noreply ++ post) /\
    Puppeteer.source r = repoUrl ++ chars " (README)".
Proof.
  unfold Puppeteer.readme_emails.
  destruct (Puppeteer.open_readme PW repoUrl) as [[content|]|e];
    try (intros H; by apply elem_of_nil in H).
  intros Hin. apply list_elem_of_In, in_flat_map in Hin as (e & He & Hr).
  apply list_elem_of_In in He.
  destruct (includes e Puppeteer.noreply) eqn:Hinc; simpl in Hr; [done|].
  destruct Hr as [<-|[]]. simpl.
  change (Puppeteer.extractEmails content) with (match_emails content) in He.
  pose proof (match_emails_scanned content) as Hs.
  destruct (scanned_substrings _ _ _ _ Hs e He) as (before & after & Heq).
  exists content, before, after. split; [done|]. split; [done|].
  split; [|split; [|done]].
  - apply scanned_all in Hs. rewrite Forall_forall in Hs. by apply Hs.
  - intros Hsub.
    pose proof (proj2 (includes_iff e Puppeteer.noreply) Hsub). congruence.
Qed.

Lemma scrape_records githubUrl st r :
  r ∈ (Puppeteer.scrapeGitHubProfile PW githubUrl st).1 ->
  profile_record PW githubUrl r \/ readme_record PW githubUrl r.
Proof.
  unfold Puppeteer.scrapeGitHubProfile.
  destruct (JSSet.has _ _); [intros H; by apply elem_of_nil in H|].
  destruct (Puppeteer.open_profile PW githubUrl) as [mailtos|e] eqn:Hp;
    [|intros H; by apply elem_of_nil in H].
  destruct (Puppeteer.open_repositories PW githubUrl) as [links|e] eqn:Hl;
    [|intros H; by apply elem_of_nil in H].
  simpl. intros [Hin|Hin]%elem_of_app.
  - left. apply list_elem_of_fmap in Hin as (e & -> & He).
    apply list_elem_of_filter in He as [Ht He].
    apply list_elem_of_fmap in He as (href & -> & Hhref).
    exists mailtos, href. simpl. split; [done|]. split; [done|].
    split; [done|]. split; [|done].
    by destruct (Puppeteer.strip_mailto href).
  - right. apply list_elem_of_In, in_flat_map in Hin as (repoUrl & Hrepo & Hr).
    apply list_elem_of_In in Hrepo, Hr.
    apply readme_emails_elem in Hr
      as (content & before & after & Hreadme & Heq & Hshape & Hno & Hsrc).
    exists links, repoUrl, content, before, after. auto 10.
Qed.

Lemma scrape_keeps githubUrl st :
  let st' := (Puppeteer.scrapeGitHubProfile PW githubUrl st).2 in
  Puppeteer.emailData st' = Puppeteer.emailData st /\
  Puppeteer.files st' = Puppeteer.files st /\
  githubUrl ∈ Puppeteer.processedGithubUrls st' /\
  (forall u, u ∈ Puppeteer.processedGithubUrls st ->
             u ∈ Puppeteer.processedGithubUrls st').
Proof.
  unfold Puppeteer.scrapeGitHubProfile, JSSet.has.
  case_bool_decide as Hseen; [done|].
  assert (Hadd : forall u,
             u ∈ Puppeteer.processedGithubUrls st ->
             u ∈ JSSet.add githubUrl (Puppeteer.processedGithubUrls st))
    by (intros u; apply grows_add).
  destruct (Puppeteer.open_profile PW githubUrl);
    [destruct (Puppeteer.open_repositories PW githubUrl)|];
    simpl; auto using add_elem.
Qed.

Lemma scrape_seen githubUrl st :
  githubUrl ∈ Puppeteer.processedGithubUrls st ->
  Puppeteer.scrapeGitHubProfile PW githubUrl st = ([], st).
Proof.
  intros Hin. unfold Puppeteer.scrapeGitHubProfile, JSSet.has.
  by rewrite bool_decide_eq_true_2.
Qed.

Lemma scrape_all_records urls : forall st r,
  r ∈ Puppeteer.emailData (Puppeteer.scrape_all PW urls st) ->
  r ∈ Puppeteer.emailData st \/
  exists githubUrl,
    githubUrl ∈ urls /\
    (profile_record PW githubUrl r \/ readme_record PW githubUrl r).
Proof.
  induction urls as [|u urls IH]; intros st r; simpl; [by left|].
  pose proof (scrape_records u st r) as Hrec.
  pose proof (scrape_keeps u st) as (Hdata & _).
  destruct (Puppeteer.scrapeGitHubProfile PW u st) as [emails st1].
  simpl in *. intros Hin.
  destruct (IH _ _ Hin) as [Hold|(url & Hurl & Hfrom)].
  - simpl in Hold. rewrite Hdata in Hold. apply elem_of_app in Hold as [Hold|Hnew];
      [by left|right].
    exists u. split; [apply list_elem_of_here|auto].
  - right. exists url. split; [by apply list_elem_of_further|done].
Qed.

Lemma scrape_all_marks urls : forall st u,
  u ∈ urls \/ u ∈ Puppeteer.processedGithubUrls st ->
  u ∈ Puppeteer.processedGithubUrls (Puppeteer.scrape_all PW urls st).
Proof.
  induction urls as [|x urls IH]; intros st u; simpl.
  - intros [H|H]; [by apply elem_of_nil in H|done].
  - pose proof (scrape_keeps x st) as (_ & _ & Hx & Hold).
    destruct (Puppeteer.scrapeGitHubProfile PW x st) as [emails st1].
    simpl in *. intros Hu. apply IH. simpl.
    destruct Hu as [[->|Hu]%elem_of_cons|Hu]; auto.
Qed.

Lemma scrape_all_seen urls : forall st,
  (forall u, u ∈ urls -> u ∈ Puppeteer.processedGithubUrls st) ->
  Puppeteer.scrape_all PW urls st = st.
Proof.
  induction urls as [|x urls IH]; intros st Hseen; simpl; [done|].
  rewrite scrape_seen by (apply Hseen, list_elem_of_here).
  rewrite app_nil_r.
  assert (Puppeteer.State (Puppeteer.emailData st)
            (Puppeteer.processedGithubUrls st) (Puppeteer.files st) = st)
    as -> by by destruct st.
  apply IH. intros u Hu. by apply Hseen, list_elem_of_further.
Qed.
End Records.

(** X21. Every record that [main] of the browser scraper holds at its end was
    held before, or comes from one of the GitHub URLs of this run: from a
    [mailto:] link of the profile page, with source [<url> (Profile)], or
    from the README of one of the first three repositories, with source
    [<repository> (README)]; a README record is a substring of the README of
    the email shape in which [noreply.github.com] does not occur. *)
Theorem written_records_have_a_source PW maxPages st r :
  r ∈ Puppeteer.emailData (Puppeteer.main PW maxPages st) ->
  r ∈ Puppeteer.emailData st \/
  exists githubUrl,
    githubUrl ∈ Puppeteer.upwork_github_urls PW maxPages /\
    (profile_record PW githubUrl r \/ readme_record PW githubUrl r).
Proof. unfold Puppeteer.main. simpl. apply scrape_all_records. Qed.

Lemma written_records_have_a_source_witness :
  Puppeteer.EmailRecord (chars "eve@example.net")
    (chars "https://github.com/ada/two (README)")
    ∈ Puppeteer.emailData Puppeteer.initial \/
  exists githubUrl,
    githubUrl ∈ Puppeteer.upwork_github_urls one_account 2 /\
    (profile_record one_account githubUrl
       (Puppeteer.EmailRecord (chars "eve@example.net")
          (chars "https://github.com/ada/two (README)")) \/
     readme_record one_account githubUrl
       (Puppeteer.EmailRecord (chars "eve@example.net")
          (chars "https://github.com/ada/two (README)"))).
Proof.
  apply (written_records_have_a_source one_account 2 Puppeteer.initial).
  vm_compute. apply list_elem_of_further, list_elem_of_here.
Defined.

(** X22. A GitHub URL is scraped once in a process: a second call of
    [scrapeGitHubProfile] on it returns nothing and changes nothing, and a
    second [main] over the same pages leaves the records and the file as
    the first left them. *)
Theorem github_profiles_are_scraped_once PW :
  (forall githubUrl st,
      let st' := (Puppeteer.scrapeGitHubProfile PW githubUrl st).2 in
      Puppeteer.scrapeGitHubProfile PW githubUrl st' = ([], st'))
  /\ (forall maxPages st,
        Puppeteer.main PW maxPages (Puppeteer.main PW maxPages st)
        = Puppeteer.main PW maxPages st).
Proof.
  split.
  - intros githubUrl st st'. apply scrape_seen.
    by destruct (scrape_keeps PW githubUrl st) as (_ & _ & H & _).
  - intros maxPages st. unfold Puppeteer.main at 1. cbv zeta.
    rewrite scrape_all_seen.
    + unfold Puppeteer.main. simpl. by rewrite insert_insert_eq.
    + intros u Hu. unfold Puppeteer.main. simpl.
      apply scrape_all_marks. by left.
Qed.

(** *** The token of the [.env] file *)

Section Token.
Import Cli.

Lemma str_ok_exact w : forall s r,
  str_ok false w s = Some r <-> s = w ++ r.
Proof.
  induction w as [|c w IH]; intros s r; simpl.
  - split; [by intros [= ->]|by intros ->].
  - destruct s as [|x s]; [done|]. unfold chr_ok, canon.
    destruct (Ascii.eqb x c) eqn:Hx.
    + apply Ascii.eqb_eq in Hx as ->. rewrite IH. split; [by intros ->|].
      by intros [= ->].
    + split; [done|]. intros [= -> _]. by rewrite Ascii.eqb_refl in Hx.
Qed.

Lemma key_opens regex_tail s :
  starts_here (lang false (Seq (Str key) regex_tail)) s ->
  exists r, s = key ++ r.
Proof.
  intros (m & rest & -> & u & v & -> & [_ Hu] & _).
  apply str_ok_exact in Hu. rewrite app_nil_r in Hu. subst u.
  exists (v ++ rest). by rewrite <- (assoc_L (++)).
Qed.

Lemma line_opens r : starts_here (lang false lineRegex) (key ++ r).
Proof.
  exists key, r. split; [done|]. exists key, []. split; [done|].
  split; [|done]. split; [done|]. apply str_ok_exact. by rewrite app_nil_r.
Qed.

(** Whether the key stands at the head of [g ++ key ++ x] does not depend
    on [x]. *)
Lemma key_head_same g x y r :
  g ++ key ++ x = key ++ r -> exists r', g ++ key ++ y = key ++ r'.
Proof.
  intros Heq. exists (drop (length key) (g ++ key ++ y)).
  rewrite <- (take_drop (length key) (g ++ key ++ y)) at 1. f_equal.
  assert (Hx : take (length key) (g ++ key ++ x) = key)
    by (rewrite Heq; apply take_app_length).
  rewrite (assoc_L (++)) in Hx. rewrite (assoc_L (++)).
  rewrite take_app_le in Hx by (rewrite length_app; lia).
  by rewrite take_app_le by (rewrite length_app; lia).
Qed.

Lemma prefix_or_inside (w : list ascii) : forall c x y r,
  w ++ r = c ++ x :: y -> (exists k, c = w ++ k) \/ x ∈ w.
Proof.
  induction w as [|a w IH]; intros c x y r Heq; simpl in *.
  - left. by exists c.
  - destruct c as [|b c]; simpl in Heq; injection Heq as -> Heq.
    + right. apply list_elem_of_here.
    + destruct (IH _ _ _ _ Heq) as [[k ->]|Hin];
        [left; by exists k|right; by apply list_elem_of_further].
Qed.

Lemma token_run token after :
  token <> [] -> forallb dot token = true ->
  (after = [] \/ exists x t, after = x :: t /\ dot x = false) ->
  starts_with_answer (run false tokenRegex (key ++ token ++ after))
                     ([Some token], after).
Proof.
  intros Hne Htok Hafter. unfold tokenRegex. rewrite run_seq_str.
  rewrite (proj2 (str_ok_exact key _ (token ++ after)) eq_refl).
  cbn [run].
  destruct (rep_greedy_head (class_ok false dot) 1 token after Htok)
    as [tl Hrep]; [destruct token; [done|simpl; lia]|done|].
  rewrite Hrep. simpl. rewrite take_app_rest. by eexists.
Qed.

(** Reading the token back from a content in which the key stands first at
    the saved line. *)
Lemma read_back before token after :
  token <> [] -> forallb dot token = true ->
  (after = [] \/ exists x t, after = x :: t /\ dot x = false) ->
  (forall g1 g2 r, before = g1 ++ g2 -> g2 <> [] ->
     g2 ++ key ++ token ++ after <> key ++ r) ->
  search false tokenRegex (before ++ key ++ token ++ after) 0
  = Some (Match (length before) (key ++ token) [Some token]).
Proof.
  intros Hne Htok Hafter Hfirst.
  rewrite search_skips.
  2:{ intros g1 g2 Hb Hg2 [r Hr]%key_opens. by apply (Hfirst g1 g2 r). }
  destruct (token_run token after Hne Htok Hafter) as [tl Hrun].
  rewrite (search_first_answer _ _ _ _ _ _ Hrun). simpl. do 2 f_equal.
  change (take (length (key ++ token ++ after) - length after)
            (key ++ token ++ after) = key ++ token).
  rewrite (assoc_L (++)). apply take_app_rest.
Qed.

Lemma substitute_plain replacement matched before after :
  "$"%char ∉ replacement ->
  substitute replacement matched before after = replacement.
Proof.
  induction replacement as [|c r IH]; simpl; [done|]. intros Hno.
  destruct (Ascii.eqb c "$") eqn:Hc.
  - apply Ascii.eqb_eq in Hc as ->. destruct Hno. apply list_elem_of_here.
  - rewrite IH; [done|]. intros Hin. apply Hno. by apply list_elem_of_further.
Qed.

Lemma line_match content m :
  search false lineRegex content 0 = Some m ->
  exists before old after,
    content = before ++ key ++ old ++ after /\
    index m = length before /\ whole m = key ++ old /\
    (after = [] \/ exists x t, after = x :: t /\ dot x = false) /\
    (forall g1 g2 r, before = g1 ++ g2 -> g2 <> [] ->
       g2 ++ key ++ old ++ after <> key ++ r).
Proof.
  intros Hs. apply search_some in Hs
    as (gap & rest & -> & Hidx & Hlang & Hfirst & tl & Hrun).
  destruct Hlang as (u & old & Hw & [_ Hu] & _).
  apply str_ok_exact in Hu. rewrite app_nil_r in Hu. subst u.
  exists gap, old, rest. rewrite Hw, <- (assoc_L (++)).
  split; [done|]. split; [done|]. split; [done|]. split.
  - rewrite Hw, <- (assoc_L (++)) in Hrun. unfold lineRegex in Hrun.
    rewrite run_seq_str in Hrun.
    rewrite (proj2 (str_ok_exact key _ (old ++ rest)) eq_refl) in Hrun.
    cbn [run] in Hrun.
    destruct (rep (class_ok false dot) 0 (old ++ rest)) as [|c cs] eqn:Hr;
      [done|].
    simpl in Hrun. injection Hrun as _ <- _.
    by apply rep_head_stops in Hr.
  - intros g1 g2 r Hg Hne Heq. apply (Hfirst g1 g2 Hg Hne).
    rewrite Hw, <- (assoc_L (++)), Heq. apply line_opens.
Qed.

Lemma replace_line content token :
  includes content key = true -> "$"%char ∉ token ->
  exists before old after,
    content = before ++ key ++ old ++ after /\
    replace lineRegex content (key ++ token)
    = before ++ key ++ token ++ after /\
    (after = [] \/ exists x t, after = x :: t /\ dot x = false) /\
    (forall g1 g2 r, before = g1 ++ g2 -> g2 <> [] ->
       g2 ++ key ++ token ++ after <> key ++ r).
Proof.
  intros Hinc Hplain. apply includes_iff in Hinc as (pre & post & Hc).
  unfold replace.
  destruct (search false lineRegex content 0) as [m|] eqn:Hs.
  2:{ apply search_none in Hs. destruct Hs. exists pre, (key ++ post).
      split; [done|]. apply line_opens. }
  apply line_match in Hs
    as (before & old & after & -> & Hidx & Hw & Hafter & Hfirst).
  exists before, old, after. split; [done|]. split; [|split; [done|]].
  - cbv zeta. rewrite Hidx, Hw, take_app_length.
    rewrite substitute_plain.
    2:{ intros [Hin|Hin]%elem_of_app; [|done]. revert Hin. clear.
        unfold key. simpl. rewrite !elem_of_cons, elem_of_nil.
        intros H. repeat (destruct H as [H|H]; [done|]). done. }
    rewrite <- (assoc_L (++)). do 3 f_equal.
    rewrite <- length_app.
    replace (before ++ key ++ old ++ after)
      with ((before ++ key ++ old) ++ after)
      by (by rewrite <- !(assoc_L (++))).
    apply drop_app_length.
  - intros g1 g2 r Hg Hne Heq.
    destruct (key_head_same g2 (token ++ after) (old ++ after) r Heq)
      as [r' Hr'].
    by apply (Hfirst g1 g2 r').
Qed.

Lemma append_line content token :
  includes content key = false ->
  forall g1 g2 r, content ++ nl = g1 ++ g2 -> g2 <> [] ->
    g2 ++ key ++ token ++ [] <> key ++ r.
Proof.
  intros Hinc g1 g2 r Hg Hne Heq.
  destruct g2 as [|y g2 _] using rev_ind; [done|].
  rewrite (assoc_L (++)) in Hg. apply app_inj_tail in Hg as [-> <-].
  rewrite <- (assoc_L (++)) in Heq. symmetry in Heq.
  apply prefix_or_inside in Heq as [[k ->]|Hin].
  - assert (Hyes : includes (g1 ++ key ++ k) key = true)
      by (apply includes_iff; by exists g1, k).
    congruence.
  - revert Hin. clear. unfold key. simpl.
    rewrite !elem_of_cons, elem_of_nil.
    intros H. repeat (destruct H as [H|H]; [done|]). done.
Qed.

Lemma trim_start_nil s : trim_start s = [] <-> forallb is_space s = true.
Proof.
  induction s as [|c s IH]; simpl; [done|].
  destruct (is_space c); [done|]. split; done.
Qed.

Lemma trim_start_ink s :
  forallb is_space s = false -> forallb is_space (trim_start s) = false.
Proof.
  induction s as [|c s IH]; simpl; [done|].
  destruct (is_space c) eqn:Hc; simpl; [done|]. by rewrite Hc.
Qed.

Lemma forallb_rev (f : ascii -> bool) s : forallb f (rev s) = forallb f s.
Proof.
  induction s as [|c s IH]; simpl; [done|].
  rewrite forallb_app, IH. simpl. by rewrite andb_true_r, andb_comm.
Qed.

Lemma trim_length s : (0 <? length (trim s)) = negb (forallb is_space s).
Proof.
  unfold trim. rewrite length_rev.
  destruct (forallb is_space s) eqn:Hs.
  - apply trim_start_nil in Hs. by rewrite Hs.
  - apply trim_start_ink in Hs. rewrite <- forallb_rev in Hs.
    destruct (trim_start (rev (trim_start s))) as [|c t] eqn:Ht; [|done].
    apply trim_start_nil in Ht. congruence.
Qed.

Lemma saved_content env token :
  token <> [] -> forallb dot token = true -> "$"%char ∉ token ->
  exists before after,
    saveGitHubToken token env = before ++ key ++ token ++ after /\
    (after = [] \/ exists x t, after = x :: t /\ dot x = false) /\
    (forall g1 g2 r, before = g1 ++ g2 -> g2 <> [] ->
       g2 ++ key ++ token ++ after <> key ++ r).
Proof.
  intros Hne Htok Hplain. unfold saveGitHubToken.
  destruct env as [content|].
  - destruct (includes content key) eqn:Hinc.
    + destruct (replace_line content token Hinc Hplain)
        as (before & old & after & Hc & -> & Hafter & Hfirst).
      by exists before, after.
    + exists (content ++ nl), []. rewrite <- !(assoc_L (++)).
      split; [by rewrite app_nil_r|]. split; [by left|].
      intros g1 g2 r Hg Hg2.
      apply (append_line content token Hinc g1 g2 r Hg Hg2).
  - exists (header ++ nl), []. rewrite <- !(assoc_L (++)).
    split; [by rewrite app_nil_r|]. split; [by left|].
    intros g1 g2 r Hg Hg2.
    apply (append_line header token eq_refl g1 g2 r Hg Hg2).
Qed.

(** X23. A token that [saveGitHubToken] has written is the token that
    [checkGitHubToken] reads: whatever the [.env] file held, when the token
    is not empty and holds no line terminator and no [$], the first match
    of [/GITHUB_TOKEN=(.+)/] in the new content has the token as its group,
    and the check answers whether the token has a character that is not
    white space. *)
Theorem saved_token_is_read_back env token :
  token <> [] -> forallb dot token = true -> "$"%char ∉ token ->
  (exists m,
     search false tokenRegex (saveGitHubToken token env) 0 = Some m /\
     group m 1 = Some token)
  /\ checkGitHubToken (Some (saveGitHubToken token env))
     = negb (forallb is_space token).
Proof.
  intros Hne Htok Hplain.
  destruct (saved_content env token Hne Htok Hplain)
    as (before & after & Hsaved & Hafter & Hfirst).
  pose proof (read_back before token after Hne Htok Hafter Hfirst) as Hread.
  rewrite <- Hsaved in Hread. split.
  - eexists. split; [apply Hread|done].
  - unfold checkGitHubToken. rewrite Hread. unfold group. simpl.
    rewrite trim_length. by destruct token.
Qed.

Lemma saved_token_is_read_back_witness :
  (exists m,
     search false tokenRegex
       (saveGitHubToken (chars "ghp_abc123")
          (Some (chars "PORT=80" ++ nl ++ chars "GITHUB_TOKEN=old"
                   ++ nl ++ chars "MY_GITHUB_TOKEN=x"))) 0 = Some m /\
     group m 1 = Some (chars "ghp_abc123"))
  /\ checkGitHubToken
       (Some (saveGitHubToken (chars "ghp_abc123")
          (Some (chars "PORT=80" ++ nl ++ chars "GITHUB_TOKEN=old"
                   ++ nl ++ chars "MY_GITHUB_TOKEN=x"))))
     = negb (forallb is_space (chars "ghp_abc123")).
Proof.
  apply (saved_token_is_read_back
           (Some (chars "PORT=80" ++ nl ++ chars "GITHUB_TOKEN=old"
                    ++ nl ++ chars "MY_GITHUB_TOKEN=x"))
           (chars "ghp_abc123")); [done|done|].
  rewrite list_elem_of_In. simpl. intros H.
  repeat (destruct H as [H|H]; [done|]). done.
Defined.
End Token.
